(** * cache-more: the cache contract and its three persistence backends

    A shallow embedding of the three packages of the repository
    (the record-log backend [TxtDBCache], the section-file backend
    [IniDBCache] with its [INI] codec, and the embedded-engine backend
    [LevelDBCache]) together with the properties their specification states.

    JavaScript strings are sequences of UTF-16 code units, modelled as
    [list N].  Dictionaries created by [Object.create(null)] are finite maps
    ([gmap]) read and written through the ordinary-object operations of
    [JSObject] at a null prototype. *)

From Stdlib Require Import ZArith NArith List String Ascii Lia Bool.
From stdpp Require Import base option list gmap fin_maps.
Import ListNotations.

Local Open Scope Z_scope.
Set Warnings "-register-all".

(** ** JavaScript strings *)

Abbreviation jstring := (list N).

(** A literal: the code units of an ASCII string. *)
Fixpoint js (s : string) : jstring :=
  match s with
  | EmptyString => []
  | String a s' => N_of_ascii a :: js s'
  end.
Arguments js s%_string : simpl never.

Module JSString.

(** The code units [String.prototype.trim] strips: WhiteSpace and
    LineTerminator of ECMAScript. *)
Definition isWhiteSpace (c : N) : bool :=
  (bool_decide (c ∈ [9; 10; 11; 12; 13; 32; 160; 5760; 8232; 8233; 8239;
                      8287; 12288; 65279]%N))
  || ((8192 <=? c)%N && (c <=? 8202)%N).

(** The class [[\r\n]] of the line-splitting regular expression. *)
Definition isLineBreak (c : N) : bool := (c =? 10)%N || (c =? 13)%N.

Fixpoint trimStart (s : jstring) : jstring :=
  match s with
  | [] => []
  | c :: s' => if isWhiteSpace c then trimStart s' else s
  end.

Definition trimEnd (s : jstring) : jstring := rev (trimStart (rev s)).

Definition trim (s : jstring) : jstring := trimEnd (trimStart s).

Fixpoint startsWith (p s : jstring) : bool :=
  match p, s with
  | [], _ => true
  | _ :: _, [] => false
  | a :: p', b :: s' => (a =? b)%N && startsWith p' s'
  end.

Definition endsWith (p s : jstring) : bool := startsWith (rev p) (rev s).

(** [s.indexOf(p)], [-1] when [p] does not occur. *)
Fixpoint indexOf_from (p s : jstring) (i : Z) : Z :=
  if startsWith p s then i
  else match s with
       | [] => -1
       | _ :: s' => indexOf_from p s' (i + 1)
       end.

Definition indexOf (p s : jstring) : Z := indexOf_from p s 0.

Definition includes (p s : jstring) : bool := negb (indexOf p s =? -1).

(** [s.slice(a, b)]: negative indices count from the end, both are clamped. *)
Definition clamp_index (len i : Z) : Z :=
  if i <? 0 then Z.max (len + i) 0 else Z.min i len.

Definition slice (a b : Z) (s : jstring) : jstring :=
  let len := Z.of_nat (length s) in
  let from := clamp_index len a in
  let to := clamp_index len b in
  take (Z.to_nat (to - from)) (drop (Z.to_nat from) s).

(** [s.slice(a)] *)
Definition slice_from (a : Z) (s : jstring) : jstring :=
  slice a (Z.of_nat (length s)) s.

(** [s.split(/[\r\n]+/)]: the pieces between maximal runs of line breaks.
    [sep] tells that the previous code unit was a line break. *)
Fixpoint split_go (sep : bool) (s : jstring) : list jstring :=
  match s with
  | [] => [[]]
  | c :: s' =>
      if isLineBreak c then
        if sep then split_go true s' else [] :: split_go true s'
      else
        match split_go false s' with
        | l :: ls => (c :: l) :: ls
        | [] => [[c]]
        end
  end.

Definition split_lines (s : jstring) : list jstring := split_go false s.

(** What [for (x of s)] yields: code points, a surrogate pair being one. *)
Definition isHighSurrogate (c : N) : bool := (55296 <=? c)%N && (c <=? 56319)%N.
Definition isLowSurrogate (c : N) : bool := (56320 <=? c)%N && (c <=? 57343)%N.

Fixpoint code_points (s : jstring) : list jstring :=
  match s with
  | [] => []
  | c :: s' =>
      match s' with
      | d :: s'' =>
          if isHighSurrogate c && isLowSurrogate d
          then match code_points s' with
               | _ :: r => [c; d] :: r
               | [] => [[c; d]]
               end
          else [c] :: code_points s'
      | [] => [[c]]
      end
  end.

(** [String.prototype.toWellFormed]: every surrogate that is not part of a
    pair becomes U+FFFD.  UTF-8 cannot hold such a code unit, so this is
    what a text has become once it was written to a UTF-8 file and read
    back. *)
Fixpoint toWellFormed (s : jstring) : jstring :=
  match s with
  | [] => []
  | c :: s' =>
      if isHighSurrogate c then
        match s' with
        | d :: s'' =>
            if isLowSurrogate d then c :: d :: toWellFormed s''
            else 65533%N :: toWellFormed s'
        | [] => [65533%N]
        end
      else if isLowSurrogate c then 65533%N :: toWellFormed s'
      else c :: toWellFormed s'
  end.


(** [s] holds no line break: splitting leaves it whole. *)
Definition no_line_break (s : jstring) : Prop :=
  Forall (fun c => isLineBreak c = false) s.

(** The lines that are not empty. *)
Definition nonblank (ls : list jstring) : list jstring :=
  filter (fun l => l ≠ []) ls.

(** The text of lines, each followed by a line feed. *)
Definition unlines (ls : list jstring) : jstring :=
  flat_map (fun l => l ++ [10%N]) ls.

(** A line ending: a run of line breaks that is not empty, such as
    CR LF; and the text of lines each followed by it. *)
Definition line_ending (sep : jstring) : Prop :=
  sep ≠ [] /\ Forall (fun c => isLineBreak c = true) sep.

Definition lines_with (sep : jstring) (ls : list jstring) : jstring :=
  flat_map (fun l => l ++ sep) ls.




End JSString.

Import JSString.

(** ** JavaScript values and the built-ins the packages call *)

(** The values a cache can hold.  [number] is left abstract: it stands for
    the IEEE doubles of the language. *)
Inductive value (number : Type) : Type :=
| VUndefined
| VNull
| VBool (b : bool)
| VNum (n : number)
| VStr (s : jstring)
| VArr (l : list (value number))
| VObj (l : list (jstring * value number)).

Arguments VUndefined {number}.
Arguments VNull {number}.
Arguments VBool {number} b.
Arguments VNum {number} n.
Arguments VStr {number} s.
Arguments VArr {number} l.
Arguments VObj {number} l.

(** The built-in functions of the language that the source calls and that
    are not part of the repository. *)
Class Builtins := {
  number : Type;
  (** [Number::toString], reached when a number is used as a property key *)
  Number_toString : number -> jstring;
  (** [JSON.parse]; [None] stands for the [SyntaxError] it throws *)
  JSON_parse : jstring -> option (value number);
  (** [JSON.stringify]; [None] stands for the result [undefined] *)
  JSON_stringify : value number -> option jstring;
}.

Abbreviation val := (value number).

Module JSValue.
Section WithBuiltins.
Context `{Builtins}.

Fixpoint join (sep : jstring) (l : list jstring) : jstring :=
  match l with
  | [] => []
  | [x] => x
  | x :: r => x ++ sep ++ join sep r
  end.

(** [ToString], as applied by [ToPropertyKey] to a computed member
    name. *)
Fixpoint ToString (v : val) : jstring :=
  match v with
  | VUndefined => js "undefined"
  | VNull => js "null"
  | VBool true => js "true"
  | VBool false => js "false"
  | VNum n => Number_toString n
  | VStr s => s
  | VArr l =>
      join (js ",")
        (map (fun x => match x with
                       | VUndefined | VNull => []
                       | _ => ToString x
                       end) l)
  | VObj _ => js "[object Object]"
  end.

(** The template literal [`${x}`] around a [JSON.stringify] result. *)
Definition template (r : option jstring) : jstring :=
  default (js "undefined") r.

(** The values an array pattern can iterate: arrays and strings; every
    other value makes the destructuring throw a [TypeError]. *)
Definition iterate (x : val) : option (list val) :=
  match x with
  | VArr l => Some l
  | VStr s => Some (VStr <$> code_points s)
  | _ => None
  end.

(** [const [a, b, c] = x] *)
Definition destructure3 (x : val) : option (val * val * val) :=
  match iterate x with
  | Some l => Some (nth 0 l VUndefined, nth 1 l VUndefined, nth 2 l VUndefined)
  | None => None
  end.
End WithBuiltins.
End JSValue.

Import JSValue.

(** ** Ordinary objects used as dictionaries *)

Module JSObject.
Section Ordinary.
Context {V : Type}.

(** A property found on the prototype: a data property, or an accessor
    (such as [__proto__] on [Object.prototype]) with the value its
    getter returns. *)
Inductive inherited : Type :=
| Data (v : V)
| Accessor (getter_result : V).

(** The [[Prototype]] slot: [null], or an object given by its
    properties. *)
Definition prototype : Type := option (gmap jstring inherited).

(** [Object.create(null)] *)
Definition Object_create_null : prototype := None.

(** [o[k]]: the own property, else the inherited one, else
    [undefined] ([None]). *)
Definition Get (pr : prototype) (o : gmap jstring V) (k : jstring) : option V :=
  match pr with
  | None => o !! k
  | Some P =>
      match o !! k with
      | Some v => Some v
      | None =>
          match P !! k with
          | Some (Data v) => Some v
          | Some (Accessor v) => Some v
          | None => None
          end
      end
  end.

(** Whether [o[k] = v] runs an inherited setter in place of creating
    an own property. *)
Definition calls_setter (pr : prototype) (o : gmap jstring V) (k : jstring) : bool :=
  match pr with
  | None => false
  | Some P =>
      match o !! k, P !! k with
      | None, Some (Accessor _) => true
      | _, _ => false
      end
  end.

(** [o[k] = v]: the own properties afterwards. *)
Definition Put (pr : prototype) (o : gmap jstring V) (k : jstring) (v : V)
  : gmap jstring V :=
  match pr with
  | None => <[k := v]> o
  | Some _ => if calls_setter pr o k then o else <[k := v]> o
  end.

(** [delete o[k]] removes an own property only. *)
Definition Delete (o : gmap jstring V) (k : jstring) : gmap jstring V :=
  delete k o.

(** An object whose prototype is like [Object.prototype]: [constructor]
    is an inherited data property and [__proto__] an inherited accessor.
    The packages never create one; it shows what [Object.create(null)]
    avoids. *)
Definition Object_prototype_like (ctor proto : V) : prototype :=
  Some {[ js "constructor" := Data ctor; js "__proto__" := Accessor proto ]}.

(** The own enumerable properties, which for a prototype-free object
    are also what [for (k in o)] visits.  The map lists them in an order
    of its own, which stands for the property order of the object (index
    keys, then creation order); no property below depends on it. *)
Definition own_entries (o : gmap jstring V) : list (jstring * V) :=
  map_to_list o.
End Ordinary.
Arguments inherited V : clear implicits.
Arguments prototype V : clear implicits.
End JSObject.

Import JSObject.

(** ** The in-memory Store of the file-backed backends *)

(** [Dict<any>] and [Dict<Dict<any>>], both created by
    [Object.create(null)]. *)
Abbreviation Table := (gmap jstring val).
Abbreviation Store := (gmap jstring (gmap jstring val)).

Module Dicts.
Section WithBuiltins.
Context `{Builtins}.

(** [private store: Dict<Dict<any>> = Object.create(null)] *)
Definition store_proto : prototype Table := Object_create_null.
(** the tables: [Object.create(null)] in [table] and in [INI.parse] *)
Definition table_proto : prototype val := Object_create_null.

(** [return this.store[name] ??= Object.create(null)]: the table and the
    Store afterwards. *)
Definition table (name : jstring) (store : Store) : Table * Store :=
  match Get store_proto store name with
  | Some t => (t, store)
  | None => (∅, Put store_proto store name ∅)
  end.

(** [delete this.store[name]] *)
Definition clear (name : jstring) (store : Store) : Store :=
  Delete store name.

(** [return this.table(name)[key]] *)
Definition get (name key : jstring) (store : Store) : val * Store :=
  let '(t, store1) := table name store in
  (default VUndefined (Get table_proto t key), store1).

(** [this.table(name)[key] = value]: the table object is the one the
    Store holds, so the assignment is seen through the Store. *)
Definition set (name key : jstring) (value : val) (store : Store) : Store :=
  let '(t, store1) := table name store in
  <[name := Put table_proto t key value]> store1.

(** [delete this.table(name)[key]] *)
Definition delete (name key : jstring) (store : Store) : Store :=
  let '(t, store1) := table name store in
  <[name := Delete t key]> store1.

(** [Object.entries(this.table(table))], and likewise keys and values *)
Definition entries (name : jstring) (store : Store)
  : list (jstring * val) * Store :=
  let '(t, store1) := table name store in (own_entries t, store1).

Definition keys (name : jstring) (store : Store) : list jstring * Store :=
  let '(t, store1) := table name store in ((own_entries t).*1, store1).

Definition values (name : jstring) (store : Store) : list val * Store :=
  let '(t, store1) := table name store in ((own_entries t).*2, store1).

(** Property names that are special on objects with a prototype. *)
Definition special_names : list jstring :=
  [js "__proto__"; js "constructor"; js "prototype"; js "toString";
   js "valueOf"; js "hasOwnProperty"].

(** The entry stored under [(name, key)], if any: what the properties
    below call the content of the Store. *)
Definition entry (store : Store) (name key : jstring) : option val :=
  match store !! name with
  | Some t => t !! key
  | None => None
  end.

(** Two Stores hold the same tables with the same entries; the order in
    which they enumerate them is left aside. *)
Definition same_content (a b : Store) : Prop :=
  (forall name, is_Some (a !! name) <-> is_Some (b !! name))
  /\ (forall name key, entry a name key = entry b name key).
End WithBuiltins.
End Dicts.

(** ** The INI codec (namespace [INI]) *)

Module INI.
Section WithBuiltins.
Context `{Builtins}.

(** [currentSection &&]: [null] and the empty string are falsy. *)
Definition truthy (currentSection : option jstring) : bool :=
  match currentSection with
  | Some (_ :: _) => true
  | _ => false
  end.

(** One round of the loop of [parse] over the state
    [(result, currentSection)].  The table of [currentSection] exists
    whenever a key line is stored (lemma
    [ParserFacts.parse_section_exists]), so [result[currentSection]] is
    never [undefined] there and the empty table read in that case is
    never reached. *)
Definition parse_line (st : Store * option jstring) (line : jstring)
  : Store * option jstring :=
  let '(result, currentSection) := st in
  let trimmed := trim line in
  if startsWith (js "[") trimmed && endsWith (js "]") trimmed then
    let section := slice 1 (-1) trimmed in
    (match Get Dicts.store_proto result section with
     | Some _ => result
     | None => Put Dicts.store_proto result section ∅
     end, Some section)
  else if truthy currentSection && includes (js "=") trimmed then
    let index := indexOf (js "=") trimmed in
    let key := trim (slice 0 index trimmed) in
    let raw := trim (slice_from (index + 1) trimmed) in
    let v := match JSON_parse raw with
             | Some v => v
             | None => VStr raw
             end in
    let section := default [] currentSection in
    let t := default ∅ (Get Dicts.store_proto result section) in
    (<[section := Put Dicts.table_proto t key v]> result, currentSection)
  else st.

(** How [parse_line] classifies a line. *)
Definition is_header (line : jstring) : bool :=
  startsWith (js "[") (trim line) && endsWith (js "]") (trim line).

Definition has_equals (line : jstring) : bool :=
  includes (js "=") (trim line).

(** The section a header line names. *)
Definition section_of (line : jstring) : jstring :=
  slice 1 (-1) (trim line).

(** A line [parse] looks at: a header, or a line with an [=] sign. *)
Definition relevant (line : jstring) : bool :=
  is_header line || has_equals line.

(** The key and the text after the [=] sign of a key line. *)
Definition key_of (line : jstring) : jstring :=
  trim (slice 0 (indexOf (js "=") (trim line)) (trim line)).

Definition raw_of (line : jstring) : jstring :=
  trim (slice_from (indexOf (js "=") (trim line) + 1) (trim line)).

(** The table of the selected section is in the result. *)
Definition section_exists (st : Store * option jstring) : Prop :=
  forall sec, st.2 = Some sec -> is_Some (st.1 !! sec).

Definition parse_lines (lines : list jstring) (st : Store * option jstring)
  : Store * option jstring :=
  foldl parse_line st lines.

Definition parse (source : jstring) : Store :=
  (parse_lines (split_lines source) (∅, None)).1.

(** The text [stringify] emits for the sections in a given enumeration
    order. *)
Definition stringify_key (kv : jstring * val) : jstring :=
  kv.1 ++ js " = " ++ template (JSON_stringify kv.2) ++ [10%N].

Definition stringify_section (sec : jstring * list (jstring * val)) : jstring :=
  js "[" ++ sec.1 ++ js "]" ++ [10%N]
  ++ flat_map stringify_key sec.2 ++ [10%N].

Definition stringify_entries (l : list (jstring * list (jstring * val))) : jstring :=
  flat_map stringify_section l.

(** [for (const section in data)] / [for (const key in data[section])] *)
Definition enumerate (data : Store) : list (jstring * list (jstring * val)) :=
  (fun st : jstring * Table => (st.1, own_entries st.2)) <$> own_entries data.

Definition stringify (data : Store) : jstring :=
  stringify_entries (enumerate data).

(** The text [stringify] writes for a value, and the lines it writes for
    a key and for a section. *)
Definition value_text (v : val) : jstring := template (JSON_stringify v).

Definition key_line (kv : jstring * val) : jstring :=
  kv.1 ++ js " = " ++ value_text kv.2.

Definition lines_of_section (sec : jstring * list (jstring * val))
  : list jstring :=
  (js "[" ++ sec.1 ++ js "]") :: map key_line sec.2 ++ [[]].

(** What [parse] stores for the text after the [=] sign. *)
Definition decode (raw : jstring) : val :=
  match JSON_parse raw with
  | Some v => v
  | None => VStr raw
  end.

(** The stores the section format can hold: a table name is not empty
    and has no line break; a key has no line break, no [=] sign, and no
    white space at either end; the JSON text of a value is one trimmed,
    non-empty line that parses back to the value; and no key line reads
    as a section header. *)
Definition section_ok (name : jstring) : Prop :=
  name ≠ [] /\ no_line_break name.

Definition key_ok (key : jstring) : Prop :=
  no_line_break key /\ (61%N ∉ key) /\ trim key = key.

Definition text_ok (v : val) : Prop :=
  JSON_parse (value_text v) = Some v
  /\ no_line_break (value_text v)
  /\ trim (value_text v) = value_text v
  /\ value_text v ≠ [].

Definition header_like (key : jstring) (v : val) : Prop :=
  startsWith (js "[") key = true /\ endsWith (js "]") (value_text v) = true.

Definition entry_ok (key : jstring) (v : val) : Prop :=
  key_ok key /\ text_ok v /\ ¬ header_like key v.

Definition safe (data : Store) : Prop :=
  map_Forall (fun name t => section_ok name /\ map_Forall entry_ok t) data.

(** What [parse] can return, whatever the text: a table name has no
    line break and is not empty when the table holds a key; a key has no
    line break, no [=] sign and no white space at either end; a value is
    what [decode] gives for a trimmed text. *)
Definition parsed_key (key : jstring) (v : val) : Prop :=
  key_ok key /\ exists raw, trim raw = raw /\ v = decode raw.

Definition parsed (res : Store) : Prop :=
  map_Forall (fun name t => no_line_break name
                            /\ (t ≠ ∅ -> name ≠ [])
                            /\ map_Forall parsed_key t) res.

(** What a key line and a whole section block do to the result. *)
Definition put_entry (t : Table) (kv : jstring * val) : Table :=
  <[kv.1 := kv.2]> t.

Definition put_section (res : Store) (sec : jstring * list (jstring * val))
  : Store :=
  <[sec.1 := foldl put_entry (default ∅ (res !! sec.1)) sec.2]> res.

Definition section_safe (sec : jstring * list (jstring * val)) : Prop :=
  section_ok sec.1 /\ Forall (fun kv => entry_ok kv.1 kv.2) sec.2.
End WithBuiltins.
End INI.

(** ** The host: timers, the persistence file and the logger *)

Inductive warning : Type :=
| failed_to_parse_cache_line
| failed_to_read_cache_file
| failed_to_write_cache_file.

(** What [fs.readFile] (after [fs.mkdir]) gives [init]: the text, or an
    error with its [code]. *)
Inductive read_result : Type :=
| ReadData (data : jstring)
| ReadError (code : jstring).

Record host : Type := Host {
  now : Z;                       (* the clock, in milliseconds *)
  timers : list (nat * Z);       (* pending [setTimeout] callbacks: handle and due time *)
  next_timer : nat;              (* the next fresh handle *)
  file : option jstring;         (* the persistence file, [None] when it does not exist *)
  writable : bool;               (* whether [fs.writeFile] succeeds *)
  written : list jstring;        (* every content handed to [fs.writeFile], oldest first *)
  warnings : list warning;       (* what the logger received *)
}.

(** The two fields of a file-backed cache object. *)
Record cache `{Builtins} : Type := CacheState {
  store : Store;
  _debounce : option nat;
}.
Arguments CacheState {_} store _debounce.

Module Host.
Definition clearTimeout (t : nat) (h : host) : host :=
  Host (now h) (filter (fun tm => tm.1 ≠ t) (timers h)) (next_timer h)
       (file h) (writable h) (written h) (warnings h).

Definition setTimeout (delay : Z) (h : host) : nat * host :=
  (next_timer h,
   Host (now h) (timers h ++ [(next_timer h, now h + delay)]) (S (next_timer h))
        (file h) (writable h) (written h) (warnings h)).

(** The call [fs.writeFile(path, content)]: the content is handed to the
    file system and a promise is returned; nothing has happened to the
    file yet. *)
Definition writeFile_starts (content : jstring) (h : host) : host :=
  Host (now h) (timers h) (next_timer h) (file h) (writable h)
       (written h ++ [content]) (warnings h).

(** The promise of that call settles, inside the [try]/[catch] of [flush]:
    the file has been overwritten, or the [catch] logs a warning. *)
Definition writeFile_settles (content : jstring) (h : host) : host :=
  if writable h then
    Host (now h) (timers h) (next_timer h) (Some content) (writable h)
         (written h) (warnings h)
  else
    Host (now h) (timers h) (next_timer h) (file h) (writable h)
         (written h) (warnings h ++ [failed_to_write_cache_file]).

(** [await fs.writeFile(path, content)] inside [try]/[catch], from the
    call to the settlement of its promise: the file is overwritten, or a
    warning is logged. *)
Definition writeFile (content : jstring) (h : host) : host :=
  if writable h then
    Host (now h) (timers h) (next_timer h) (Some content) (writable h)
         (written h ++ [content]) (warnings h)
  else
    Host (now h) (timers h) (next_timer h) (file h) (writable h)
         (written h ++ [content]) (warnings h ++ [failed_to_write_cache_file]).

Definition warn (w : warning) (h : host) : host :=
  Host (now h) (timers h) (next_timer h) (file h) (writable h)
       (written h) (warnings h ++ [w]).

(** The timers due at time [t] leave the queue and the clock moves on. *)
Definition due (t : Z) (h : host) : list (nat * Z) :=
  filter (fun tm => tm.2 ≤ t) (timers h).

Definition pass (t : Z) (h : host) : host :=
  Host (Z.max (now h) t) (filter (fun tm => ¬ tm.2 ≤ t) (timers h)) (next_timer h)
       (file h) (writable h) (written h) (warnings h).

(** [fs.readFile(path, 'utf8')] after [fs.mkdir]: the text of the file, or
    the error [ENOENT] when it does not exist.  [file] holds the text as
    it was handed to [fs.writeFile]; the file itself is UTF-8, so what is
    read back is that text with every lone surrogate replaced. *)
Definition readFile (h : host) : read_result :=
  match file h with
  | Some data => ReadData (toWellFormed data)
  | None => ReadError (js "ENOENT")
  end.

(** The logger holding the given warnings. *)
Definition logged (ws : list warning) (h : host) : host :=
  Host (now h) (timers h) (next_timer h) (file h) (writable h) (written h) ws.

(** The host a new process finds: the file system is what the previous
    process left, the clock, the timers and the logger start afresh. *)
Definition restarted (h : host) : host :=
  Host 0 [] 0 (file h) (writable h) [] [].
End Host.

(** ** The debounced file store shared by [TxtDBCache] and [IniDBCache] *)

Module DebouncedFileStore.
Section WithCodec.
Context `{Builtins}.
(** what [flush] writes for a Store *)
Variable serialize : Store -> jstring.

(** [flush], run to its end: [_debounce] is reset, the whole Store is
    serialized and handed to [fs.writeFile], and the write has settled
    (lemma [AsyncFacts.flush_settled]). *)
Definition flush (s : cache * host) : cache * host :=
  let '(c, h) := s in
  (CacheState (store c) None, Host.writeFile (serialize (store c)) h).

(** The part of [flush] that runs before its [await]: [_debounce] is
    reset and the serialized Store is handed to [fs.writeFile].  The
    caller gets the promise of the rest. *)
Definition flush_starts (s : cache * host) : cache * host :=
  let '(c, h) := s in
  (CacheState (store c) None, Host.writeFile_starts (serialize (store c)) h).

(** The rest of [flush]: the write of [content] settles. *)
Definition flush_settles (content : jstring) (s : cache * host)
  : cache * host :=
  (s.1, Host.writeFile_settles content s.2).

(** [write]: cancel the outstanding timer, schedule [flush] in 1000 ms. *)
Definition write (s : cache * host) : cache * host :=
  let '(c, h) := s in
  let h1 := match _debounce c with
            | Some t => Host.clearTimeout t h
            | None => h
            end in
  let '(t, h2) := Host.setTimeout 1000 h1 in
  (CacheState (store c) (Some t), h2).

Definition clear (name : jstring) (s : cache * host) : cache * host :=
  let '(c, h) := s in
  write (CacheState (Dicts.clear name (store c)) (_debounce c), h).

Definition get (name key : jstring) (s : cache * host) : val * (cache * host) :=
  let '(c, h) := s in
  let '(v, store1) := Dicts.get name key (store c) in
  (v, (CacheState store1 (_debounce c), h)).

Definition set (name key : jstring) (value : val) (s : cache * host)
  : cache * host :=
  let '(c, h) := s in
  write (CacheState (Dicts.set name key value (store c)) (_debounce c), h).

Definition delete (name key : jstring) (s : cache * host) : cache * host :=
  let '(c, h) := s in
  write (CacheState (Dicts.delete name key (store c)) (_debounce c), h).

Definition entries (name : jstring) (s : cache * host)
  : list (jstring * val) * (cache * host) :=
  let '(c, h) := s in
  let '(l, store1) := Dicts.entries name (store c) in
  (l, (CacheState store1 (_debounce c), h)).

(** [yield* Object.keys(this.table(table))] and
    [yield* Object.values(this.table(table))] *)
Definition keys (name : jstring) (s : cache * host)
  : list jstring * (cache * host) :=
  let '(c, h) := s in
  let '(l, store1) := Dicts.keys name (store c) in
  (l, (CacheState store1 (_debounce c), h)).

Definition values (name : jstring) (s : cache * host)
  : list val * (cache * host) :=
  let '(c, h) := s in
  let '(l, store1) := Dicts.values name (store c) in
  (l, (CacheState store1 (_debounce c), h)).

(** The state a reading call leaves: the table exists, nothing else
    has changed. *)
Definition touched (name : jstring) (s : cache * host) : cache * host :=
  (CacheState (<[name := default ∅ (store s.1 !! name)]> (store s.1))
     (_debounce s.1), s.2).

(** The [dispose] hook registered by the constructor, as far as it
    runs: [clearTimeout(this._debounce); return this.flush()].  [flush]
    is asynchronous, so when the hook returns the write has been started
    and nothing more. *)
Definition dispose (s : cache * host) : cache * host :=
  let '(c, h) := s in
  match _debounce c with
  | Some t => flush_starts (c, Host.clearTimeout t h)
  | None => s
  end.

(** What the hook returns: the promise of [flush], given here by the
    content whose write it waits for, or [undefined] ([None]). *)
Definition dispose_returns (s : cache * host) : option jstring :=
  match _debounce s.1 with
  | Some _ => Some (serialize (store s.1))
  | None => None
  end.

(** The state once the promise the hook returned has settled. *)
Definition dispose_settles (s : cache * host) : cache * host :=
  match dispose_returns s with
  | Some content => flush_settles content (dispose s)
  | None => dispose s
  end.

(** What the host does with the value a [dispose] callback returns.  The
    host is not part of the repository, and nothing in the repository
    awaits the promise. *)
Inductive hook_policy : Type :=
| awaits_hook_result
| drops_hook_result.

(** The state in which the shutdown of the host completes. *)
Definition shutdown (policy : hook_policy) (s : cache * host)
  : cache * host :=
  match policy with
  | awaits_hook_result => dispose_settles s
  | drops_hook_result => dispose s
  end.

(** The event loop reaching time [t]: every timer due by then runs its
    callback [() => this.flush()], in queue order. *)
Definition advance (t : Z) (s : cache * host) : cache * host :=
  let '(c, h) := s in
  foldl (fun s' _ => flush s') (c, Host.pass t h) (Host.due t h).

(** A call of one of the three mutating operations. *)
Inductive mutation : Type :=
| call_clear (name : jstring)
| call_set (name key : jstring) (value : val)
| call_delete (name key : jstring).

Definition call (m : mutation) (s : cache * host) : cache * host :=
  match m with
  | call_clear name => clear name s
  | call_set name key value => set name key value s
  | call_delete name key => delete name key s
  end.

(** What the call does to the Store. *)
Definition store_after (st : Store) (m : mutation) : Store :=
  match m with
  | call_clear name => Dicts.clear name st
  | call_set name key value => Dicts.set name key value st
  | call_delete name key => Dicts.delete name key st
  end.

(** A call arriving at time [t]: the event loop reaches [t], then the
    call runs. *)
Definition arrive (s : cache * host) (tm : Z * mutation) : cache * host :=
  call tm.2 (advance tm.1 s).

Definition run (calls : list (Z * mutation)) (s : cache * host)
  : cache * host :=
  foldl arrive s calls.

(** Each call follows the previous one (the first follows time [t]) by
    less than the delay. *)
Fixpoint burst (t : Z) (calls : list (Z * mutation)) : Prop :=
  match calls with
  | [] => True
  | (t', _) :: rest => t <= t' < t + 1000 /\ burst t' rest
  end.

(** The time of the last call ([t] when there is none). *)
Definition last_time (t : Z) (calls : list (Z * mutation)) : Z :=
  default t (last (t :: calls.*1)).

(** The timer queue holds exactly the flush the cache has pending, and
    it is not due by time [t]. *)
Definition coherent (t : Z) (s : cache * host) : Prop :=
  match _debounce s.1 with
  | None => timers s.2 = []
  | Some handle => exists due, timers s.2 = [(handle, due)] /\ t < due
  end.

(** Timers never stack: the queue holds the pending flush of the cache
    and nothing else. *)
Definition tidy (s : cache * host) : Prop :=
  match _debounce s.1 with
  | None => timers s.2 = []
  | Some handle => exists due, timers s.2 = [(handle, due)]
  end.

(** A flush is pending for time [t + 1000], scheduled at time [t], and
    it is the only timer. *)
Definition armed (t : Z) (s : cache * host) : Prop :=
  exists handle,
    _debounce s.1 = Some handle
    /\ timers s.2 = [(handle, t + 1000)]
    /\ now s.2 = t.

(** The part of the host a mutating call leaves alone. *)
Definition same_files (h h' : host) : Prop :=
  file h' = file h /\ writable h' = writable h
  /\ written h' = written h /\ warnings h' = warnings h.

(** The object the constructor leaves: [store = Object.create(null)],
    [_debounce = null]; [init] has been started and the [dispose] hook
    registered. *)
Definition constructor (h : host) : cache * host :=
  (CacheState ∅ None, h).

(** The constructor calls [this.init()] without awaiting it: the body of
    [init] after [await fs.readFile(...)] runs in one piece at some later
    turn of the event loop, on the Store as the calls made in between
    have left it.  [load] is the [init] of the backend, [r] what the read
    produced. *)
Definition init_resumes
    (load : read_result -> Store * list warning -> Store * list warning)
    (r : read_result) (s : cache * host) : cache * host :=
  let '(c, h) := s in
  let st := load r (store c, warnings h) in
  (CacheState st.1 (_debounce c), Host.logged st.2 h).

(** What can happen to a cache object: a mutating call, one of the four
    reading calls, the completion of [init], the [dispose] event. *)
Inductive request : Type :=
| mutating (m : mutation)
| reading_get (name key : jstring)
| reading_keys (name : jstring)
| reading_values (name : jstring)
| reading_entries (name : jstring)
| init_read (r : read_result)
| disposing.

Variable load : read_result -> Store * list warning -> Store * list warning.

Definition serve (q : request) (s : cache * host) : cache * host :=
  match q with
  | mutating m => call m s
  | reading_get name key => (get name key s).2
  | reading_keys name => (keys name s).2
  | reading_values name => (values name s).2
  | reading_entries name => (entries name s).2
  | init_read r => init_resumes load r s
  | disposing => dispose s
  end.

(** A request arriving at time [t]: the event loop reaches [t], then the
    request is served. *)
Definition occur (s : cache * host) (tq : Z * request) : cache * host :=
  serve tq.2 (advance tq.1 s).

Definition history (l : list (Z * request)) (s : cache * host)
  : cache * host :=
  foldl occur s l.

(** The mutating calls among the requests. *)
Definition is_mutating (q : request) : bool :=
  match q with
  | mutating _ => true
  | _ => false
  end.

Definition mutations (l : list (Z * request)) : nat :=
  length (filter (fun tq => is_mutating tq.2 = true) l).

(** The flushes still to come: one when a timer is pending. *)
Definition pending (s : cache * host) : nat :=
  match _debounce s.1 with
  | Some _ => 1
  | None => 0
  end.

(** What one step does to the writes: nothing, or the one pending flush. *)
Definition quiet (s s' : cache * host) : Prop :=
  written s'.2 = written s.2 /\ file s'.2 = file s.2.

Definition flushed (s s' : cache * host) : Prop :=
  pending s = 1%nat /\ pending s' = 0%nat
  /\ exists content, written s'.2 = written s.2 ++ [content].

(** The bound kept along a history. *)
Definition within (n : nat) (s s' : cache * host) : Prop :=
  written s.2 `prefix_of` written s'.2
  /\ (length (written s'.2) + pending s' <= length (written s.2) + pending s + n)%nat
  /\ (written s'.2 = written s.2 -> file s'.2 = file s.2).
End WithCodec.
End DebouncedFileStore.

(** ** [TxtDBCache]: the record-log backend *)

Module TxtDBCache.
Section WithBuiltins.
Context `{Builtins}.

(** the text [flush] accumulates in [txtContent] *)
Definition record_line (tableName : jstring) (kv : jstring * val) : jstring :=
  template (JSON_stringify (VArr [VStr tableName; VStr kv.1; kv.2])) ++ [10%N].

Definition txtContent_of (l : list (jstring * list (jstring * val))) : jstring :=
  flat_map (fun sec => flat_map (record_line sec.1) sec.2) l.

Definition txtContent (store : Store) : jstring :=
  txtContent_of (INI.enumerate store).

(** One round of the loop of [init] over the Store and the logger. *)
Definition init_line (st : Store * list warning) (line : jstring)
  : Store * list warning :=
  match line with
  | [] => st
  | _ :: _ =>
      match JSON_parse line with
      | Some x =>
          match destructure3 x with
          | Some (table, key, value) =>
              (Dicts.set (ToString table) (ToString key) value st.1, st.2)
          | None => (st.1, st.2 ++ [failed_to_parse_cache_line])
          end
      | None => (st.1, st.2 ++ [failed_to_parse_cache_line])
      end
  end.

(** The record a line of the file holds, if it decodes: the parsed
    value destructured, table and key turned into property names. *)
Definition decode_record (line : jstring) : option (jstring * jstring * val) :=
  match JSON_parse line with
  | Some x =>
      match destructure3 x with
      | Some (table, key, value) => Some (ToString table, ToString key, value)
      | None => None
      end
  | None => None
  end.

(** The line [flush] writes for an entry. *)
Definition record_text (tableName key : jstring) (value : val) : jstring :=
  template (JSON_stringify (VArr [VStr tableName; VStr key; value])).

(** The entries the record log can hold: the JSON text of the triple is
    one non-empty line that parses back to the triple. *)
Definition record_ok (tableName key : jstring) (value : val) : Prop :=
  JSON_parse (record_text tableName key value)
  = Some (VArr [VStr tableName; VStr key; value])
  /\ no_line_break (record_text tableName key value)
  /\ record_text tableName key value ≠ [].

Definition safe (store : Store) : Prop :=
  map_Forall (fun name t => map_Forall (record_ok name) t) store.

(** The entries [flush] writes, in order, and what loading one does. *)
Definition records (store : Store) : list (jstring * jstring * val) :=
  flat_map (fun sec => map (fun kv => (sec.1, kv.1, kv.2)) sec.2)
    (INI.enumerate store).

Definition set_record (st : Store) (r : jstring * jstring * val) : Store :=
  Dicts.set r.1.1 r.1.2 r.2 st.

Definition line_of_record (r : jstring * jstring * val) : jstring :=
  record_text r.1.1 r.1.2 r.2.

Definition record_safe (r : jstring * jstring * val) : Prop :=
  record_ok r.1.1 r.1.2 r.2.

(** The entry a record is for. *)
Definition address (r : jstring * jstring * val) : jstring * jstring :=
  (r.1.1, r.1.2).



(** The line decodes to a record for the entry [(T, K)]. *)
Definition assigns (T K : jstring) (line : jstring) : Prop :=
  exists V, decode_record line = Some (T, K, V).

Definition init_lines (lines : list jstring) (st : Store * list warning)
  : Store * list warning :=
  foldl init_line st lines.

(** [init], given what reading the file produced. *)
Definition init (r : read_result) (st : Store * list warning)
  : Store * list warning :=
  match r with
  | ReadData [] => st
  | ReadData data => init_lines (split_lines data) st
  | ReadError code =>
      if decide (code = js "ENOENT") then st
      else (st.1, st.2 ++ [failed_to_read_cache_file])
  end.

Definition flush := DebouncedFileStore.flush txtContent.
Definition write := DebouncedFileStore.write.
Definition clear := DebouncedFileStore.clear.
Definition get := DebouncedFileStore.get.
Definition set := DebouncedFileStore.set.
Definition delete := DebouncedFileStore.delete.
Definition entries := DebouncedFileStore.entries.
Definition dispose := DebouncedFileStore.dispose txtContent.
Definition dispose_returns := DebouncedFileStore.dispose_returns txtContent.
Definition dispose_settles := DebouncedFileStore.dispose_settles txtContent.
Definition shutdown := DebouncedFileStore.shutdown txtContent.
Definition advance := DebouncedFileStore.advance txtContent.
Definition keys := DebouncedFileStore.keys.
Definition values := DebouncedFileStore.values.
Definition init_resumes := DebouncedFileStore.init_resumes init.
Definition history := DebouncedFileStore.history txtContent init.
Definition constructor := DebouncedFileStore.constructor.

(** A new process on the file system the previous one left: the
    constructor runs and [init] completes with what it reads there. *)
Definition started (h : host) : cache * host :=
  init_resumes (Host.readFile (Host.restarted h))
    (constructor (Host.restarted h)).
Definition run := DebouncedFileStore.run txtContent.
End WithBuiltins.
End TxtDBCache.

(** ** [IniDBCache]: the section-file backend *)

Module IniDBCache.
Section WithBuiltins.
Context `{Builtins}.

(** [init]: a non-empty file replaces the Store by what [INI.parse]
    reads. *)
Definition init (r : read_result) (st : Store * list warning)
  : Store * list warning :=
  match r with
  | ReadData [] => st
  | ReadData data => (INI.parse data, st.2)
  | ReadError code =>
      if decide (code = js "ENOENT") then st
      else (st.1, st.2 ++ [failed_to_read_cache_file])
  end.

Definition flush := DebouncedFileStore.flush INI.stringify.
Definition write := DebouncedFileStore.write.
Definition clear := DebouncedFileStore.clear.
Definition get := DebouncedFileStore.get.
Definition set := DebouncedFileStore.set.
Definition delete := DebouncedFileStore.delete.
Definition entries := DebouncedFileStore.entries.
Definition dispose := DebouncedFileStore.dispose INI.stringify.
Definition dispose_returns := DebouncedFileStore.dispose_returns INI.stringify.
Definition dispose_settles := DebouncedFileStore.dispose_settles INI.stringify.
Definition shutdown := DebouncedFileStore.shutdown INI.stringify.
Definition advance := DebouncedFileStore.advance INI.stringify.
Definition keys := DebouncedFileStore.keys.
Definition values := DebouncedFileStore.values.
Definition init_resumes := DebouncedFileStore.init_resumes init.
Definition history := DebouncedFileStore.history INI.stringify init.
Definition constructor := DebouncedFileStore.constructor.

(** A new process on the file system the previous one left: the
    constructor runs and [init] completes with what it reads there. *)
Definition started (h : host) : cache * host :=
  init_resumes (Host.readFile (Host.restarted h))
    (constructor (Host.restarted h)).
Definition run := DebouncedFileStore.run INI.stringify.
End WithBuiltins.
End IniDBCache.

(** ** A reference implementation of the built-ins

    The theorems below hold for every [Builtins].  To run the code on
    concrete inputs, [Reference.builtins] implements the fragment of JSON
    whose numbers are integers: the compact serialization of
    [JSON.stringify] and a recursive-descent [JSON.parse]. *)

From Stdlib Require DecimalString.

Module Reference.

Definition hex_digit (n : N) : N :=
  if (n <? 10)%N then (48 + n)%N else (87 + n)%N.

Definition unicode_escape (c : N) : jstring :=
  js "\u" ++ [hex_digit (c / 4096 mod 16); hex_digit (c / 256 mod 16);
              hex_digit (c / 16 mod 16); hex_digit (c mod 16)]%N.

(** [QuoteJSONString] on code units; lone surrogates are escaped. *)
Fixpoint quote_body (s : jstring) : jstring :=
  match s with
  | [] => []
  | c :: s' =>
      if (c =? 34)%N then [92; 34]%N ++ quote_body s'
      else if (c =? 92)%N then js "\\" ++ quote_body s'
      else if (c =? 8)%N then js "\b" ++ quote_body s'
      else if (c =? 12)%N then js "\f" ++ quote_body s'
      else if (c =? 10)%N then js "\n" ++ quote_body s'
      else if (c =? 13)%N then js "\r" ++ quote_body s'
      else if (c =? 9)%N then js "\t" ++ quote_body s'
      else if (c <? 32)%N then unicode_escape c ++ quote_body s'
      else if isHighSurrogate c then
        match s' with
        | d :: s'' =>
            if isLowSurrogate d then c :: d :: quote_body s''
            else unicode_escape c ++ quote_body s'
        | [] => unicode_escape c
        end
      else if isLowSurrogate c then unicode_escape c ++ quote_body s'
      else c :: quote_body s'
  end.

Definition quote (s : jstring) : jstring := [34%N] ++ quote_body s ++ [34%N].

Definition Z_toString (n : Z) : jstring :=
  js (DecimalString.NilZero.string_of_int (Z.to_int n)).

Fixpoint stringify (v : value Z) : option jstring :=
  match v with
  | VUndefined => None
  | VNull => Some (js "null")
  | VBool true => Some (js "true")
  | VBool false => Some (js "false")
  | VNum n => Some (Z_toString n)
  | VStr s => Some (quote s)
  | VArr l =>
      Some (js "[" ++ JSValue.join (js ",")
              (map (fun x => default (js "null") (stringify x)) l) ++ js "]")
  | VObj l =>
      Some (js "{" ++ JSValue.join (js ",")
              (flat_map (fun kv => match stringify kv.2 with
                                   | Some t => [quote kv.1 ++ js ":" ++ t]
                                   | None => []
                                   end) l) ++ js "}")
  end.

(** JSON white space *)
Fixpoint skip_ws (s : jstring) : jstring :=
  match s with
  | c :: s' =>
      if (c =? 32)%N || (c =? 9)%N || (c =? 10)%N || (c =? 13)%N
      then skip_ws s' else s
  | [] => []
  end.

Definition expect (p : jstring) (v : value Z) (s : jstring)
  : option (value Z * jstring) :=
  if startsWith p s then Some (v, drop (length p) s) else None.

Definition is_digit (c : N) : bool := (48 <=? c)%N && (c <=? 57)%N.

Fixpoint digits (acc : Z) (s : jstring) : Z * jstring :=
  match s with
  | c :: s' =>
      if is_digit c then digits (10 * acc + Z.of_N (c - 48)) s' else (acc, s)
  | [] => (acc, [])
  end.

(** An integer literal: no leading zero, no fraction, no exponent. *)
Definition parse_int (s : jstring) : option (Z * jstring) :=
  match s with
  | 48%N :: s' =>
      match s' with
      | c :: _ => if is_digit c || (c =? 46)%N || (c =? 101)%N || (c =? 69)%N
                  then None else Some (0, s')
      | [] => Some (0, s')
      end
  | c :: _ =>
      if is_digit c then
        let '(n, r) := digits 0 s in
        match r with
        | d :: _ => if (d =? 46)%N || (d =? 101)%N || (d =? 69)%N
                    then None else Some (n, r)
        | [] => Some (n, r)
        end
      else None
  | [] => None
  end.

Definition hex_value (c : N) : option N :=
  if is_digit c then Some (c - 48)%N
  else if (97 <=? c)%N && (c <=? 102)%N then Some (c - 87)%N
  else if (65 <=? c)%N && (c <=? 70)%N then Some (c - 55)%N
  else None.

(** The characters of a string literal after its opening quote. *)
Fixpoint parse_chars (fuel : nat) (s : jstring) : option (jstring * jstring) :=
  match fuel with
  | O => None
  | S fuel' =>
      match s with
      | [] => None
      | 34%N :: r => Some ([], r)
      | 92%N :: e :: r =>
          let continue (c : N) (r' : jstring) :=
            match parse_chars fuel' r' with
            | Some (t, r'') => Some (c :: t, r'')
            | None => None
            end in
          if (e =? 34)%N then continue 34%N r
          else if (e =? 92)%N then continue 92%N r
          else if (e =? 47)%N then continue 47%N r
          else if (e =? 98)%N then continue 8%N r
          else if (e =? 102)%N then continue 12%N r
          else if (e =? 110)%N then continue 10%N r
          else if (e =? 114)%N then continue 13%N r
          else if (e =? 116)%N then continue 9%N r
          else if (e =? 117)%N then
            match r with
            | a :: b :: c :: d :: r' =>
                match hex_value a, hex_value b, hex_value c, hex_value d with
                | Some a, Some b, Some c, Some d =>
                    continue (a * 4096 + b * 256 + c * 16 + d)%N r'
                | _, _, _, _ => None
                end
            | _ => None
            end
          else None
      | c :: r =>
          if (c <? 32)%N || (c =? 92)%N then None
          else match parse_chars fuel' r with
               | Some (t, r') => Some (c :: t, r')
               | None => None
               end
      end
  end.

Fixpoint parse_value (fuel : nat) (s : jstring) : option (value Z * jstring) :=
  match fuel with
  | O => None
  | S fuel' =>
      match skip_ws s with
      | 110%N :: _ => expect (js "null") VNull (skip_ws s)
      | 116%N :: _ => expect (js "true") (VBool true) (skip_ws s)
      | 102%N :: _ => expect (js "false") (VBool false) (skip_ws s)
      | 34%N :: r =>
          match parse_chars (S (length r)) r with
          | Some (t, r') => Some (VStr t, r')
          | None => None
          end
      | 45%N :: r =>
          match parse_int r with
          | Some (n, r') => Some (VNum (- n), r')
          | None => None
          end
      | 91%N :: r =>
          match skip_ws r with
          | 93%N :: r' => Some (VArr [], r')
          | _ => match parse_elements fuel' r with
                 | Some (l, r') => Some (VArr l, r')
                 | None => None
                 end
          end
      | 123%N :: r =>
          match skip_ws r with
          | 125%N :: r' => Some (VObj [], r')
          | _ => match parse_members fuel' r with
                 | Some (l, r') => Some (VObj l, r')
                 | None => None
                 end
          end
      | _ =>
          match parse_int (skip_ws s) with
          | Some (n, r') => Some (VNum n, r')
          | None => None
          end
      end
  end
with parse_elements (fuel : nat) (s : jstring) : option (list (value Z) * jstring) :=
  match fuel with
  | O => None
  | S fuel' =>
      match parse_value fuel' s with
      | Some (v, r) =>
          match skip_ws r with
          | 44%N :: r' =>
              match parse_elements fuel' r' with
              | Some (l, r'') => Some (v :: l, r'')
              | None => None
              end
          | 93%N :: r' => Some ([v], r')
          | _ => None
          end
      | None => None
      end
  end
with parse_members (fuel : nat) (s : jstring)
  : option (list (jstring * value Z) * jstring) :=
  match fuel with
  | O => None
  | S fuel' =>
      match skip_ws s with
      | 34%N :: r =>
          match parse_chars (S (length r)) r with
          | Some (k, r1) =>
              match skip_ws r1 with
              | 58%N :: r2 =>
                  match parse_value fuel' r2 with
                  | Some (v, r3) =>
                      match skip_ws r3 with
                      | 44%N :: r4 =>
                          match parse_members fuel' r4 with
                          | Some (l, r5) => Some ((k, v) :: l, r5)
                          | None => None
                          end
                      | 125%N :: r4 => Some ([(k, v)], r4)
                      | _ => None
                      end
                  | None => None
                  end
              | _ => None
              end
          | None => None
          end
      | _ => None
      end
  end.

Definition parse (s : jstring) : option (value Z) :=
  match parse_value (2 * length s + 2) s with
  | Some (v, r) => match skip_ws r with [] => Some v | _ => None end
  | None => None
  end.

Definition builtins : Builtins :=
  {| number := Z;
     Number_toString := Z_toString;
     JSON_parse := parse;
     JSON_stringify := stringify |}.

End Reference.

(** ** [Cache.forEach], shared by the three packages *)

Module Cache.
Section WithBuiltins.
Context `{Builtins}.

(** How a promise ends: fulfilled or rejected at some time, or never.
    Time counts turns of the event loop. *)
Inductive settlement : Type :=
| Fulfils (time : Z)
| Rejects (time : Z) (reason : jstring)
| Never.

(** An [Awaitable<void>]: a plain value, or a promise. *)
Inductive awaitable : Type :=
| Plain
| Promised (s : settlement).

(** What calling the callback does: it returns an awaitable, or throws
    before returning one. *)
Inductive invocation : Type :=
| Returned (a : awaitable)
| Thrown (reason : jstring).

(** The state of the loop of [forEach] when it is left: the calls made,
    the [tasks] pushed, and the exception that ended it, if any. *)
Record launched : Type := Launched {
  calls : list (val * jstring);
  tasks : list awaitable;
  thrown : option jstring;
}.

(** [for await (const [key, value] of entries) tasks.push(callback(value, key))]:
    no task is awaited inside the loop; a throwing call leaves it. *)
Fixpoint launch (callback : val -> jstring -> invocation)
    (entries : list (jstring * val)) : launched :=
  match entries with
  | [] => Launched [] [] None
  | (key, value) :: rest =>
      match callback value key with
      | Thrown e => Launched [(value, key)] [] (Some e)
      | Returned a =>
          let r := launch callback rest in
          Launched ((value, key) :: calls r) (a :: tasks r) (thrown r)
      end
  end.

(** How a task handed to [Promise.all] at time [t0] ends for it. *)
Definition settles (t0 : Z) (a : awaitable) : settlement :=
  match a with
  | Plain => Fulfils t0
  | Promised (Fulfils t) => Fulfils (Z.max t0 t)
  | Promised (Rejects t e) => Rejects (Z.max t0 t) e
  | Promised Never => Never
  end.

(** The rejection [Promise.all] reports: the earliest one, the first in
    order among equals. *)
Fixpoint first_rejection (t0 : Z) (l : list awaitable) : option (Z * jstring) :=
  match l with
  | [] => None
  | a :: rest =>
      match settles t0 a, first_rejection t0 rest with
      | Rejects t e, Some (t', e') =>
          if t <=? t' then Some (t, e) else Some (t', e')
      | Rejects t e, None => Some (t, e)
      | _, r => r
      end
  end.

(** When the last task is fulfilled, if all are. *)
Fixpoint all_fulfilled (t0 : Z) (l : list awaitable) : option Z :=
  match l with
  | [] => Some t0
  | a :: rest =>
      match settles t0 a, all_fulfilled t0 rest with
      | Fulfils t, Some t' => Some (Z.max t t')
      | _, _ => None
      end
  end.

(** [Promise.all(tasks)], called at time [t0]. *)
Definition Promise_all (t0 : Z) (l : list awaitable) : settlement :=
  match first_rejection t0 l with
  | Some (t, e) => Rejects t e
  | None =>
      match all_fulfilled t0 l with
      | Some t => Fulfils t
      | None => Never
      end
  end.

(** The call made for an entry, and a callback that returns for it. *)
Definition swap (kv : jstring * val) : val * jstring := (kv.2, kv.1).

Definition returns (callback : val -> jstring -> invocation)
    (kv : jstring * val) : Prop :=
  exists a, callback kv.2 kv.1 = Returned a.

(** [forEach], started at time [t0] over the entries the traversal
    yields: what was launched, and how the returned promise ends. *)
Definition forEach (callback : val -> jstring -> invocation)
    (entries : list (jstring * val)) (t0 : Z) : launched * settlement :=
  let r := launch callback entries in
  (r, match thrown r with
      | Some e => Rejects t0 e
      | None => Promise_all t0 (tasks r)
      end).
End WithBuiltins.
End Cache.

(** ** [LevelDBCache]: the embedded-engine backend *)

(** An error thrown by the engine, with its [code] property. *)
Record LevelError : Type := { code : jstring }.

(** How an awaited engine call ends. *)
Inductive outcome (A : Type) : Type :=
| Resolved (a : A)
| Rejected (e : LevelError).
Arguments Resolved {A} a.
Arguments Rejected {A} e.

(** The engine behind [new Level(path, { valueEncoding: 'json' })], as the
    class uses it: every call goes through [db.sublevel(name, ...)], so each
    operation takes the sublevel name.  An operation stands for
    [db.sublevel(name, ...)] followed by the call on the sublevel: when the
    engine refuses the name, [sublevel] throws inside the [async] method (in
    [get], inside its [try]), which is a rejection of the operation.  The
    engine is not part of the repository; it is taken as a parameter. *)
Class Level `{Builtins} (DB : Type) : Type := {
  sublevel_get : DB -> jstring -> jstring -> outcome val;
  sublevel_put : DB -> jstring -> jstring -> val -> outcome unit * DB;
  sublevel_del : DB -> jstring -> jstring -> outcome unit * DB;
  sublevel_clear : DB -> jstring -> outcome unit * DB;
  sublevel_keys : DB -> jstring -> list jstring;
}.

Definition LEVEL_NOT_FOUND : jstring := js "LEVEL_NOT_FOUND".
Definition LEVEL_INVALID_PREFIX : jstring := js "LEVEL_INVALID_PREFIX".
Definition LEVEL_INVALID_VALUE : jstring := js "LEVEL_INVALID_VALUE".

(** The table names the engine takes as sublevel names as they stand: every
    byte of the name lies in the range 35..126 (a code unit above 127 is
    encoded by bytes above 127).  Space and the double quote are outside
    it, and so is the separator [!], which the engine strips from both ends
    of a name before it looks at the bytes. *)
Definition sublevel_name (name : jstring) : bool :=
  forallb (fun c => (35 <=? c)%N && (c <=? 126)%N) name.

(** The values [put] takes: every value but [null] and [undefined]. *)
Definition storable {number : Type} (v : value number) : bool :=
  match v with
  | VNull | VUndefined => false
  | _ => true
  end.

(** A value the JSON value encoding of the engine gives back unchanged. *)
Definition representable `{Builtins} (v : val) : Prop :=
  exists s, JSON_stringify v = Some s /\ JSON_parse s = Some v.

(** The contract of the engine (specification, section 4.3): each table is
    an independent namespace; under a name the engine takes, a missing key is
    reported by an error whose code is [LEVEL_NOT_FOUND] (or, in later
    releases of the engine, by the result [undefined]); a value written with
    the JSON encoding is read back when it is representable in it.  The
    states of [DB] are those of an engine that has been opened. *)
Class LevelContract `{Builtins} (DB : Type) `{!Level DB} : Prop := {
  level_get_missing db name key :
    sublevel_name name = true ->
    key ∉ sublevel_keys db name ->
    (exists e, sublevel_get db name key = Rejected e /\ code e = LEVEL_NOT_FOUND)
    \/ sublevel_get db name key = Resolved VUndefined;
  level_get_put db name key v db' :
    sublevel_put db name key v = (Resolved tt, db') ->
    representable v ->
    sublevel_get db' name key = Resolved v;
  level_get_put_other db name key v db' name' key' :
    sublevel_put db name key v = (Resolved tt, db') ->
    (name, key) ≠ (name', key') ->
    sublevel_get db' name' key' = sublevel_get db name' key';
  level_get_del db name key db' :
    sublevel_del db name key = (Resolved tt, db') ->
    key ∉ sublevel_keys db' name;
  level_get_clear_other db name db' name' key' :
    sublevel_clear db name = (Resolved tt, db') ->
    name ≠ name' ->
    sublevel_get db' name' key' = sublevel_get db name' key';
}.

(** An engine that is open and whose storage does not fail carries out
    every call that has a name and a value it takes. *)
Class LevelWorks `{Builtins} (DB : Type) `{!Level DB} : Prop := {
  level_put_works db name key v :
    sublevel_name name = true ->
    storable v = true ->
    is_Some (JSON_stringify v) ->
    exists db', sublevel_put db name key v = (Resolved tt, db');
  level_del_works db name key :
    sublevel_name name = true ->
    exists db', sublevel_del db name key = (Resolved tt, db');
  level_clear_works db name :
    sublevel_name name = true ->
    exists db', sublevel_clear db name = (Resolved tt, db');
}.

(** The [status] of the engine, and its [open] and [close] calls, used by
    the [ready] and [dispose] hooks of the constructor. *)
Inductive status : Type :=
| status_opening
| status_open
| status_closing
| status_closed.

Class LevelLifecycle (DB : Type) : Type := {
  db_status : DB -> status;
  db_open : DB -> outcome unit * DB;
  db_close : DB -> outcome unit * DB;
}.

(** What the engine promises of them: after a successful [open] the status
    is [open], after a successful [close] it is [closed]. *)
Class LifecycleContract (DB : Type) `{!LevelLifecycle DB} : Prop := {
  level_open_status db db' :
    db_open db = (Resolved tt, db') -> db_status db' = status_open;
  level_close_status db db' :
    db_close db = (Resolved tt, db') -> db_status db' = status_closed;
}.

(** The lines the two hooks send to the logger. *)
Inductive log_line : Type :=
| info_started
| error_failed_to_open (err : LevelError)
| info_stopped.

Module LevelDBCache.
Section WithEngine.
Context `{Builtins} {DB : Type} `{!Level DB}.

(** [getTable(name)] is [this.db.sublevel(name, { valueEncoding: 'json' })]:
    the name selects the namespace of the calls that follow; a name the
    engine refuses makes the call that follows end in its error. *)
Definition getTable (name : jstring) : jstring := name.

Definition clear (name : jstring) (db : DB) : outcome unit * DB :=
  sublevel_clear db (getTable name).

(** [get]: the engine's [LEVEL_NOT_FOUND] becomes [undefined], every other
    error is thrown again. *)
Definition get (name key : jstring) (db : DB) : outcome val :=
  match sublevel_get db (getTable name) key with
  | Resolved v => Resolved v
  | Rejected error =>
      if decide (code error = LEVEL_NOT_FOUND) then Resolved VUndefined
      else Rejected error
  end.

Definition set (name key : jstring) (value : val) (db : DB)
  : outcome unit * DB :=
  sublevel_put db (getTable name) key value.

Definition delete (name key : jstring) (db : DB) : outcome unit * DB :=
  sublevel_del db (getTable name) key.
End WithEngine.

Section WithLifecycle.
Context {DB : Type} `{!LevelLifecycle DB}.

(** The [ready] hook: [await this.db.open()] inside [try]/[catch]; the
    handler never fails, an error is logged. *)
Definition ready (s : DB * list log_line) : DB * list log_line :=
  let '(db, log) := s in
  match db_open db with
  | (Resolved _, db') => (db', log ++ [info_started])
  | (Rejected err, db') => (db', log ++ [error_failed_to_open err])
  end.

(** The [dispose] hook: the engine is closed only if its status is
    [open]; an error of [close] is not caught. *)
Definition dispose (s : DB * list log_line)
  : outcome unit * (DB * list log_line) :=
  let '(db, log) := s in
  match db_status db with
  | status_open =>
      match db_close db with
      | (Resolved _, db') => (Resolved tt, (db', log ++ [info_stopped]))
      | (Rejected err, db') => (Rejected err, (db', log))
      end
  | _ => (Resolved tt, s)
  end.
End WithLifecycle.
End LevelDBCache.

(** An engine that satisfies the contract, with what the engine of the
    class does at each call: [sublevel] refuses a name with a byte outside
    35..126 ([LEVEL_INVALID_PREFIX]); [put] refuses [null] and [undefined]
    ([LEVEL_INVALID_VALUE]) and stores the JSON text of the value; [get]
    parses the stored text, and reports a missing key by
    [LEVEL_NOT_FOUND].  The state is one sorted map from (sublevel, key) to
    the stored text. *)
Module MemLevel.
Section WithBuiltins.
Context `{Builtins}.

Local Abbreviation DB := (gmap (jstring * jstring) jstring).

Definition not_found : LevelError := {| code := LEVEL_NOT_FOUND |}.
Definition invalid_prefix : LevelError := {| code := LEVEL_INVALID_PREFIX |}.
Definition invalid_value : LevelError := {| code := LEVEL_INVALID_VALUE |}.
Definition decode_error : LevelError := {| code := js "LEVEL_DECODE_ERROR" |}.

#[export] Instance level : Level DB := {|
  sublevel_get db name key :=
    if sublevel_name name then
      match db !! (name, key) with
      | Some text =>
          match JSON_parse text with
          | Some v => Resolved v
          | None => Rejected decode_error
          end
      | None => Rejected not_found
      end
    else Rejected invalid_prefix;
  sublevel_put db name key v :=
    if sublevel_name name then
      if storable v then
        match JSON_stringify v with
        | Some text => (Resolved tt, <[(name, key) := text]> db)
        | None => (Rejected invalid_value, db)
        end
      else (Rejected invalid_value, db)
    else (Rejected invalid_prefix, db);
  sublevel_del db name key :=
    if sublevel_name name
    then (Resolved tt, base.delete (name, key) db)
    else (Rejected invalid_prefix, db);
  sublevel_clear db name :=
    if sublevel_name name
    then (Resolved tt, filter (fun kv => kv.1.1 ≠ name) db)
    else (Rejected invalid_prefix, db);
  sublevel_keys db name :=
    (map_to_list (filter (fun kv => kv.1.1 = name) db)).*1.*2;
|}.
End WithBuiltins.

(** The life cycle of an engine that never fails, as its status. *)
#[export] Instance lifecycle : LevelLifecycle status := {|
  db_status st := st;
  db_open _ := (Resolved tt, status_open);
  db_close _ := (Resolved tt, status_closed);
|}.
End MemLevel.

(** ** Concrete inputs *)

(** The double quote, as a string. *)
Definition dq : jstring := [34%N].
(** The line feed, as a string. *)
Definition lf : jstring := [10%N].

(** Stores used as concrete inputs. *)
Definition example_store : gmap jstring (gmap jstring (value Z)) :=
  {[ js "default" := {[ js "a" := VNum 1; js "b" := VStr (js "x") ]} ]}.

Definition equals_key_store : gmap jstring (gmap jstring (value Z)) :=
  {[ js "t" := {[ js "a=b" := VNum 1 ]} ]}.

(** A cache that holds [example_store], with no flush pending. *)
Definition example_cache : @cache Reference.builtins * host :=
  (@CacheState Reference.builtins example_store None, Host 0 [] 0 None true [] []).

(** A callback that throws before returning, and one whose promise for key
    [a] is rejected at time 5 while the others never settle. *)
Definition throwing_callback (v : value Z) (k : jstring)
  : Cache.invocation :=
  Cache.Thrown (js "boom").

Definition rejecting_callback (v : value Z) (k : jstring)
  : Cache.invocation :=
  if decide (k = js "a")
  then Cache.Returned (Cache.Promised (Cache.Rejects 5 (js "boom")))
  else Cache.Returned (Cache.Promised Cache.Never).

(** Three lines of a record log: a record, a line that is not JSON, a
    later record for the same key. *)
Definition example_log : list jstring :=
  [ js "[" ++ dq ++ js "default" ++ dq ++ js "," ++ dq ++ js "k" ++ dq ++ js ",1]";
    js "{oops";
    js "[" ++ dq ++ js "default" ++ dq ++ js "," ++ dq ++ js "k" ++ dq ++ js ",42]" ].

(** Three [set] calls to one key, 100 ms apart. *)
Definition example_burst : list (Z * @DebouncedFileStore.mutation Reference.builtins) :=
  [ (100, @DebouncedFileStore.call_set Reference.builtins (js "default") (js "k") (VNum 2));
    (200, @DebouncedFileStore.call_set Reference.builtins (js "default") (js "k") (VNum 3)) ].

(** A freshly constructed cache on a host whose clock reads [0]: empty
    Store, no flush pending, no file yet. *)
Definition fresh `{Builtins} : cache * host :=
  (CacheState ∅ None, Host 0 [] 0 None true [] []).


(** A day in the life of a cache: a [set], a read within the delay, a
    [delete] after the first flush, the late completion of [init] on a
    missing file, and the [dispose] event. *)
Definition example_history
  : list (Z * @DebouncedFileStore.request Reference.builtins) :=
  [ (0, DebouncedFileStore.mutating
          (@DebouncedFileStore.call_set Reference.builtins
             (js "default") (js "k") (VNum 2)));
    (100, DebouncedFileStore.reading_get (js "default") (js "k"));
    (1500, DebouncedFileStore.mutating
             (@DebouncedFileStore.call_delete Reference.builtins
                (js "default") (js "k")));
    (1600, DebouncedFileStore.init_read (ReadError (js "ENOENT")));
    (1700, DebouncedFileStore.disposing) ].

(** Reads only. *)
Definition example_reads
  : list (Z * @DebouncedFileStore.request Reference.builtins) :=
  [ (100, DebouncedFileStore.reading_get (js "default") (js "k"));
    (2500, DebouncedFileStore.reading_keys (js "other"));
    (2600, DebouncedFileStore.disposing) ].

(** A section file holding one key, and a callback that returns at once. *)
Definition example_ini : jstring :=
  js "[t]" ++ lf ++ js " k = 5 " ++ lf ++ js "[empty]".

Definition plain_callback (v : value Z) (k : jstring) : Cache.invocation :=
  Cache.Returned Cache.Plain.

(** * Properties

    ** The in-memory engine satisfies the engine contract *)

Module MemLevelFacts.
Section WithBuiltins.
Context `{Builtins}.

Local Abbreviation DB := (gmap (jstring * jstring) jstring).
#[local] Existing Instance MemLevel.level.

Lemma keys_spec (db : DB) (name key : jstring) :
  key ∈ sublevel_keys db name <-> is_Some (db !! (name, key)).
Proof.
  simpl. rewrite list_elem_of_fmap. split.
  - intros ([n k] & -> & Hin). apply list_elem_of_fmap in Hin.
    destruct Hin as ([nk v] & Heq & Hin). simpl in Heq. subst nk.
    apply elem_of_map_to_list in Hin.
    apply map_lookup_filter_Some in Hin as [Hl Hn]. simpl in Hn. subst n.
    eauto.
  - intros [v Hv]. exists (name, key). split; [done|].
    apply list_elem_of_fmap. exists ((name, key), v). split; [done|].
    apply elem_of_map_to_list. apply map_lookup_filter_Some. done.
Qed.

(** What a call that was carried out tells about its name and value. *)
Lemma put_resolved (db db' : DB) (name key : jstring) (v : val) :
  sublevel_put db name key v = (Resolved tt, db') ->
  sublevel_name name = true
  /\ exists text, JSON_stringify v = Some text /\ db' = <[(name, key) := text]> db.
Proof.
  simpl. destruct (sublevel_name name); [|done].
  destruct (storable v); [|done].
  destruct (JSON_stringify v) as [text|]; [|done].
  intros [= <-]. split; [done|]. by exists text.
Qed.

Lemma del_resolved (db db' : DB) (name key : jstring) :
  sublevel_del db name key = (Resolved tt, db') ->
  sublevel_name name = true /\ db' = base.delete (name, key) db.
Proof. simpl. destruct (sublevel_name name); [|done]. by intros [= <-]. Qed.

Lemma clear_resolved (db db' : DB) (name : jstring) :
  sublevel_clear db name = (Resolved tt, db') ->
  sublevel_name name = true /\ db' = filter (fun kv => kv.1.1 ≠ name) db.
Proof. simpl. destruct (sublevel_name name); [|done]. by intros [= <-]. Qed.

#[export] Instance contract : LevelContract DB.
Proof.
  split.
  - intros db name key Hn Hk. left. exists MemLevel.not_found. split; [|done].
    rewrite keys_spec in Hk. simpl. rewrite Hn.
    destruct (db !! (name, key)) eqn:E; [|done].
    exfalso. apply Hk. eauto.
  - intros db name key v db' Hp (text' & Hs & Hparse).
    apply put_resolved in Hp as (Hn & text & Ht & ->).
    simpl. rewrite Hn, lookup_insert_eq.
    assert (text = text') as -> by congruence. by rewrite Hparse.
  - intros db name key v db' name' key' Hp Hne.
    apply put_resolved in Hp as (Hn & text & Ht & ->).
    simpl. by rewrite lookup_insert_ne.
  - intros db name key db' Hd. apply del_resolved in Hd as [Hn ->].
    rewrite keys_spec, lookup_delete_eq. by intros [? ?].
  - intros db name db' name' key' Hc Hne.
    apply clear_resolved in Hc as [Hn ->].
    simpl. destruct (db !! (name', key')) eqn:E.
    + erewrite (proj2 (map_lookup_filter_Some _ _ _ _)); [done|].
      split; [done|]. simpl. congruence.
    + rewrite (proj2 (map_lookup_filter_None _ _ _)); [done|]. by left.
Qed.

#[export] Instance works : LevelWorks DB.
Proof.
  split.
  - intros db name key v Hn Hv [text Ht]. simpl. rewrite Hn, Hv, Ht. by eexists.
  - intros db name key Hn. simpl. rewrite Hn. by eexists.
  - intros db name Hn. simpl. rewrite Hn. by eexists.
Qed.
End WithBuiltins.
End MemLevelFacts.

(** ** The Store operations *)

Module DictsFacts.
Section WithBuiltins.
Context `{Builtins}.

Lemma table_fst (name : jstring) (st : Store) :
  (Dicts.table name st).1 = default ∅ (st !! name).
Proof.
  unfold Dicts.table, Dicts.store_proto. simpl.
  destruct (st !! name); reflexivity.
Qed.

Lemma table_snd (name : jstring) (st : Store) :
  (Dicts.table name st).2 = <[name := default ∅ (st !! name)]> st.
Proof.
  unfold Dicts.table, Dicts.store_proto. simpl.
  destruct (st !! name) eqn:E; simpl; [|reflexivity].
  symmetry. by apply insert_id.
Qed.

(** Reading a table creates it when absent, and changes no entry. *)
Lemma entry_table (name : jstring) (st : Store) (n k : jstring) :
  Dicts.entry (Dicts.table name st).2 n k = Dicts.entry st n k.
Proof.
  rewrite table_snd. unfold Dicts.entry.
  destruct (decide (name = n)) as [->|Hne].
  - rewrite lookup_insert_eq. destruct (st !! n); reflexivity.
  - by rewrite lookup_insert_ne.
Qed.

Lemma get_fst (name key : jstring) (st : Store) :
  (Dicts.get name key st).1 = default VUndefined (Dicts.entry st name key).
Proof.
  unfold Dicts.get. pose proof (table_fst name st) as Ht.
  destruct (Dicts.table name st) as [t st1]. simpl in *. subst t.
  unfold Dicts.entry, Dicts.table_proto. simpl.
  destruct (st !! name); reflexivity.
Qed.

Lemma get_snd (name key : jstring) (st : Store) :
  (Dicts.get name key st).2 = (Dicts.table name st).2.
Proof.
  unfold Dicts.get. destruct (Dicts.table name st) as [t st1]. reflexivity.
Qed.

Lemma entry_get (name key : jstring) (st : Store) (n k : jstring) :
  Dicts.entry (Dicts.get name key st).2 n k = Dicts.entry st n k.
Proof. rewrite get_snd. apply entry_table. Qed.

Lemma set_eq (name key : jstring) (v : val) (st : Store) :
  Dicts.set name key v st = <[name := <[key := v]> (default ∅ (st !! name))]> st.
Proof.
  unfold Dicts.set. pose proof (table_fst name st) as Ht.
  pose proof (table_snd name st) as Hs.
  destruct (Dicts.table name st) as [t st1]. simpl in *. subst t st1.
  unfold Dicts.table_proto. simpl. apply insert_insert_eq.
Qed.

Lemma delete_eq (name key : jstring) (st : Store) :
  Dicts.delete name key st = <[name := base.delete key (default ∅ (st !! name))]> st.
Proof.
  unfold Dicts.delete. pose proof (table_fst name st) as Ht.
  pose proof (table_snd name st) as Hs.
  destruct (Dicts.table name st) as [t st1]. simpl in *. subst t st1.
  unfold Delete. apply insert_insert_eq.
Qed.

Lemma entry_set (name key : jstring) (v : val) (st : Store) (n k : jstring) :
  Dicts.entry (Dicts.set name key v st) n k
  = if decide (name = n /\ key = k) then Some v else Dicts.entry st n k.
Proof.
  rewrite set_eq. unfold Dicts.entry.
  destruct (decide (name = n)) as [->|Hne].
  - rewrite lookup_insert_eq. destruct (decide (key = k)) as [->|Hk].
    + rewrite lookup_insert_eq. by rewrite decide_True.
    + rewrite lookup_insert_ne by done. rewrite decide_False by tauto.
      destruct (st !! n); [reflexivity | apply lookup_empty].
  - rewrite lookup_insert_ne by done. by rewrite decide_False by tauto.
Qed.

Lemma entry_delete (name key : jstring) (st : Store) (n k : jstring) :
  Dicts.entry (Dicts.delete name key st) n k
  = if decide (name = n /\ key = k) then None else Dicts.entry st n k.
Proof.
  rewrite delete_eq. unfold Dicts.entry.
  destruct (decide (name = n)) as [->|Hne].
  - rewrite lookup_insert_eq. destruct (decide (key = k)) as [->|Hk].
    + rewrite lookup_delete_eq. by rewrite decide_True.
    + rewrite lookup_delete_ne by done. rewrite decide_False by tauto.
      destruct (st !! n); [reflexivity | apply lookup_empty].
  - rewrite lookup_insert_ne by done. by rewrite decide_False by tauto.
Qed.



Lemma entries_fst (name : jstring) (st : Store) :
  (Dicts.entries name st).1 = map_to_list (default ∅ (st !! name)).
Proof.
  unfold Dicts.entries. pose proof (table_fst name st) as Ht.
  destruct (Dicts.table name st) as [t st1]. simpl in *. by subst t.
Qed.

End WithBuiltins.
End DictsFacts.

(** ** The cache contract on the file-backed backends *)

Module FileCacheFacts.
Section WithCodec.
Context `{Builtins}.

Lemma write_store (s : cache * host) :
  store (DebouncedFileStore.write s).1 = store s.1.
Proof.
  destruct s as [c h]. unfold DebouncedFileStore.write.
  destruct (Host.setTimeout _ _) as [t h2]. reflexivity.
Qed.

Lemma clear_store (name : jstring) (s : cache * host) :
  store (DebouncedFileStore.clear name s).1 = Dicts.clear name (store s.1).
Proof. destruct s as [c h]. unfold DebouncedFileStore.clear. by rewrite write_store. Qed.

Lemma set_store (name key : jstring) (v : val) (s : cache * host) :
  store (DebouncedFileStore.set name key v s).1 = Dicts.set name key v (store s.1).
Proof. destruct s as [c h]. unfold DebouncedFileStore.set. by rewrite write_store. Qed.

Lemma delete_store (name key : jstring) (s : cache * host) :
  store (DebouncedFileStore.delete name key s).1 = Dicts.delete name key (store s.1).
Proof. destruct s as [c h]. unfold DebouncedFileStore.delete. by rewrite write_store. Qed.

Lemma get_value (name key : jstring) (s : cache * host) :
  (DebouncedFileStore.get name key s).1
  = default VUndefined (Dicts.entry (store s.1) name key).
Proof.
  destruct s as [c h]. unfold DebouncedFileStore.get.
  pose proof (DictsFacts.get_fst name key (store c)) as Hg.
  destruct (Dicts.get name key (store c)) as [v st1]. simpl in *. done.
Qed.

(** A read leaves every entry, the pending timer and the host as they
    were. *)
Lemma get_state (name key : jstring) (s : cache * host) :
  let s' := (DebouncedFileStore.get name key s).2 in
  (forall n k, Dicts.entry (store s'.1) n k = Dicts.entry (store s.1) n k)
  /\ _debounce s'.1 = _debounce s.1 /\ s'.2 = s.2.
Proof.
  destruct s as [c h]. unfold DebouncedFileStore.get.
  pose proof (DictsFacts.entry_get name key (store c)) as Hg.
  destruct (Dicts.get name key (store c)) as [v st1]. simpl in *. done.
Qed.

Lemma get_after_set (name key : jstring) (v : val) (s : cache * host) :
  (DebouncedFileStore.get name key (DebouncedFileStore.set name key v s)).1 = v.
Proof.
  rewrite get_value, set_store, DictsFacts.entry_set.
  by rewrite decide_True.
Qed.

Lemma get_after_delete (name key : jstring) (s : cache * host) :
  (DebouncedFileStore.get name key (DebouncedFileStore.delete name key s)).1
  = VUndefined.
Proof.
  rewrite get_value, delete_store, DictsFacts.entry_delete.
  by rewrite decide_True.
Qed.

Lemma get_missing (name key : jstring) (s : cache * host) :
  Dicts.entry (store s.1) name key = None ->
  (DebouncedFileStore.get name key s).1 = VUndefined.
Proof. intros Hm. by rewrite get_value, Hm. Qed.


Lemma set_other (name key : jstring) (v : val) (s : cache * host) (n k : jstring) :
  ¬ (name = n /\ key = k) ->
  (DebouncedFileStore.get n k (DebouncedFileStore.set name key v s)).1
  = (DebouncedFileStore.get n k s).1.
Proof.
  intros Hne. rewrite !get_value, set_store, DictsFacts.entry_set.
  by rewrite decide_False.
Qed.

End WithCodec.
End FileCacheFacts.

(** ** The cache contract on the embedded backend *)

Module LevelFacts.
Section WithEngine.
Context `{Builtins} {DB : Type} `{!Level DB}.

Lemma get_not_found (db : DB) (name key : jstring) (e : LevelError) :
  sublevel_get db name key = Rejected e ->
  code e = LEVEL_NOT_FOUND ->
  LevelDBCache.get name key db = Resolved VUndefined.
Proof.
  intros Hg Hc. unfold LevelDBCache.get, LevelDBCache.getTable.
  rewrite Hg. by rewrite decide_True.
Qed.

Lemma get_other_error (db : DB) (name key : jstring) (e : LevelError) :
  sublevel_get db name key = Rejected e ->
  code e ≠ LEVEL_NOT_FOUND ->
  LevelDBCache.get name key db = Rejected e.
Proof.
  intros Hg Hc. unfold LevelDBCache.get, LevelDBCache.getTable.
  rewrite Hg. by rewrite decide_False.
Qed.

Lemma get_found (db : DB) (name key : jstring) (v : val) :
  sublevel_get db name key = Resolved v ->
  LevelDBCache.get name key db = Resolved v.
Proof.
  intros Hg. unfold LevelDBCache.get, LevelDBCache.getTable. by rewrite Hg.
Qed.

Context `{!LevelContract DB}.

Lemma get_absent (db : DB) (name key : jstring) :
  sublevel_name name = true ->
  key ∉ sublevel_keys db name ->
  LevelDBCache.get name key db = Resolved VUndefined.
Proof.
  intros Hn Hk.
  destruct (level_get_missing db name key Hn Hk) as [(e & Hg & Hc)|Hg].
  - by eapply get_not_found.
  - by apply get_found.
Qed.

Lemma get_after_put (db db' : DB) (name key : jstring) (v : val) :
  representable v ->
  LevelDBCache.set name key v db = (Resolved tt, db') ->
  LevelDBCache.get name key db' = Resolved v.
Proof.
  intros Hr Hs. apply get_found. by eapply level_get_put.
Qed.

Lemma get_after_del (db db' : DB) (name key : jstring) :
  sublevel_name name = true ->
  LevelDBCache.delete name key db = (Resolved tt, db') ->
  LevelDBCache.get name key db' = Resolved VUndefined.
Proof.
  intros Hn Hd. apply get_absent; [exact Hn|].
  exact (level_get_del db name key db' Hd).
Qed.

(** An engine that is open and working carries out [set] and [delete]. *)
Lemma set_then_delete `{!LevelWorks DB} (db : DB) (name key : jstring) (v : val) :
  sublevel_name name = true ->
  storable v = true ->
  representable v ->
  exists db1 db2,
    LevelDBCache.set name key v db = (Resolved tt, db1)
    /\ LevelDBCache.get name key db1 = Resolved v
    /\ LevelDBCache.delete name key db1 = (Resolved tt, db2)
    /\ LevelDBCache.get name key db2 = Resolved VUndefined.
Proof.
  intros Hn Hv Hr.
  assert (Hs : is_Some (JSON_stringify v)).
  { destruct Hr as (text & Ht & _). by exists text. }
  destruct (level_put_works db name key v Hn Hv Hs) as [db1 Hput].
  destruct (level_del_works db1 name key Hn) as [db2 Hdel].
  exists db1, db2. split; [exact Hput|]. split.
  - exact (get_after_put db db1 name key v Hr Hput).
  - split; [exact Hdel|]. exact (get_after_del db1 db2 name key Hn Hdel).
Qed.



End WithEngine.
End LevelFacts.

Section CacheContract.
Context `{Builtins} {DB : Type} `{!Level DB} `{!LevelContract DB}.

(** C1. Get/set/delete consistency.  In the file-backed backends, for
    every state, table, key and value, [get] after [set] returns the value
    and [get] after [delete] returns the absent-sentinel [undefined].  In the
    embedded backend the calls go to the engine, which takes a table name
    whose bytes are in 35..126 and a value other than [null] and
    [undefined], and gives back a value its JSON encoding represents: a
    [set] the engine carried out is followed by a [get] of the value, a
    [delete] it carried out by a [get] of [undefined], and an engine that is
    open and working carries both out for such a name and value. *)
Theorem get_set_delete_consistency :
  (forall (s : cache * host) (T K : jstring) (V : val),
      (TxtDBCache.get T K (TxtDBCache.set T K V s)).1 = V
      /\ (TxtDBCache.get T K (TxtDBCache.delete T K s)).1 = VUndefined)
  /\ (forall (s : cache * host) (T K : jstring) (V : val),
      (IniDBCache.get T K (IniDBCache.set T K V s)).1 = V
      /\ (IniDBCache.get T K (IniDBCache.delete T K s)).1 = VUndefined)
  /\ (forall (db db' : DB) (T K : jstring) (V : val),
      representable V ->
      LevelDBCache.set T K V db = (Resolved tt, db') ->
      LevelDBCache.get T K db' = Resolved V)
  /\ (forall (db db' : DB) (T K : jstring),
      sublevel_name T = true ->
      LevelDBCache.delete T K db = (Resolved tt, db') ->
      LevelDBCache.get T K db' = Resolved VUndefined)
  /\ (LevelWorks DB ->
      forall (db : DB) (T K : jstring) (V : val),
        sublevel_name T = true ->
        storable V = true ->
        representable V ->
        exists db1 db2,
          LevelDBCache.set T K V db = (Resolved tt, db1)
          /\ LevelDBCache.get T K db1 = Resolved V
          /\ LevelDBCache.delete T K db1 = (Resolved tt, db2)
          /\ LevelDBCache.get T K db2 = Resolved VUndefined).
Proof.
  split; [|split; [|split; [|split]]].
  - intros s T K V. split.
    + apply FileCacheFacts.get_after_set.
    + apply FileCacheFacts.get_after_delete.
  - intros s T K V. split.
    + apply FileCacheFacts.get_after_set.
    + apply FileCacheFacts.get_after_delete.
  - intros db db' T K V Hr Hs. exact (LevelFacts.get_after_put db db' T K V Hr Hs).
  - intros db db' T K Hn Hd. exact (LevelFacts.get_after_del db db' T K Hn Hd).
  - intros Hw db T K V Hn Hv Hr.
    exact (LevelFacts.set_then_delete db T K V Hn Hv Hr).
Qed.

(** C2. [get] of a (table, key) with no stored entry returns the
    absent-sentinel.  The file-backed [get] is a total function that yields
    [undefined].  The embedded [get] yields [undefined] under every table
    name the engine takes as a sublevel name (bytes in 35..126); it turns
    the engine's [LEVEL_NOT_FOUND] into [undefined] and rejects with every
    other engine error unchanged, the refusal of the table name among
    them. *)
Theorem get_missing_is_absent :
  (forall (s : cache * host) (T K : jstring),
      Dicts.entry (store s.1) T K = None ->
      (TxtDBCache.get T K s).1 = VUndefined
      /\ (IniDBCache.get T K s).1 = VUndefined)
  /\ (forall (db : DB) (T K : jstring),
      sublevel_name T = true ->
      K ∉ sublevel_keys db T ->
      LevelDBCache.get T K db = Resolved VUndefined)
  /\ (forall (db : DB) (T K : jstring) (e : LevelError),
      sublevel_get db T K = Rejected e ->
      if decide (code e = LEVEL_NOT_FOUND)
      then LevelDBCache.get T K db = Resolved VUndefined
      else LevelDBCache.get T K db = Rejected e).
Proof.
  split; [|split].
  - intros s T K Hm. split; by apply FileCacheFacts.get_missing.
  - intros db T K Hn Hk. exact (LevelFacts.get_absent db T K Hn Hk).
  - intros db T K e Hg. case_decide as Hc.
    + exact (LevelFacts.get_not_found db T K e Hg Hc).
    + exact (LevelFacts.get_other_error db T K e Hg Hc).
Qed.


End CacheContract.

Lemma get_set_delete_consistency_witness :
  exists db1 db2,
    @LevelDBCache.set Reference.builtins _ MemLevel.level
      (js "default") (js "k") (VNum 42) ∅ = (Resolved tt, db1)
    /\ @LevelDBCache.get Reference.builtins _ MemLevel.level
         (js "default") (js "k") db1 = Resolved (VNum 42)
    /\ @LevelDBCache.delete Reference.builtins _ MemLevel.level
         (js "default") (js "k") db1 = (Resolved tt, db2)
    /\ @LevelDBCache.get Reference.builtins _ MemLevel.level
         (js "default") (js "k") db2 = Resolved VUndefined.
Proof.
  refine (proj2 (proj2 (proj2 (proj2
    (@get_set_delete_consistency Reference.builtins _ MemLevel.level
       MemLevelFacts.contract)))) MemLevelFacts.works
    ∅ (js "default") (js "k") (VNum 42) eq_refl eq_refl _).
  exists (js "42"). split; vm_compute; reflexivity.
Defined.

(** The embedded backend on what the engine does not take or does not give
    back: [set] of [null] is refused, so the [get] that follows yields
    [undefined]; an array holding [undefined] is stored as the JSON text
    [[null]] and read back with [null] in its place; a table name with a
    space is refused. *)
Lemma leveldb_set_get_loses_values :
  @LevelDBCache.set Reference.builtins _ MemLevel.level
    (js "default") (js "k") VNull ∅
  = (Rejected MemLevel.invalid_value, ∅)
  /\ @LevelDBCache.get Reference.builtins _ MemLevel.level (js "default") (js "k")
       (@LevelDBCache.set Reference.builtins _ MemLevel.level
          (js "default") (js "k") VNull ∅).2
     ≠ Resolved VNull
  /\ @LevelDBCache.get Reference.builtins _ MemLevel.level (js "default") (js "k")
       (@LevelDBCache.set Reference.builtins _ MemLevel.level
          (js "default") (js "k") (VArr [VUndefined]) ∅).2
     = Resolved (VArr [VNull])
  /\ @LevelDBCache.set Reference.builtins _ MemLevel.level
       (js "my table") (js "k") (VNum 1) ∅
     = (Rejected MemLevel.invalid_prefix, ∅).
Proof.
  split; [vm_compute; reflexivity|]. split; [vm_compute; discriminate|].
  split; vm_compute; reflexivity.
Qed.

Lemma get_missing_is_absent_witness :
  @LevelDBCache.get Reference.builtins _ MemLevel.level
    (js "anytable") (js "missing") ∅
  = Resolved VUndefined.
Proof.
  refine (proj1 (proj2
    (@get_missing_is_absent Reference.builtins _ MemLevel.level
       MemLevelFacts.contract)) ∅ (js "anytable") (js "missing") eq_refl _).
  vm_compute. intros Hin. inversion Hin.
Defined.

(** A table name with a space: the engine refuses it as a sublevel name and
    [get] rejects with that error, for a key that is not stored. *)
Lemma leveldb_get_rejects_table_name :
  @LevelDBCache.get Reference.builtins _ MemLevel.level
    (js "any table") (js "missing") ∅
  = Rejected MemLevel.invalid_prefix
  /\ code MemLevel.invalid_prefix = LEVEL_INVALID_PREFIX
  /\ @LevelDBCache.get Reference.builtins _ MemLevel.level
       (js "any table") (js "missing") ∅
     ≠ Resolved VUndefined.
Proof.
  split; [vm_compute; reflexivity|]. split; [reflexivity|].
  vm_compute. discriminate.
Qed.


(** ** Prototype-free dictionaries *)

Module PrototypeFacts.
Section WithBuiltins.
Context `{Builtins}.

(** With a prototype like [Object.prototype], assigning [__proto__] creates
    no own property and [constructor] reads the inherited member: the
    behaviour the null prototype rules out. *)
Lemma with_prototype_special_names_differ (ctor proto v : val) :
  Put (Object_prototype_like ctor proto) ∅ (js "__proto__") v = ∅
  /\ Get (Object_prototype_like ctor proto) (∅ : Table) (js "constructor") = Some ctor
  /\ Get (Object_prototype_like ctor proto)
       (Put (Object_prototype_like ctor proto) ∅ (js "__proto__") v)
       (js "__proto__") = Some proto.
Proof. vm_compute. done. Qed.

Lemma keys_fst (name : jstring) (st : Store) :
  (Dicts.keys name st).1 = (map_to_list (default ∅ (st !! name))).*1.
Proof.
  unfold Dicts.keys. pose proof (DictsFacts.table_fst name st) as Ht.
  destruct (Dicts.table name st) as [t st1]. simpl in *. by subst t.
Qed.

Lemma key_listed_after_set (name key : jstring) (v : val) (st : Store) :
  key ∈ (Dicts.keys name (Dicts.set name key v st)).1.
Proof.
  rewrite keys_fst, DictsFacts.set_eq, lookup_insert_eq. simpl.
  apply list_elem_of_fmap. exists (key, v). split; [done|].
  apply elem_of_map_to_list. apply lookup_insert_eq.
Qed.

End WithBuiltins.
End PrototypeFacts.

(** C10. The Store and every table of the file-backed backends are created
    by [Object.create(null)]: reading a member is an own-property lookup and
    assigning one never runs an inherited setter, whatever the name.  So for
    the special names ([__proto__], [constructor], ...) used as a key or as a
    table name, [set] followed by [get] returns the value, the name is listed
    among the keys of its table, and no other (table, key) changes. *)
Theorem special_names_are_ordinary_keys `{Builtins} :
  (forall (o : Table) (k : jstring) (v : val),
      Get Dicts.table_proto o k = o !! k
      /\ calls_setter Dicts.table_proto o k = false
      /\ Put Dicts.table_proto o k v = <[k := v]> o)
  /\ (forall (st : Store) (name : jstring) (t : Table),
      Get Dicts.store_proto st name = st !! name
      /\ calls_setter Dicts.store_proto st name = false
      /\ Put Dicts.store_proto st name t = <[name := t]> st)
  /\ Forall (fun special : jstring =>
      forall (s : cache * host) (T : jstring) (V : val),
        (TxtDBCache.get T special (TxtDBCache.set T special V s)).1 = V
        /\ (IniDBCache.get T special (IniDBCache.set T special V s)).1 = V
        /\ (TxtDBCache.get special T (TxtDBCache.set special T V s)).1 = V
        /\ (IniDBCache.get special T (IniDBCache.set special T V s)).1 = V
        /\ special ∈ (Dicts.keys T (store (TxtDBCache.set T special V s).1)).1
        /\ (forall n k : jstring,
              ¬ (T = n /\ special = k) ->
              (TxtDBCache.get n k (TxtDBCache.set T special V s)).1
              = (TxtDBCache.get n k s).1)
        /\ (forall n k : jstring,
              ¬ (special = n /\ T = k) ->
              (TxtDBCache.get n k (TxtDBCache.set special T V s)).1
              = (TxtDBCache.get n k s).1))
     Dicts.special_names.
Proof.
  split; [|split].
  - intros o k v. done.
  - intros st name t. done.
  - apply Forall_forall. intros special _ s T V.
    repeat split.
    + apply FileCacheFacts.get_after_set.
    + apply FileCacheFacts.get_after_set.
    + apply FileCacheFacts.get_after_set.
    + apply FileCacheFacts.get_after_set.
    + unfold TxtDBCache.set. rewrite FileCacheFacts.set_store.
      apply PrototypeFacts.key_listed_after_set.
    + intros n k Hne. by apply FileCacheFacts.set_other.
    + intros n k Hne. by apply FileCacheFacts.set_other.
Qed.

(** ** Debounced flushing *)

(** A write in two steps, the call and the settlement of its promise, is
    the write run to its end. *)
Module AsyncFacts.
Section WithCodec.
Context `{Builtins}.
Variable serialize : Store -> jstring.

Import DebouncedFileStore.

Lemma writeFile_settled (content : jstring) (h : host) :
  Host.writeFile content h
  = Host.writeFile_settles content (Host.writeFile_starts content h).
Proof.
  unfold Host.writeFile, Host.writeFile_settles, Host.writeFile_starts. simpl.
  by destruct (writable h).
Qed.

Lemma flush_settled (s : cache * host) :
  flush serialize s
  = flush_settles (serialize (store s.1)) (flush_starts serialize s).
Proof.
  destruct s as [c h]. unfold flush, flush_settles, flush_starts. simpl.
  by rewrite writeFile_settled.
Qed.

(** A timer that fires and a [dispose] whose promise has settled run the
    same flush. *)
Lemma dispose_settled (s : cache * host) (handle : nat) :
  _debounce s.1 = Some handle ->
  dispose_settles serialize s
  = flush serialize (s.1, Host.clearTimeout handle s.2).
Proof.
  destruct s as [c h]. simpl. intros Hd.
  unfold dispose_settles, dispose_returns, dispose. simpl. rewrite Hd.
  unfold flush, flush_settles, flush_starts. simpl.
  by rewrite writeFile_settled.
Qed.

End WithCodec.
End AsyncFacts.

Module DebounceFacts.
Section WithCodec.
Context `{Builtins}.
Variable serialize : Store -> jstring.

Import DebouncedFileStore.

(** Evaluate a filter over an explicit timer queue. *)
Ltac run_filter :=
  repeat (progress (rewrite ?filter_cons, ?filter_nil; simpl;
                    repeat case_decide; simpl));
  try lia; try done.

Lemma same_files_refl (h : host) : same_files h h.
Proof. by repeat split. Qed.

Lemma same_files_trans (h1 h2 h3 : host) :
  same_files h1 h2 -> same_files h2 h3 -> same_files h1 h3.
Proof.
  intros (?&?&?&?) (?&?&?&?). repeat split; congruence.
Qed.

(** [write] replaces the pending timer by a fresh one due 1000 ms from
    now. *)
Lemma write_spec (s : cache * host) :
  let s' := write s in
  store s'.1 = store s.1
  /\ _debounce s'.1 = Some (next_timer s.2)
  /\ timers s'.2
     = match _debounce s.1 with
       | Some t0 => filter (fun tm => tm.1 ≠ t0) (timers s.2)
       | None => timers s.2
       end ++ [(next_timer s.2, now s.2 + 1000)]
  /\ now s'.2 = now s.2
  /\ same_files s.2 s'.2.
Proof.
  destruct s as [[st db] h]. unfold write. simpl.
  destruct db as [t0|]; simpl; repeat split; reflexivity.
Qed.

Lemma call_spec (m : mutation) (s : cache * host) :
  let s' := call m s in
  store s'.1 = store_after (store s.1) m
  /\ _debounce s'.1 = Some (next_timer s.2)
  /\ timers s'.2
     = match _debounce s.1 with
       | Some t0 => filter (fun tm => tm.1 ≠ t0) (timers s.2)
       | None => timers s.2
       end ++ [(next_timer s.2, now s.2 + 1000)]
  /\ now s'.2 = now s.2
  /\ same_files s.2 s'.2.
Proof.
  destruct s as [c h].
  destruct m as [name|name key v|name key]; unfold call, clear, set, delete.
  - exact (write_spec (CacheState (Dicts.clear name (store c)) (_debounce c), h)).
  - exact (write_spec (CacheState (Dicts.set name key v (store c)) (_debounce c), h)).
  - exact (write_spec (CacheState (Dicts.delete name key (store c)) (_debounce c), h)).
Qed.

(** Reaching a time at which nothing is due changes the clock only. *)
Lemma advance_not_due (t : Z) (s : cache * host) :
  coherent t s ->
  advance serialize t s = (s.1, Host.pass t s.2)
  /\ timers (Host.pass t s.2) = timers s.2.
Proof.
  destruct s as [c h]. unfold coherent, advance, Host.due, Host.pass. simpl.
  destruct (_debounce c) as [h0|].
  - intros (due & Ht & Hlt). rewrite Ht. simpl. run_filter.
  - intros ->. done.
Qed.

Lemma arrive_armed (t : Z) (m : mutation) (s : cache * host) :
  coherent t s ->
  now s.2 <= t ->
  let s' := arrive serialize s (t, m) in
  armed t s'
  /\ store s'.1 = store_after (store s.1) m
  /\ same_files s.2 s'.2.
Proof.
  intros Hc Hn. unfold arrive. simpl.
  destruct (advance_not_due t s Hc) as [Ha Ht]. rewrite Ha.
  pose proof (call_spec m (s.1, Host.pass t s.2)) as (Hs & Hd & Htm & Hnow & Hf).
  simpl in *. split; [|split].
  - exists (next_timer s.2). split; [exact Hd|]. split.
    + rewrite Htm. rewrite Z.max_r by lia.
      unfold coherent in Hc. destruct (_debounce s.1) as [h0|].
      * destruct Hc as (due & Hq & _). rewrite Hq. run_filter.
      * by rewrite Hc.
    + rewrite Hnow. lia.
  - exact Hs.
  - exact Hf.
Qed.

Lemma armed_coherent (t t' : Z) (s : cache * host) :
  armed t s -> t <= t' < t + 1000 -> coherent t' s /\ now s.2 <= t'.
Proof.
  intros (h & Hd & Ht & Hn) Hlt. unfold coherent. rewrite Hd. split.
  - exists (t + 1000). split; [done | lia].
  - lia.
Qed.

Lemma default_last_cons {A : Type} (a b c : A) (l : list A) :
  default a (last (c :: l)) = default b (last (c :: l)).
Proof.
  destruct (last (c :: l)) eqn:E; [done|]. by apply last_None in E.
Qed.

(** A burst of calls keeps one timer pending and flushes nothing. *)
Lemma run_burst (calls : list (Z * mutation)) (t : Z) (s : cache * host) :
  armed t s ->
  burst t calls ->
  let s' := run serialize calls s in
  armed (last_time t calls) s'
  /\ store s'.1 = foldl store_after (store s.1) calls.*2
  /\ same_files s.2 s'.2.
Proof.
  revert t s. induction calls as [|[t' m] calls IH]; intros t s Harm Hb.
  - simpl. split; [exact Harm|]. split; [done | apply same_files_refl].
  - destruct Hb as [Hlt Hb]. simpl.
    destruct (armed_coherent t t' s Harm Hlt) as [Hc Hn].
    destruct (arrive_armed t' m s Hc Hn) as (Harm' & Hs & Hf).
    destruct (IH t' _ Harm' Hb) as (Ha & Hs' & Hf').
    unfold run in *. split; [|split].
    + replace (last_time t ((t', m) :: calls)) with (last_time t' calls); [done|].
      unfold last_time. simpl. apply default_last_cons.
    + rewrite Hs'. by rewrite Hs.
    + by eapply same_files_trans.
Qed.

(** Once the delay has elapsed the pending flush runs, once. *)
Lemma advance_armed (t t' : Z) (s : cache * host) :
  armed t s ->
  t + 1000 <= t' ->
  let s' := advance serialize t' s in
  store s'.1 = store s.1
  /\ _debounce s'.1 = None
  /\ timers s'.2 = []
  /\ written s'.2 = written s.2 ++ [serialize (store s.1)]
  /\ (writable s.2 = true -> file s'.2 = Some (serialize (store s.1))).
Proof.
  destruct s as [c h]. intros (h0 & Hd & Ht & Hn) Hle. simpl in *.
  unfold advance, Host.due, Host.pass. rewrite Ht. simpl. run_filter.
  unfold Host.writeFile. simpl.
  destruct (writable h); simpl; repeat split; done.
Qed.

Lemma writeFile_timers (content : jstring) (h : host) :
  timers (Host.writeFile content h) = timers h.
Proof. unfold Host.writeFile. by destruct (writable h). Qed.

(** Timers never stack: a fresh cache is tidy, and every operation and
    every turn of the event loop keeps the cache tidy. *)
Lemma tidy_fresh : tidy fresh.
Proof. reflexivity. Qed.

Lemma tidy_call (m : mutation) (s : cache * host) : tidy s -> tidy (call m s).
Proof.
  intros Ht. pose proof (call_spec m s) as (_ & Hd & Htm & _).
  unfold tidy in *. rewrite Hd, Htm. eexists.
  destruct (_debounce s.1) as [h0|].
  - destruct Ht as (due & ->). run_filter.
  - rewrite Ht. reflexivity.
Qed.

Lemma tidy_get (name key : jstring) (s : cache * host) :
  tidy s -> tidy (get name key s).2.
Proof.
  intros Ht. pose proof (FileCacheFacts.get_state name key s) as (_ & Hd & Hh).
  unfold tidy in *. simpl in *. by rewrite Hd, Hh.
Qed.

Lemma tidy_advance (t : Z) (s : cache * host) :
  tidy s -> tidy (advance serialize t s).
Proof.
  destruct s as [c h]. unfold tidy, advance, Host.due, Host.pass. simpl.
  destruct (_debounce c) as [h0|] eqn:Hd.
  - intros (due & ->). destruct (decide (due <= t)).
    + run_filter. by rewrite writeFile_timers.
    + run_filter. rewrite Hd. by eexists.
  - intros ->. simpl. by rewrite Hd.
Qed.

Lemma tidy_dispose (s : cache * host) : tidy s -> tidy (dispose serialize s).
Proof.
  destruct s as [c h]. unfold tidy, dispose. simpl.
  destruct (_debounce c) as [h0|] eqn:Hd.
  - intros (due & Hq). unfold flush_starts, Host.writeFile_starts.
    unfold Host.clearTimeout. simpl. rewrite Hq. run_filter.
  - intros Hq. simpl. by rewrite Hd.
Qed.

(** Once the event loop has reached time [t], a tidy cache has no flush
    due by [t]. *)
Lemma tidy_coherent (t : Z) (s : cache * host) :
  tidy s -> coherent t (advance serialize t s).
Proof.
  destruct s as [c h]. unfold tidy, coherent, advance, Host.due, Host.pass. simpl.
  destruct (_debounce c) as [h0|] eqn:Hd.
  - intros (due & ->). destruct (decide (due <= t)).
    + run_filter. by rewrite writeFile_timers.
    + run_filter. rewrite Hd. exists due. split; [done | lia].
  - intros ->. simpl. by rewrite Hd.
Qed.

(** The [dispose] hook with a flush pending, when it returns: the timer is
    cancelled and the serialized Store has been handed to [fs.writeFile];
    the file and the logger are as they were. *)
Lemma dispose_pending (s : cache * host) (handle : nat) :
  _debounce s.1 = Some handle ->
  let s' := dispose serialize s in
  store s'.1 = store s.1
  /\ _debounce s'.1 = None
  /\ timers s'.2 = filter (fun tm => tm.1 ≠ handle) (timers s.2)
  /\ written s'.2 = written s.2 ++ [serialize (store s.1)]
  /\ file s'.2 = file s.2
  /\ warnings s'.2 = warnings s.2
  /\ writable s'.2 = writable s.2.
Proof.
  destruct s as [c h]. simpl. intros Hd. unfold dispose. rewrite Hd.
  unfold flush_starts, Host.writeFile_starts, Host.clearTimeout. simpl.
  repeat split; done.
Qed.







(** A burst of calls, then the delay: one flush, of the Store as the last
    call left it. *)
Lemma burst_one_flush (calls : list (Z * mutation)) (t1 : Z) (m1 : mutation)
    (t_end : Z) (s : cache * host) :
  coherent t1 s -> now s.2 <= t1 ->
  burst t1 calls ->
  last_time t1 calls + 1000 <= t_end ->
  let final := foldl store_after (store s.1) (m1 :: calls.*2) in
  let s' := advance serialize t_end (run serialize ((t1, m1) :: calls) s) in
  written (run serialize ((t1, m1) :: calls) s).2 = written s.2
  /\ store s'.1 = final
  /\ _debounce s'.1 = None
  /\ timers s'.2 = []
  /\ written s'.2 = written s.2 ++ [serialize final]
  /\ (writable s.2 = true -> file s'.2 = Some (serialize final)).
Proof.
  intros Hc Hn Hb Hend final. simpl.
  destruct (arrive_armed t1 m1 s Hc Hn) as (Harm & Hs & Hf).
  destruct (run_burst calls t1 _ Harm Hb) as (Harm' & Hs' & Hf').
  fold (run serialize calls (arrive serialize s (t1, m1))).
  set (s1 := run serialize calls (arrive serialize s (t1, m1))) in *.
  pose proof (advance_armed _ t_end s1 Harm' Hend) as (Hst & Hdb & Htm & Hw & Hfile).
  assert (Hfin : store s1.1 = final).
  { subst final. simpl. rewrite Hs'. by rewrite Hs. }
  destruct Hf as (Hf1 & Hf2 & Hf3 & Hf4).
  destruct Hf' as (Hg1 & Hg2 & Hg3 & Hg4).
  repeat split.
  - congruence.
  - by rewrite Hst.
  - exact Hdb.
  - exact Htm.
  - rewrite Hw, Hfin. congruence.
  - intros Hwr. rewrite <- Hfin. apply Hfile. congruence.
Qed.

End WithCodec.
End DebounceFacts.

Section Debounce.
Context `{Builtins}.
Import DebouncedFileStore.

(** C3. In the file-backed backends every call of [clear], [set] or
    [delete] cancels the outstanding flush timer, if any, and schedules a
    new one 1000 ms later.  So a burst of calls, each arriving less than
    1000 ms after the previous one, produces exactly one flush once the
    delay has elapsed, and nothing before; what it writes is the
    serialization of the Store as the last call left it. *)
Theorem debounce_coalesces_burst :
  (forall (m : mutation) (s : cache * host),
      let s' := call m s in
      _debounce s'.1 = Some (next_timer s.2)
      /\ timers s'.2
         = match _debounce s.1 with
           | Some t0 => filter (fun tm => tm.1 ≠ t0) (timers s.2)
           | None => timers s.2
           end ++ [(next_timer s.2, now s.2 + 1000)])
  /\ (forall (t1 : Z) (m1 : mutation) (calls : list (Z * mutation)) (t_end : Z)
             (s : cache * host),
      coherent t1 s -> now s.2 <= t1 ->
      burst t1 calls ->
      last_time t1 calls + 1000 <= t_end ->
      let final := foldl store_after (store s.1) (m1 :: calls.*2) in
      (let s' := TxtDBCache.advance t_end (TxtDBCache.run ((t1, m1) :: calls) s) in
       written (TxtDBCache.run ((t1, m1) :: calls) s).2 = written s.2
       /\ written s'.2 = written s.2 ++ [TxtDBCache.txtContent final]
       /\ timers s'.2 = [] /\ _debounce s'.1 = None /\ store s'.1 = final)
      /\ (let s' := IniDBCache.advance t_end (IniDBCache.run ((t1, m1) :: calls) s) in
          written (IniDBCache.run ((t1, m1) :: calls) s).2 = written s.2
          /\ written s'.2 = written s.2 ++ [INI.stringify final]
          /\ timers s'.2 = [] /\ _debounce s'.1 = None /\ store s'.1 = final)).
Proof.
  split.
  - intros m s. pose proof (DebounceFacts.call_spec m s) as (_ & Hd & Ht & _).
    simpl. by split.
  - intros t1 m1 calls t_end s Hc Hn Hb Hend final. split.
    + pose proof (DebounceFacts.burst_one_flush TxtDBCache.txtContent
                    calls t1 m1 t_end s Hc Hn Hb Hend) as (H0 & H1 & H2 & H3 & H4 & _).
      simpl. repeat split; assumption.
    + pose proof (DebounceFacts.burst_one_flush INI.stringify
                    calls t1 m1 t_end s Hc Hn Hb Hend) as (H0 & H1 & H2 & H3 & H4 & _).
      simpl. repeat split; assumption.
Qed.


End Debounce.

(** ** String functions *)

Module StringFacts.

Lemma trimStart_length (s : jstring) : (length (trimStart s) <= length s)%nat.
Proof.
  induction s as [|c s IH]; simpl; [lia|].
  destruct (isWhiteSpace c); simpl; lia.
Qed.

Lemma trimStart_ws (c : N) (s : jstring) :
  isWhiteSpace c = true -> (length (trimStart (c :: s)) <= length s)%nat.
Proof. intros Hc. simpl. rewrite Hc. apply trimStart_length. Qed.

Lemma trimStart_keep (c : N) (s : jstring) :
  isWhiteSpace c = false -> trimStart (c :: s) = c :: s.
Proof. intros Hc. simpl. by rewrite Hc. Qed.

Lemma trimEnd_length (s : jstring) : (length (trimEnd s) <= length s)%nat.
Proof.
  unfold trimEnd. rewrite length_rev.
  etransitivity; [apply trimStart_length|]. by rewrite length_rev.
Qed.

Lemma trimEnd_ws (s : jstring) (c : N) :
  isWhiteSpace c = true -> (length (trimEnd (s ++ [c])) <= length s)%nat.
Proof.
  intros Hc. unfold trimEnd. rewrite rev_app_distr. simpl.
  rewrite length_rev. etransitivity; [by apply trimStart_ws|].
  by rewrite length_rev.
Qed.

Lemma trimEnd_keep (s : jstring) (c : N) :
  isWhiteSpace c = false -> trimEnd (s ++ [c]) = s ++ [c].
Proof.
  intros Hc. unfold trimEnd. rewrite rev_app_distr. simpl. rewrite Hc.
  simpl. by rewrite rev_involutive.
Qed.

Lemma trim_nil : trim [] = [].
Proof. reflexivity. Qed.

(** A string between two code units that are not white space is its own
    trim. *)
Lemma trim_keep (c d : N) (mid : jstring) :
  isWhiteSpace c = false -> isWhiteSpace d = false ->
  trim (c :: mid ++ [d]) = c :: mid ++ [d].
Proof.
  intros Hc Hd. unfold trim. rewrite trimStart_keep by done.
  by rewrite (app_comm_cons mid [d] c), trimEnd_keep.
Qed.

Lemma trim_keep1 (c : N) : isWhiteSpace c = false -> trim [c] = [c].
Proof. intros Hc. unfold trim, trimEnd. simpl. rewrite Hc. simpl. by rewrite Hc. Qed.

(** A non-empty string equal to its trim starts and ends with code units
    that are not white space. *)
Lemma trimmed_head (c : N) (s : jstring) :
  trim (c :: s) = c :: s -> isWhiteSpace c = false.
Proof.
  intros Ht. destruct (isWhiteSpace c) eqn:Hc; [|done].
  exfalso. assert (Hlen : (length (trim (c :: s)) <= length s)%nat).
  { unfold trim. etransitivity; [apply trimEnd_length|]. by apply trimStart_ws. }
  rewrite Ht in Hlen. simpl in Hlen. lia.
Qed.

Lemma trimmed_last (s : jstring) (d : N) :
  trim (s ++ [d]) = s ++ [d] -> isWhiteSpace d = false.
Proof.
  intros Ht. destruct (isWhiteSpace d) eqn:Hd; [|done].
  exfalso.
  assert (Hstart : trimStart (s ++ [d]) = s ++ [d]).
  { destruct s as [|c s]; simpl in *.
    - unfold trim in Ht. simpl in Ht. rewrite Hd in Ht. discriminate.
    - by rewrite (trimmed_head c (s ++ [d]) Ht). }
  unfold trim in Ht. rewrite Hstart in Ht.
  pose proof (trimEnd_ws s d Hd) as Hlen. rewrite Ht in Hlen.
  rewrite length_app in Hlen. simpl in Hlen. lia.
Qed.

(** Splitting a non-empty list at its last element. *)
Lemma snoc_inv {A : Type} (l : list A) :
  l ≠ [] -> exists l' x, l = l' ++ [x].
Proof.
  intros Hne. destruct (exists_last Hne) as (l' & x & ->). eauto.
Qed.

(** [startsWith] and [endsWith] for a one-unit pattern. *)
Lemma startsWith1 (c : N) (s : jstring) :
  startsWith [c] s = match s with
                     | d :: _ => (c =? d)%N
                     | [] => false
                     end.
Proof. destruct s as [|d s]; simpl; [done|]. by rewrite andb_true_r. Qed.

Lemma endsWith1_snoc (c d : N) (s : jstring) :
  endsWith [c] (s ++ [d]) = (c =? d)%N.
Proof.
  unfold endsWith. rewrite rev_app_distr. simpl. by rewrite andb_true_r.
Qed.

Lemma endsWith1_nil (c : N) : endsWith [c] [] = false.
Proof. reflexivity. Qed.

(** [indexOf] of one code unit that first occurs after [k]. *)
Lemma indexOf_from_first (c : N) (k rest : jstring) (i : Z) :
  c ∉ k -> indexOf_from [c] (k ++ c :: rest) i = i + Z.of_nat (length k).
Proof.
  revert i. induction k as [|d k IH]; intros i Hk.
  - simpl. rewrite N.eqb_refl. simpl. lia.
  - assert (c ≠ d) by (intros ->; apply Hk; left).
    assert (c ∉ k) by (intros Hin; apply Hk; by right).
    change (indexOf_from [c] ((d :: k) ++ c :: rest) i)
      with (if startsWith [c] (d :: k ++ c :: rest) then i
            else indexOf_from [c] (k ++ c :: rest) (i + 1)).
    rewrite startsWith1. rewrite (proj2 (N.eqb_neq c d)) by done.
    rewrite IH by done. simpl length. lia.
Qed.

Lemma indexOf_first (c : N) (k rest : jstring) :
  c ∉ k -> indexOf [c] (k ++ c :: rest) = Z.of_nat (length k).
Proof. intros Hk. unfold indexOf. by rewrite indexOf_from_first. Qed.

Lemma indexOf_from_none (c : N) (s : jstring) (i : Z) :
  c ∉ s -> indexOf_from [c] s i = -1.
Proof.
  revert i. induction s as [|d s IH]; intros i Hs; [reflexivity|].
  assert (c ≠ d) by (intros ->; apply Hs; left).
  assert (c ∉ s) by (intros Hin; apply Hs; by right).
  change (indexOf_from [c] (d :: s) i)
    with (if startsWith [c] (d :: s) then i else indexOf_from [c] s (i + 1)).
  rewrite startsWith1. rewrite (proj2 (N.eqb_neq c d)) by done. by apply IH.
Qed.

Lemma includes_first (c : N) (k rest : jstring) :
  c ∉ k -> includes [c] (k ++ c :: rest) = true.
Proof.
  intros Hk. unfold includes. rewrite indexOf_first by done.
  apply negb_true_iff. apply Z.eqb_neq. lia.
Qed.

Lemma includes_none (c : N) (s : jstring) : c ∉ s -> includes [c] s = false.
Proof.
  intros Hs. unfold includes, indexOf. by rewrite indexOf_from_none.
Qed.

(** [slice] with indices inside the string. *)
Lemma slice_prefix (i : nat) (s : jstring) :
  (i <= length s)%nat -> slice 0 (Z.of_nat i) s = take i s.
Proof.
  intros Hi. unfold slice, clamp_index.
  replace (0 <? 0) with false by reflexivity.
  rewrite (proj2 (Z.ltb_ge _ _)) by lia.
  rewrite Z.min_l by lia. rewrite Z.min_l by lia.
  simpl. rewrite Z.sub_0_r, Nat2Z.id. reflexivity.
Qed.

Lemma slice_from_suffix (i : nat) (s : jstring) :
  (i <= length s)%nat -> slice_from (Z.of_nat i) s = drop i s.
Proof.
  intros Hi. unfold slice_from, slice, clamp_index.
  rewrite !(proj2 (Z.ltb_ge _ _)) by lia.
  rewrite Z.min_l by lia. rewrite Z.min_l by lia.
  rewrite Nat2Z.id. rewrite <- Nat2Z.inj_sub by lia. rewrite Nat2Z.id.
  apply take_ge. rewrite length_drop. lia.
Qed.

Lemma slice_inner (c d : N) (mid : jstring) :
  slice 1 (-1) (c :: mid ++ [d]) = mid.
Proof.
  unfold slice, clamp_index. simpl length. rewrite length_app. simpl length.
  replace (1 <? 0) with false by reflexivity.
  replace (-1 <? 0) with true by reflexivity.
  rewrite Z.min_l by lia. rewrite Z.max_l by lia.
  replace (Z.to_nat 1) with 1%nat by reflexivity. simpl drop.
  replace (Z.to_nat (Z.of_nat (S (length mid + 1)) + -1 - 1)) with (length mid) by lia.
  rewrite drop_0. by rewrite take_app_length.
Qed.

(** Splitting the text of lines gives the lines back, blank ones aside. *)
Lemma split_go_line (l rest : jstring) :
  no_line_break l ->
  split_go false (l ++ 10%N :: rest) = l :: split_go true rest.
Proof.
  induction 1 as [|c l Hc Hl IH]; simpl; [done|].
  rewrite Hc. by rewrite IH.
Qed.

Lemma split_go_true_line (l rest : jstring) :
  no_line_break l ->
  split_go true (l ++ 10%N :: rest)
  = match l with
    | [] => split_go true rest
    | _ :: _ => l :: split_go true rest
    end.
Proof.
  intros Hl. destruct Hl as [|c l Hc Hl]; simpl; [done|].
  rewrite Hc. by rewrite split_go_line.
Qed.

Lemma split_go_true_unlines (ls : list jstring) :
  Forall no_line_break ls ->
  split_go true (unlines ls) = nonblank ls ++ [[]].
Proof.
  induction 1 as [|l ls Hl Hls IH]; [reflexivity|].
  unfold unlines in *. simpl. rewrite <- app_assoc. simpl.
  rewrite split_go_true_line by done. unfold nonblank. rewrite filter_cons.
  destruct l as [|c l]; simpl.
  - apply IH.
  - f_equal. apply IH.
Qed.

Lemma split_lines_unlines (l : jstring) (ls : list jstring) :
  Forall no_line_break (l :: ls) ->
  split_lines (unlines (l :: ls)) = l :: nonblank ls ++ [[]].
Proof.
  intros Hall. inversion Hall as [|? ? Hl Hls]; subst.
  unfold split_lines, unlines. simpl. rewrite <- app_assoc. simpl.
  rewrite split_go_line by done. f_equal. by apply split_go_true_unlines.
Qed.

Lemma unlines_cons (l : jstring) (ls : list jstring) :
  unlines (l :: ls) = l ++ [10%N] ++ unlines ls.
Proof. unfold unlines. simpl. by rewrite <- app_assoc. Qed.

Lemma unlines_app (l1 l2 : list jstring) :
  unlines (l1 ++ l2) = unlines l1 ++ unlines l2.
Proof. unfold unlines. apply flat_map_app. Qed.

Lemma no_line_break_app (a b : jstring) :
  no_line_break a -> no_line_break b -> no_line_break (a ++ b).
Proof. unfold no_line_break. intros. by apply Forall_app. Qed.

End StringFacts.

(** ** Lines and line endings *)

Module LineLaws.
Import StringFacts.

Lemma split_go_true_breaks (sep rest : jstring) :
  Forall (fun c => isLineBreak c = true) sep ->
  split_go true (sep ++ rest) = split_go true rest.
Proof. induction 1 as [|c sep Hc Hs IH]; simpl; [done|]. by rewrite Hc. Qed.

Lemma split_go_ending (l sep rest : jstring) :
  no_line_break l -> line_ending sep ->
  split_go false (l ++ sep ++ rest) = l :: split_go true rest.
Proof.
  intros Hl [Hne Hs]. induction Hl as [|c l Hc Hl IH]; simpl.
  - destruct Hs as [|d sep Hd Hs]; [done|]. simpl. rewrite Hd.
    by rewrite split_go_true_breaks.
  - rewrite Hc. by rewrite IH.
Qed.

Lemma split_go_true_ending (l sep rest : jstring) :
  no_line_break l -> line_ending sep ->
  split_go true (l ++ sep ++ rest)
  = match l with
    | [] => split_go true rest
    | _ :: _ => l :: split_go true rest
    end.
Proof.
  intros Hl Hs. destruct Hl as [|c l Hc Hl].
  - simpl. apply split_go_true_breaks. by destruct Hs.
  - simpl. rewrite Hc.
    by rewrite (split_go_ending l sep rest Hl Hs).
Qed.

Lemma split_go_true_lines_with (sep : jstring) (ls : list jstring) :
  line_ending sep -> Forall no_line_break ls ->
  split_go true (lines_with sep ls) = nonblank ls ++ [[]].
Proof.
  intros Hs. induction 1 as [|l ls Hl Hls IH]; [reflexivity|].
  unfold lines_with in *. simpl. rewrite <- app_assoc.
  rewrite split_go_true_ending by done. unfold nonblank. rewrite filter_cons.
  destruct l as [|c l]; simpl.
  - apply IH.
  - f_equal. apply IH.
Qed.

(** Splitting does not see which line ending the text uses. *)
Lemma split_lines_with (sep : jstring) (ls : list jstring) :
  line_ending sep -> Forall no_line_break ls ->
  split_lines (lines_with sep ls) = split_lines (unlines ls).
Proof.
  intros Hs Hall. destruct Hall as [|l ls Hl Hls]; [reflexivity|].
  rewrite split_lines_unlines by by constructor.
  unfold split_lines, lines_with. simpl. rewrite <- app_assoc.
  rewrite split_go_ending by done. f_equal.
  by apply split_go_true_lines_with.
Qed.

Lemma lines_with_nil (sep : jstring) (ls : list jstring) :
  sep ≠ [] -> lines_with sep ls = [] <-> ls = [].
Proof.
  intros Hne. split; [|by intros ->]. destruct ls as [|l ls]; [done|].
  unfold lines_with. simpl. intros Heq.
  apply app_eq_nil in Heq as [Heq _]. apply app_eq_nil in Heq as [_ Heq]. done.
Qed.





End LineLaws.

(** ** The INI codec *)

Module INIFacts.
Section WithBuiltins.
Context `{Builtins}.

Import StringFacts.

(** The literals of the parser, as code units. *)
Ltac js_literals :=
  change (js "[") with [91%N] in *;
  change (js "]") with [93%N] in *;
  change (js "=") with [61%N] in *;
  change (js " = ") with [32%N; 61%N; 32%N] in *.

Lemma parse_line_blank (st : Store * option jstring) : INI.parse_line st [] = st.
Proof.
  destruct st as [res cur]. unfold INI.parse_line. simpl.
  by rewrite andb_false_r.
Qed.

Lemma parse_lines_app (l1 l2 : list jstring) (st : Store * option jstring) :
  INI.parse_lines (l1 ++ l2) st = INI.parse_lines l2 (INI.parse_lines l1 st).
Proof. unfold INI.parse_lines. apply foldl_app. Qed.

Lemma parse_lines_nonblank (ls : list jstring) (st : Store * option jstring) :
  INI.parse_lines (nonblank ls) st = INI.parse_lines ls st.
Proof.
  revert st. induction ls as [|l ls IH]; intros st; [reflexivity|].
  unfold nonblank. rewrite filter_cons. destruct l as [|c l].
  - rewrite decide_False by (intros Hx; by apply Hx).
    change (INI.parse_lines ([] :: ls) st)
      with (INI.parse_lines ls (INI.parse_line st [])).
    rewrite parse_line_blank. apply IH.
  - rewrite decide_True by done.
    change (INI.parse_lines ((c :: l) :: ls) st)
      with (INI.parse_lines ls (INI.parse_line st (c :: l))).
    rewrite <- IH. reflexivity.
Qed.

(** Parsing the text of lines is running the loop over the lines. *)
Lemma parse_unlines (ls : list jstring) :
  Forall no_line_break ls ->
  INI.parse (unlines ls) = (INI.parse_lines ls (∅, None)).1.
Proof.
  intros Hls. unfold INI.parse. destruct ls as [|l ls]; [reflexivity|].
  rewrite split_lines_unlines by done.
  change (l :: nonblank ls ++ [[]]) with ([l] ++ nonblank ls ++ [[]]).
  rewrite !parse_lines_app, parse_lines_nonblank.
  change (INI.parse_lines [[]] ?st) with (INI.parse_line st []).
  by rewrite parse_line_blank.
Qed.

(** A section header selects the section, creating its table when the
    result has none. *)
Lemma parse_line_header (name : jstring) (res : Store) (cur : option jstring) :
  INI.parse_line (res, cur) (js "[" ++ name ++ js "]")
  = (match res !! name with
     | Some _ => res
     | None => <[name := ∅]> res
     end, Some name).
Proof.
  unfold INI.parse_line. js_literals.
  change ([91%N] ++ name ++ [93%N]) with (91%N :: name ++ [93%N]).
  rewrite trim_keep by reflexivity.
  rewrite startsWith1, N.eqb_refl.
  rewrite (app_comm_cons name [93%N] 91%N), endsWith1_snoc.
  simpl andb. cbv iota. rewrite <- app_comm_cons, slice_inner.
  reflexivity.
Qed.

Lemma trim_space_l (s : jstring) : trim (32%N :: s) = trim s.
Proof. reflexivity. Qed.

Lemma trim_space_r (key : jstring) : trim key = key -> trim (key ++ [32%N]) = key.
Proof.
  intros Hk. destruct key as [|c k]; [reflexivity|].
  pose proof (trimmed_head c k Hk) as Hc.
  unfold trim in *. rewrite trimStart_keep in Hk by done.
  change ((c :: k) ++ [32%N]) with (c :: (k ++ [32%N])).
  rewrite trimStart_keep by done.
  unfold trimEnd in *. rewrite (app_comm_cons k [32%N] c), rev_app_distr.
  exact Hk.
Qed.

(** A key line written by [stringify] stores the value under the key in
    the current section. *)
Lemma parse_line_key (sec key : jstring) (v : val) (res : Store) :
  sec ≠ [] ->
  INI.entry_ok key v ->
  INI.parse_line (res, Some sec) (INI.key_line (key, v))
  = (<[sec := <[key := v]> (default ∅ (res !! sec))]> res, Some sec).
Proof.
  intros Hsec ((Hkb & Hke & Hkt) & (Hp & Htb & Htt & Hne) & Hh).
  unfold INI.key_line. simpl fst. simpl snd.
  set (s := INI.value_text v) in *.
  destruct (snoc_inv s Hne) as (s' & d & Hs).
  assert (Hd : isWhiteSpace d = false).
  { apply (trimmed_last s' d). by rewrite <- Hs. }
  assert (Htruthy : INI.truthy (Some sec) = true) by (by destruct sec).
  assert (Hraw : trim (32%N :: s) = s) by (by rewrite trim_space_l).
  unfold INI.parse_line. rewrite Htruthy. js_literals.
  destruct key as [|c k].
  - (* the empty key: the line starts with a space *)
    change ([] ++ [32%N; 61%N; 32%N] ++ s) with (32%N :: 61%N :: 32%N :: s).
    assert (Htrim : trim (32%N :: 61%N :: 32%N :: s) = 61%N :: 32%N :: s).
    { rewrite trim_space_l. rewrite Hs.
      change (61%N :: 32%N :: s' ++ [d]) with (61%N :: (32%N :: s') ++ [d]).
      by apply trim_keep. }
    rewrite Htrim. rewrite startsWith1.
    change ((91 =? 61)%N) with false. simpl andb. cbv iota.
    change (61%N :: 32%N :: s) with ([] ++ 61%N :: 32%N :: s).
    rewrite (includes_first 61%N [] (32%N :: s)) by (by intros Hin; inversion Hin).
    rewrite (indexOf_first 61%N [] (32%N :: s)) by (by intros Hin; inversion Hin).
    simpl andb. cbv iota. simpl length. simpl app.
    rewrite (slice_prefix 0) by (simpl; lia).
    change (Z.of_nat 0 + 1) with (Z.of_nat 1).
    rewrite (slice_from_suffix 1) by (simpl; lia).
    simpl take. simpl drop. rewrite trim_nil, Hraw, Hp.
    reflexivity.
  - (* a key that starts with a code unit other than white space *)
    pose proof (trimmed_head c k Hkt) as Hc.
    assert (Hline : (c :: k) ++ [32%N; 61%N; 32%N] ++ s
                    = c :: (k ++ [32%N; 61%N; 32%N] ++ s') ++ [d]).
    { rewrite Hs. simpl. by rewrite <- !app_assoc. }
    assert (Htrim : trim ((c :: k) ++ [32%N; 61%N; 32%N] ++ s)
                    = (c :: k) ++ [32%N; 61%N; 32%N] ++ s).
    { rewrite Hline. by apply trim_keep. }
    rewrite Htrim.
    assert (Hhead : startsWith [91%N] ((c :: k) ++ [32%N; 61%N; 32%N] ++ s)
                    && endsWith [93%N] ((c :: k) ++ [32%N; 61%N; 32%N] ++ s) = false).
    { rewrite Hline. rewrite (app_comm_cons _ [d] c), endsWith1_snoc.
      rewrite <- app_comm_cons, startsWith1.
      destruct (91 =? c)%N eqn:E1; [|done].
      destruct (93 =? d)%N eqn:E2; [|done].
      exfalso. apply Hh. unfold INI.header_like. js_literals. split.
      - rewrite startsWith1. exact E1.
      - fold s. rewrite Hs. rewrite endsWith1_snoc. exact E2. }
    rewrite Hhead.
    assert (Hsplit : (c :: k) ++ [32%N; 61%N; 32%N] ++ s
                     = ((c :: k) ++ [32%N]) ++ 61%N :: (32%N :: s)).
    { simpl. by rewrite <- app_assoc. }
    assert (Hnoeq : 61%N ∉ (c :: k) ++ [32%N]).
    { intros Hin. apply elem_of_app in Hin as [Hin|Hin]; [by apply Hke|].
      apply list_elem_of_singleton in Hin. discriminate. }
    rewrite Hsplit.
    rewrite includes_first by done. rewrite indexOf_first by done.
    simpl andb. cbv iota.
    rewrite slice_prefix by (rewrite !length_app; simpl; lia).
    replace (Z.of_nat (length ((c :: k) ++ [32%N])) + 1)
      with (Z.of_nat (S (length ((c :: k) ++ [32%N])))) by lia.
    rewrite slice_from_suffix by (rewrite !length_app; simpl; lia).
    rewrite take_app_length.
    replace (S (length ((c :: k) ++ [32%N])))
      with (length (((c :: k) ++ [32%N]) ++ [61%N]))
      by (rewrite !length_app; simpl; lia).
    change (((c :: k) ++ [32%N]) ++ 61%N :: 32%N :: s)
      with (((c :: k) ++ [32%N]) ++ [61%N] ++ 32%N :: s).
    rewrite app_assoc, drop_app_length.
    rewrite trim_space_r by done. rewrite Hraw, Hp.
    reflexivity.
Qed.

(** The key lines of a section, one after the other. *)
Lemma parse_key_lines (sec : jstring) (kvs : list (jstring * val))
    (res : Store) (t : Table) :
  sec ≠ [] ->
  Forall (fun kv => INI.entry_ok kv.1 kv.2) kvs ->
  res !! sec = Some t ->
  INI.parse_lines (map INI.key_line kvs) (res, Some sec)
  = (<[sec := foldl INI.put_entry t kvs]> res, Some sec).
Proof.
  intros Hsec Hok. revert res t.
  induction Hok as [|[k v] kvs Hkv Hok IH]; intros res t Ht.
  - simpl. by rewrite insert_id.
  - simpl map.
    change (INI.parse_lines (INI.key_line (k, v) :: map INI.key_line kvs) (res, Some sec))
      with (INI.parse_lines (map INI.key_line kvs)
              (INI.parse_line (res, Some sec) (INI.key_line (k, v)))).
    rewrite parse_line_key by done. rewrite Ht. simpl default.
    rewrite (IH _ (<[k := v]> t)) by apply lookup_insert_eq.
    rewrite insert_insert_eq. reflexivity.
Qed.

Lemma parse_section (sec : jstring * list (jstring * val)) (res : Store)
    (cur : option jstring) :
  INI.section_safe sec ->
  INI.parse_lines (INI.lines_of_section sec) (res, cur)
  = (INI.put_section res sec, Some sec.1).
Proof.
  destruct sec as [name kvs]. intros [[Hne _] Hok]. cbn [fst snd] in *.
  unfold INI.lines_of_section. cbn [fst snd].
  change (INI.parse_lines ((js "[" ++ name ++ js "]") :: ?l) ?st)
    with (INI.parse_lines l (INI.parse_line st (js "[" ++ name ++ js "]"))).
  rewrite parse_line_header, parse_lines_app.
  set (res1 := match res !! name with Some _ => res | None => <[name := ∅]> res end).
  assert (H1 : res1 !! name = Some (default ∅ (res !! name))).
  { subst res1. destruct (res !! name) eqn:E; simpl; [done|].
    apply lookup_insert_eq. }
  rewrite (parse_key_lines name kvs res1 _ Hne Hok H1).
  change (INI.parse_lines [[]] ?st) with (INI.parse_line st []).
  rewrite parse_line_blank. unfold INI.put_section. simpl. f_equal.
  subst res1. destruct (res !! name) eqn:E; [done|].
  apply insert_insert_eq.
Qed.

Lemma parse_sections (l : list (jstring * list (jstring * val))) (res : Store)
    (cur : option jstring) :
  Forall INI.section_safe l ->
  (INI.parse_lines (flat_map INI.lines_of_section l) (res, cur)).1
  = foldl INI.put_section res l.
Proof.
  intros Hl. revert res cur. induction Hl as [|sec l Hs Hl IH]; intros res cur.
  - reflexivity.
  - change (flat_map INI.lines_of_section (sec :: l))
      with (INI.lines_of_section sec ++ flat_map INI.lines_of_section l).
    rewrite parse_lines_app, parse_section by done.
    rewrite IH. reflexivity.
Qed.

(** The text of [stringify], line by line. *)
Lemma stringify_key_unlines (kvs : list (jstring * val)) :
  flat_map INI.stringify_key kvs = unlines (map INI.key_line kvs).
Proof.
  induction kvs as [|kv kvs IH]; [reflexivity|].
  simpl. rewrite IH. unfold INI.stringify_key, INI.key_line, INI.value_text.
  by rewrite <- !app_assoc.
Qed.

Lemma stringify_entries_unlines (l : list (jstring * list (jstring * val))) :
  INI.stringify_entries l = unlines (flat_map INI.lines_of_section l).
Proof.
  induction l as [|sec l IH]; [reflexivity|].
  unfold INI.stringify_entries in *.
  change (flat_map INI.stringify_section (sec :: l))
    with (INI.stringify_section sec ++ flat_map INI.stringify_section l).
  change (flat_map INI.lines_of_section (sec :: l))
    with (INI.lines_of_section sec ++ flat_map INI.lines_of_section l).
  rewrite IH. rewrite unlines_app. f_equal.
  unfold INI.stringify_section, INI.lines_of_section.
  rewrite stringify_key_unlines.
  rewrite unlines_cons, unlines_app.
  change (unlines [[]]) with [10%N]. by rewrite <- !app_assoc.
Qed.

Lemma lines_no_line_break (l : list (jstring * list (jstring * val))) :
  Forall INI.section_safe l ->
  Forall no_line_break (flat_map INI.lines_of_section l).
Proof.
  induction 1 as [|sec l [[_ Hn] Hok] Hl IH]; [constructor|].
  change (flat_map INI.lines_of_section (sec :: l))
    with (INI.lines_of_section sec ++ flat_map INI.lines_of_section l).
  apply Forall_app. split; [|exact IH].
  unfold INI.lines_of_section. constructor.
  - js_literals. apply no_line_break_app; [by repeat constructor|].
    apply no_line_break_app; [done | by repeat constructor].
  - apply Forall_app. split; [|by repeat constructor].
    apply Forall_map. eapply Forall_impl; [exact Hok|].
    intros [k v] ((Hkb & _) & (_ & Htb & _) & _). cbn [fst snd] in *.
    unfold INI.key_line. cbn [fst snd].
    apply no_line_break_app; [done|].
    apply no_line_break_app; [|done].
    js_literals. by repeat constructor.
Qed.

(** Writing the entries of a map one by one rebuilds the map. *)
Lemma foldl_put_entry (kvs : list (jstring * val)) (t : Table) :
  NoDup kvs.*1 -> foldl INI.put_entry t kvs = list_to_map kvs ∪ t.
Proof.
  revert t. induction kvs as [|[k v] kvs IH]; intros t Hnd.
  - simpl. by rewrite (left_id_L ∅ (∪)).
  - inversion Hnd as [|? ? Hk Hnd']; subst. simpl.
    rewrite IH by done. unfold INI.put_entry. simpl.
    rewrite <- insert_union_r by (by apply not_elem_of_list_to_map_1).
    by rewrite insert_union_l.
Qed.

Lemma put_section_fresh (res : Store) (name : jstring) (t : Table) :
  res !! name = None ->
  INI.put_section res (name, map_to_list t) = <[name := t]> res.
Proof.
  intros Hn. unfold INI.put_section. simpl. rewrite Hn. simpl.
  rewrite foldl_put_entry by apply NoDup_fst_map_to_list.
  rewrite (right_id_L ∅ (∪)). by rewrite list_to_map_to_list.
Qed.

Lemma foldl_put_section (L : list (jstring * Table)) (res : Store) :
  NoDup L.*1 ->
  (forall n, n ∈ L.*1 -> res !! n = None) ->
  foldl INI.put_section res ((fun st => (st.1, map_to_list st.2)) <$> L)
  = list_to_map L ∪ res.
Proof.
  revert res. induction L as [|[n t] L IH]; intros res Hnd Hfresh.
  - simpl. by rewrite (left_id_L ∅ (∪)).
  - inversion Hnd as [|? ? Hn Hnd']; subst. simpl.
    rewrite put_section_fresh by (apply Hfresh; simpl; left).
    rewrite IH; [|done|].
    + rewrite <- insert_union_r by (by apply not_elem_of_list_to_map_1).
      by rewrite insert_union_l.
    + intros m Hm. rewrite lookup_insert_ne.
      * apply Hfresh. simpl. by right.
      * intros ->. by apply Hn.
Qed.

Lemma enumerate_safe (data : Store) :
  INI.safe data -> Forall INI.section_safe (INI.enumerate data).
Proof.
  intros Hs. unfold INI.enumerate, own_entries. apply Forall_fmap.
  apply Forall_forall. intros [n t] Hin. apply elem_of_map_to_list in Hin.
  destruct (Hs n t Hin) as [Hsec Hent]. split; [exact Hsec|]. simpl.
  apply Forall_forall. intros [k v] Hkv. apply elem_of_map_to_list in Hkv.
  exact (Hent k v Hkv).
Qed.

(** Round trip through the INI codec, for the stores the format can
    hold. *)
Lemma parse_stringify (data : Store) :
  INI.safe data -> INI.parse (INI.stringify data) = data.
Proof.
  intros Hs. pose proof (enumerate_safe data Hs) as Hl.
  unfold INI.stringify. rewrite stringify_entries_unlines.
  rewrite parse_unlines by (by apply lines_no_line_break).
  rewrite parse_sections by done.
  unfold INI.enumerate, own_entries.
  rewrite foldl_put_section.
  - rewrite (right_id_L ∅ (∪)). apply list_to_map_to_list.
  - apply NoDup_fst_map_to_list.
  - intros n _. apply lookup_empty.
Qed.

End WithBuiltins.
End INIFacts.

(** ** The record-log codec *)

Module TxtFacts.
Section WithBuiltins.
Context `{Builtins}.

Import StringFacts.

Lemma init_line_blank (st : Store * list warning) : TxtDBCache.init_line st [] = st.
Proof. reflexivity. Qed.

(** A line that decodes stores its record, and logs nothing. *)
Lemma init_line_decoded (line : jstring) (r : jstring * jstring * val)
    (st : Store * list warning) :
  line ≠ [] ->
  TxtDBCache.decode_record line = Some r ->
  TxtDBCache.init_line st line = (TxtDBCache.set_record st.1 r, st.2).
Proof.
  intros Hne Hd. destruct line as [|c line]; [done|].
  unfold TxtDBCache.init_line, TxtDBCache.decode_record in *.
  destruct (JSON_parse (c :: line)) as [x|]; [|done].
  destruct (destructure3 x) as [[[t k] v]|]; [|done].
  injection Hd as <-. reflexivity.
Qed.

(** A line that does not decode changes nothing and logs one warning. *)
Lemma init_line_failed (line : jstring) (st : Store * list warning) :
  line ≠ [] ->
  TxtDBCache.decode_record line = None ->
  TxtDBCache.init_line st line = (st.1, st.2 ++ [failed_to_parse_cache_line]).
Proof.
  intros Hne Hd. destruct line as [|c line]; [done|].
  unfold TxtDBCache.init_line, TxtDBCache.decode_record in *.
  destruct (JSON_parse (c :: line)) as [x|]; [|done].
  destruct (destructure3 x) as [[[t k] v]|]; [done|]. reflexivity.
Qed.

Lemma init_lines_app (l1 l2 : list jstring) (st : Store * list warning) :
  TxtDBCache.init_lines (l1 ++ l2) st
  = TxtDBCache.init_lines l2 (TxtDBCache.init_lines l1 st).
Proof. unfold TxtDBCache.init_lines. apply foldl_app. Qed.

Lemma init_lines_cons (l : jstring) (ls : list jstring) (st : Store * list warning) :
  TxtDBCache.init_lines (l :: ls) st
  = TxtDBCache.init_lines ls (TxtDBCache.init_line st l).
Proof. reflexivity. Qed.

Lemma init_lines_nonblank (ls : list jstring) (st : Store * list warning) :
  TxtDBCache.init_lines (nonblank ls) st = TxtDBCache.init_lines ls st.
Proof.
  revert st. induction ls as [|l ls IH]; intros st; [reflexivity|].
  unfold nonblank. rewrite filter_cons. destruct l as [|c l].
  - rewrite decide_False by (intros Hx; by apply Hx).
    rewrite init_lines_cons, init_line_blank. apply IH.
  - rewrite decide_True by done. rewrite !init_lines_cons. apply IH.
Qed.

(** A line that does not assign [(T, K)] leaves that entry as it was. *)
Lemma init_line_other (T K : jstring) (line : jstring) (st : Store * list warning) :
  ¬ TxtDBCache.assigns T K line ->
  Dicts.entry (TxtDBCache.init_line st line).1 T K = Dicts.entry st.1 T K.
Proof.
  intros Hna. destruct line as [|c line]; [done|].
  destruct (TxtDBCache.decode_record (c :: line)) as [[[t k] v]|] eqn:Hd.
  - rewrite (init_line_decoded (c :: line) (t, k, v) st ltac:(done) Hd).
    unfold TxtDBCache.set_record. simpl. rewrite DictsFacts.entry_set.
    rewrite decide_False; [done|]. intros [-> ->]. apply Hna. by exists v.
  - by rewrite (init_line_failed (c :: line) st ltac:(done) Hd).
Qed.

Lemma init_lines_other (T K : jstring) (ls : list jstring) (st : Store * list warning) :
  Forall (fun l => ¬ TxtDBCache.assigns T K l) ls ->
  Dicts.entry (TxtDBCache.init_lines ls st).1 T K = Dicts.entry st.1 T K.
Proof.
  intros Hls. revert st. induction Hls as [|l ls Hl Hls IH]; intros st; [done|].
  rewrite init_lines_cons, IH. by apply init_line_other.
Qed.



(** Loading the text of lines is running the loop over the lines. *)
Lemma init_unlines (ls : list jstring) (st : Store * list warning) :
  Forall no_line_break ls ->
  TxtDBCache.init (ReadData (unlines ls)) st = TxtDBCache.init_lines ls st.
Proof.
  intros Hls. destruct ls as [|l ls]; [reflexivity|].
  unfold TxtDBCache.init.
  destruct (unlines (l :: ls)) as [|c data] eqn:E.
  - rewrite unlines_cons in E. by destruct l.
  - rewrite <- E. rewrite split_lines_unlines by done.
    change (l :: nonblank ls ++ [[]]) with ([l] ++ nonblank ls ++ [[]]).
    rewrite !init_lines_app, init_lines_nonblank.
    reflexivity.
Qed.



(** The line written for an entry decodes to the entry. *)
Lemma decode_record_text (T K : jstring) (V : val) :
  TxtDBCache.record_ok T K V ->
  TxtDBCache.decode_record (TxtDBCache.record_text T K V) = Some (T, K, V).
Proof.
  intros (Hp & _ & _). unfold TxtDBCache.decode_record. rewrite Hp. reflexivity.
Qed.

Lemma init_record_lines (rs : list (jstring * jstring * val))
    (st : Store * list warning) :
  Forall TxtDBCache.record_safe rs ->
  TxtDBCache.init_lines (map TxtDBCache.line_of_record rs) st
  = (foldl TxtDBCache.set_record st.1 rs, st.2).
Proof.
  intros Hrs. revert st. induction Hrs as [|[[T K] V] rs Hr Hrs IH]; intros st.
  - by destruct st.
  - change (map TxtDBCache.line_of_record ((T, K, V) :: rs))
      with (TxtDBCache.record_text T K V :: map TxtDBCache.line_of_record rs).
    rewrite init_lines_cons.
    unfold TxtDBCache.record_safe in Hr. cbn [fst snd] in Hr.
    pose proof Hr as (Hp & Hb & Hne).
    rewrite (init_line_decoded (TxtDBCache.record_text T K V) (T, K, V) st Hne
               (decode_record_text T K V Hr)).
    by rewrite IH.
Qed.

Lemma txtContent_unlines (store : Store) :
  TxtDBCache.txtContent store = unlines (map TxtDBCache.line_of_record (TxtDBCache.records store)).
Proof.
  unfold TxtDBCache.txtContent, TxtDBCache.txtContent_of, TxtDBCache.records.
  induction (INI.enumerate store) as [|sec l IH]; [reflexivity|].
  simpl flat_map. rewrite map_app, unlines_app, <- IH. f_equal.
  induction sec.2 as [|kv kvs IHk]; [reflexivity|].
  cbn [flat_map map]. rewrite unlines_cons, <- IHk.
  unfold TxtDBCache.record_line, TxtDBCache.line_of_record, TxtDBCache.record_text.
  cbn [fst snd]. by rewrite <- app_assoc.
Qed.

(** The records of a Store are its entries, each once. *)
Lemma elem_of_records (store : Store) (T K : jstring) (V : val) :
  (T, K, V) ∈ TxtDBCache.records store <-> Dicts.entry store T K = Some V.
Proof.
  unfold TxtDBCache.records, INI.enumerate, own_entries, Dicts.entry.
  rewrite list_elem_of_In, in_flat_map. split.
  - intros ([n kvs] & Hsec & Hin). simpl in Hin.
    apply list_elem_of_In, list_elem_of_fmap in Hsec as ([n' t] & Heq & Hnt).
    simpl in Heq. injection Heq as -> ->.
    apply elem_of_map_to_list in Hnt.
    apply in_map_iff in Hin as ([k v] & Heq & Hkv). simpl in Heq.
    injection Heq as -> -> ->.
    apply list_elem_of_In, elem_of_map_to_list in Hkv. by rewrite Hnt.
  - destruct (store !! T) as [t|] eqn:Ht; [|done]. intros HK.
    exists (T, map_to_list t). split.
    + apply list_elem_of_In, list_elem_of_fmap. exists (T, t). split; [done|].
      by apply elem_of_map_to_list.
    + simpl. apply in_map_iff. exists (K, V). split; [done|].
      by apply list_elem_of_In, elem_of_map_to_list.
Qed.

Lemma records_safe (store : Store) :
  TxtDBCache.safe store -> Forall TxtDBCache.record_safe (TxtDBCache.records store).
Proof.
  intros Hs. apply Forall_forall. intros [[T K] V] Hin.
  apply elem_of_records in Hin. unfold Dicts.entry in Hin.
  destruct (store !! T) as [t|] eqn:Ht; [|done].
  exact (Hs T t Ht K V Hin).
Qed.

(** Loading records one by one: an entry assigned by no record keeps its
    value, an entry assigned one value gets it. *)
Lemma entry_foldl_other (T K : jstring) (rs : list (jstring * jstring * val))
    (st : Store) :
  (forall V, (T, K, V) ∉ rs) ->
  Dicts.entry (foldl TxtDBCache.set_record st rs) T K = Dicts.entry st T K.
Proof.
  revert st. induction rs as [|[[t k] v] rs IH]; intros st Hno; [done|].
  simpl. rewrite IH.
  - unfold TxtDBCache.set_record. simpl. rewrite DictsFacts.entry_set.
    rewrite decide_False; [done|]. intros [-> ->]. apply (Hno v). left.
  - intros V Hin. apply (Hno V). by right.
Qed.

Lemma entry_foldl_assigned (T K : jstring) (V : val)
    (rs : list (jstring * jstring * val)) (st : Store) :
  (T, K, V) ∈ rs ->
  (forall V', (T, K, V') ∈ rs -> V' = V) ->
  Dicts.entry (foldl TxtDBCache.set_record st rs) T K = Some V.
Proof.
  induction rs as [|[[t k] v] rs IH] using rev_ind; intros Hin Huniq.
  - inversion Hin.
  - rewrite foldl_app. simpl. unfold TxtDBCache.set_record at 1. simpl.
    rewrite DictsFacts.entry_set.
    destruct (decide (t = T /\ k = K)) as [[-> ->]|Hne].
    + f_equal. apply Huniq. apply elem_of_app. right. left.
    + apply IH.
      * apply elem_of_app in Hin as [Hin|Hin]; [done|].
        apply list_elem_of_singleton in Hin. injection Hin as -> -> ->.
        exfalso. by apply Hne.
      * intros V' HV'. apply Huniq. apply elem_of_app. by left.
Qed.

(** Round trip through the record log: the entries come back. *)
Lemma init_txtContent (store : Store) :
  TxtDBCache.safe store ->
  let loaded := TxtDBCache.init (ReadData (TxtDBCache.txtContent store)) (∅, []) in
  loaded.2 = []
  /\ forall T K, Dicts.entry loaded.1 T K = Dicts.entry store T K.
Proof.
  intros Hs. pose proof (records_safe store Hs) as Hrs. cbv zeta.
  rewrite txtContent_unlines, init_unlines.
  - rewrite init_record_lines by done. cbn [fst snd]. split; [done|]. intros T K.
    destruct (Dicts.entry store T K) as [V|] eqn:E.
    + apply entry_foldl_assigned; [by apply elem_of_records|].
      intros V' HV'. apply elem_of_records in HV'. congruence.
    + rewrite entry_foldl_other; [done|].
      intros V HV. apply elem_of_records in HV. congruence.
  - apply Forall_map. eapply Forall_impl; [exact Hrs|].
    intros [[T K] V] (_ & Hb & _). exact Hb.
Qed.

End WithBuiltins.
End TxtFacts.

(** ** The tolerant parser on arbitrary text *)

Module ParserFacts.
Section WithBuiltins.
Context `{Builtins}.

(** Whenever a section is selected its table is in the result: the key
    branch of [parse_line] always finds the table it writes to. *)
Lemma parse_line_section_exists (st : Store * option jstring) (line : jstring) :
  INI.section_exists st -> INI.section_exists (INI.parse_line st line).
Proof.
  destruct st as [res cur]. intros Hinv sec. unfold INI.parse_line.
  destruct (startsWith (js "[") (trim line) && endsWith (js "]") (trim line)).
  - simpl. intros [= <-]. destruct (res !! slice 1 (-1) (trim line)) eqn:E.
    + by rewrite E.
    + by rewrite lookup_insert_eq.
  - destruct (INI.truthy cur && includes (js "=") (trim line)) eqn:Ht.
    + simpl. intros ->. simpl. by rewrite lookup_insert_eq.
    + exact (Hinv sec).
Qed.

Lemma parse_section_exists (lines : list jstring) :
  INI.section_exists (INI.parse_lines lines (∅, None)).
Proof.
  assert (Hgen : forall st, INI.section_exists st ->
                            INI.section_exists (INI.parse_lines lines st)).
  { induction lines as [|l lines IH]; intros st Hst; [done|].
    apply (IH (INI.parse_line st l)). by apply parse_line_section_exists. }
  apply Hgen. intros sec Hsec. discriminate.
Qed.

(** A line that is no header is ignored while no section is selected. *)
Lemma parse_line_outside (res : Store) (line : jstring) :
  INI.is_header line = false ->
  INI.parse_line (res, None) line = (res, None).
Proof.
  intros Hh. unfold INI.parse_line. fold (INI.is_header line). by rewrite Hh.
Qed.

Lemma parse_lines_outside (res : Store) (pre : list jstring) :
  Forall (fun l => INI.is_header l = false) pre ->
  INI.parse_lines pre (res, None) = (res, None).
Proof.
  induction 1 as [|l pre Hl Hpre IH]; [reflexivity|].
  change (INI.parse_lines (l :: pre) (res, None))
    with (INI.parse_lines pre (INI.parse_line (res, None) l)).
  by rewrite parse_line_outside.
Qed.

(** The lines before the first section header do not count. *)
Lemma parse_lines_before_header (pre rest : list jstring) :
  Forall (fun l => INI.is_header l = false) pre ->
  INI.parse_lines (pre ++ rest) (∅, None) = INI.parse_lines rest (∅, None).
Proof.
  intros Hpre. by rewrite INIFacts.parse_lines_app, parse_lines_outside.
Qed.

(** A key line in a section with a non-empty name stores the decoded
    value under its key, replacing what the key held. *)
Lemma parse_line_assigns (res : Store) (sec line : jstring) :
  sec ≠ [] ->
  INI.is_header line = false ->
  INI.has_equals line = true ->
  INI.parse_line (res, Some sec) line
  = (<[sec := <[INI.key_of line := INI.decode (INI.raw_of line)]>
                (default ∅ (res !! sec))]> res, Some sec).
Proof.
  intros Hsec Hh He. unfold INI.parse_line.
  fold (INI.is_header line). fold (INI.has_equals line). rewrite Hh, He.
  destruct sec as [|c sec]; [done|]. reflexivity.
Qed.

(** A second header of a section keeps the table read so far. *)
Lemma parse_line_header_again (res : Store) (cur : option jstring)
    (name : jstring) (t : Table) :
  res !! name = Some t ->
  INI.parse_line (res, cur) (js "[" ++ name ++ js "]") = (res, Some name).
Proof. intros Ht. by rewrite INIFacts.parse_line_header, Ht. Qed.

(** In the section with the empty name, selected by the header [[]], every
    line that is no header is dropped. *)
Lemma parse_line_empty_section (res : Store) (line : jstring) :
  INI.is_header line = false ->
  INI.parse_line (res, Some []) line = (res, Some []).
Proof.
  intros Hh. unfold INI.parse_line. fold (INI.is_header line). by rewrite Hh.
Qed.

End WithBuiltins.
End ParserFacts.

Section Codecs.
Context `{Builtins}.

(** C5 (amended). Encoding then decoding a Store: through the record log,
    every entry comes back with its value and no line is rejected (tables
    without entries are not recorded), for every table name and key, when the
    JSON text of each triple is one line that parses back to it; through the
    INI codec the Store comes back equal when, in addition, every table name
    is non-empty and free of line breaks, every key is free of line breaks
    and of [=], has no white space at either end, and no key line reads as a
    section header. *)
Theorem codec_round_trip :
  (forall store : Store,
      TxtDBCache.safe store ->
      let loaded :=
        TxtDBCache.init (ReadData (TxtDBCache.txtContent store)) (∅, []) in
      loaded.2 = []
      /\ forall T K, Dicts.entry loaded.1 T K = Dicts.entry store T K)
  /\ (forall data : Store,
      INI.safe data ->
      INI.parse (INI.stringify data) = data
      /\ IniDBCache.init (ReadData (INI.stringify data)) (∅, []) = (data, [])).
Proof.
  split.
  - intros store Hs. by apply TxtFacts.init_txtContent.
  - intros data Hs. pose proof (INIFacts.parse_stringify data Hs) as Hrt.
    split; [exact Hrt|]. unfold IniDBCache.init.
    destruct (INI.stringify data) as [|c text] eqn:E.
    + rewrite <- Hrt. reflexivity.
    + by rewrite Hrt.
Qed.


End Codecs.

(** C7 (the code misses the case of the empty section name). The header
    [[]] selects the section named by the empty string and creates its
    table, but [currentSection &&] is false for the empty string, so the key
    lines that follow are dropped: of [a = 1] then [a = 2] neither is
    stored. *)
Theorem parse_drops_keys_of_empty_section `{Builtins} :
  INI.parse (js "[]" ++ lf ++ js "a = 1" ++ lf ++ js "a = 2")
  = {[ [] := ∅ ]}.
Proof. vm_compute. reflexivity. Qed.

(** The same text under a header with a name: the later line wins. *)
Example parse_later_key_wins :
  @INI.parse Reference.builtins
    (js "[s]" ++ lf ++ js "a = 1" ++ lf ++ js "a = 2")
  = {[ js "s" := {[ js "a" := VNum 2 ]} ]}.
Proof. vm_compute. reflexivity. Qed.

(** A key line before any header is ignored, and two blocks of one section
    merge. *)
Example parse_merges_sections :
  @INI.parse Reference.builtins
    (js "x = 0" ++ lf ++ js "[s]" ++ lf ++ js "a = 1" ++ lf ++ js "b = 1" ++ lf
     ++ js "[t]" ++ lf ++ js "[s]" ++ lf ++ js "a = 2")
  = {[ js "s" := {[ js "a" := VNum 2; js "b" := VNum 1 ]}; js "t" := ∅ ]}.
Proof. vm_compute. reflexivity. Qed.

(** C5, counterexample: a key with an [=] sign does not come back from the
    INI codec. *)
Lemma ini_round_trip_fails_on_equals_key :
  @INI.parse Reference.builtins (@INI.stringify Reference.builtins equals_key_store)
  = {[ js "t" := {[ js "a" := VStr (js "b = 1") ]} ]}
  /\ @INI.parse Reference.builtins (@INI.stringify Reference.builtins equals_key_store)
     ≠ equals_key_store.
Proof.
  assert (Hp : @INI.parse Reference.builtins
                 (@INI.stringify Reference.builtins equals_key_store)
               = {[ js "t" := {[ js "a" := VStr (js "b = 1") ]} ]})
    by (vm_compute; reflexivity).
  split; [exact Hp|]. rewrite Hp. intros Heq.
  apply (f_equal (fun m => @Dicts.entry Reference.builtins m (js "t") (js "a"))) in Heq.
  vm_compute in Heq. discriminate.
Qed.

(** ** [forEach] *)

Module ForEachFacts.
Section WithBuiltins.
Context `{Builtins}.

Import Cache.

(** When no call throws, the loop calls the callback on every entry, in
    order, and keeps every awaitable it got. *)
Lemma launch_all (callback : val -> jstring -> invocation)
    (entries : list (jstring * val)) :
  Forall (returns callback) entries ->
  calls (launch callback entries) = map swap entries
  /\ thrown (launch callback entries) = None
  /\ Forall2 (fun kv a => callback kv.2 kv.1 = Returned a)
       entries (tasks (launch callback entries)).
Proof.
  induction 1 as [|[k v] entries [a Ha] Hall (IH1 & IH2 & IH3)].
  - simpl. repeat split. constructor.
  - simpl in *. rewrite Ha. simpl. rewrite IH1, IH2. repeat split.
    by constructor.
Qed.

(** A call that throws ends the loop: the entries after it are not
    visited. *)
Lemma launch_thrown (callback : val -> jstring -> invocation)
    (pre post : list (jstring * val)) (k : jstring) (v : val) (e : jstring) :
  Forall (returns callback) pre ->
  callback v k = Thrown e ->
  calls (launch callback (pre ++ (k, v) :: post)) = map swap (pre ++ [(k, v)])
  /\ thrown (launch callback (pre ++ (k, v) :: post)) = Some e
  /\ length (tasks (launch callback (pre ++ (k, v) :: post))) = length pre.
Proof.
  intros Hpre He. induction Hpre as [|[k' v'] pre [a Ha] Hpre (IH1 & IH2 & IH3)].
  - simpl. rewrite He. simpl. done.
  - simpl in *. rewrite Ha. simpl. rewrite IH1, IH2, IH3. done.
Qed.

(** A task that rejects makes [Promise.all] report a rejection. *)
Lemma first_rejection_some (t0 : Z) (l : list awaitable) (a : awaitable)
    (t : Z) (e : jstring) :
  a ∈ l -> settles t0 a = Rejects t e ->
  exists t' e', first_rejection t0 l = Some (t', e').
Proof.
  induction l as [|b l IH]; intros Hin Hs; [inversion Hin|].
  simpl. apply elem_of_cons in Hin as [->|Hin].
  - rewrite Hs. destruct (first_rejection t0 l) as [[t1 e1]|]; [|by eauto].
    destruct (t <=? t1); eauto.
  - destruct (IH Hin Hs) as (t' & e' & ->).
    destruct (settles t0 b) as [?|tb eb|]; [by eauto| |by eauto].
    destruct (tb <=? t'); eauto.
Qed.

(** [Promise.all] reports a rejection of one of the tasks, and none of
    them rejects earlier. *)
Lemma first_rejection_least (t0 : Z) (l : list awaitable) (t : Z) (e : jstring) :
  first_rejection t0 l = Some (t, e) ->
  (exists a, a ∈ l /\ settles t0 a = Rejects t e)
  /\ (forall a t' e', a ∈ l -> settles t0 a = Rejects t' e' -> t <= t').
Proof.
  revert t e. induction l as [|a l IH]; intros t e Hf; [done|].
  simpl in Hf.
  destruct (settles t0 a) as [ta|ta ea|] eqn:Ha.
  - destruct (IH t e Hf) as [(b & Hb & Hsb) Hmin]. split.
    + exists b. split; [by right | done].
    + intros c t' e' Hc Hsc. apply elem_of_cons in Hc as [->|Hc].
      * congruence.
      * by eapply Hmin.
  - destruct (first_rejection t0 l) as [[t1 e1]|] eqn:Hr.
    + destruct (IH t1 e1 eq_refl) as [(b & Hb & Hsb) Hmin].
      destruct (Z.leb_spec ta t1); injection Hf as <- <-.
      * split; [exists a; split; [left | done]|].
        intros c t' e' Hc Hsc. apply elem_of_cons in Hc as [->|Hc].
        -- rewrite Ha in Hsc. injection Hsc as <- <-. lia.
        -- pose proof (Hmin c t' e' Hc Hsc). lia.
      * split; [exists b; split; [by right | done]|].
        intros c t' e' Hc Hsc. apply elem_of_cons in Hc as [->|Hc].
        -- rewrite Ha in Hsc. injection Hsc as <- <-. lia.
        -- by eapply Hmin.
    + injection Hf as <- <-. split; [exists a; split; [left | done]|].
      intros c t' e' Hc Hsc. apply elem_of_cons in Hc as [->|Hc].
      * rewrite Ha in Hsc. injection Hsc as <- <-. lia.
      * destruct (first_rejection_some t0 l c t' e' Hc Hsc) as (? & ? & Hx).
        congruence.
  - destruct (IH t e Hf) as [(b & Hb & Hsb) Hmin]. split.
    + exists b. split; [by right | done].
    + intros c t' e' Hc Hsc. apply elem_of_cons in Hc as [->|Hc].
      * congruence.
      * by eapply Hmin.
Qed.

Lemma first_rejection_none (t0 : Z) (l : list awaitable) :
  Forall (fun a => exists t, settles t0 a = Fulfils t) l ->
  first_rejection t0 l = None.
Proof.
  induction 1 as [|a l [t Ha] Hl IH]; [reflexivity|].
  simpl. by rewrite Ha, IH.
Qed.

(** With every task fulfilled, [Promise.all] is fulfilled when the last
    one is. *)
Lemma all_fulfilled_last (t0 : Z) (l : list awaitable) :
  Forall (fun a => exists t, settles t0 a = Fulfils t) l ->
  exists t, all_fulfilled t0 l = Some t
            /\ t0 <= t
            /\ forall a ta, a ∈ l -> settles t0 a = Fulfils ta -> ta <= t.
Proof.
  induction 1 as [|a l [ta Ha] Hl (t & IH1 & IH2 & IH3)].
  - exists t0. split; [done|]. split; [lia|]. intros a ta Hin. inversion Hin.
  - exists (Z.max ta t). simpl. rewrite Ha, IH1. split; [done|]. split; [lia|].
    intros b tb Hb Hsb. apply elem_of_cons in Hb as [->|Hb].
    + rewrite Ha in Hsb. injection Hsb as <-. lia.
    + pose proof (IH3 b tb Hb Hsb). lia.
Qed.

End WithBuiltins.
End ForEachFacts.

Section ForEach.
Context `{Builtins}.
Import Cache.

(** C9 (amended). [forEach] calls [callback(value, key)] once for every
    entry of the table, in traversal order and without waiting for any
    earlier call to settle, as long as no call throws before returning; a
    call that throws ends the traversal (the entries after it get no call)
    and fails the operation at once.  When no call throws, the operation
    fails as soon as one of the launched calls has failed, with the earliest
    rejection and without waiting for the others, every launched call
    staying among the tasks with its own outcome; it succeeds when the last
    one has. *)
Theorem forEach_launches_all_and_fails_fast
    (callback : val -> jstring -> invocation) (t0 : Z) :
  (forall (table : jstring) (s : cache * host),
      let entries := (TxtDBCache.entries table s).1 in
      NoDup entries.*1
      /\ (IniDBCache.entries table s).1 = entries
      /\ forall k v, (k, v) ∈ entries <-> Dicts.entry (store s.1) table k = Some v)
  /\ (forall entries : list (jstring * val),
      Forall (returns callback) entries ->
      let run := forEach callback entries t0 in
      calls run.1 = map swap entries
      /\ Forall2 (fun kv a => callback kv.2 kv.1 = Returned a) entries (tasks run.1)
      /\ (forall a t e,
            a ∈ tasks run.1 -> settles t0 a = Rejects t e ->
            exists t' e' a',
              run.2 = Rejects t' e' /\ t' <= t
              /\ a' ∈ tasks run.1 /\ settles t0 a' = Rejects t' e')
      /\ (Forall (fun a => exists t, settles t0 a = Fulfils t) (tasks run.1) ->
          exists t, run.2 = Fulfils t
                    /\ forall a ta, a ∈ tasks run.1 ->
                                    settles t0 a = Fulfils ta -> ta <= t))
  /\ (forall (pre post : list (jstring * val)) k v e,
        Forall (returns callback) pre ->
        callback v k = Thrown e ->
        let run := forEach callback (pre ++ (k, v) :: post) t0 in
        calls run.1 = map swap (pre ++ [(k, v)])
        /\ run.2 = Rejects t0 e).
Proof.
  split; [|split].
  - intros table s entries.
    assert (He : entries = map_to_list (default ∅ (store s.1 !! table))).
    { subst entries. unfold TxtDBCache.entries, DebouncedFileStore.entries.
      destruct s as [c h]. pose proof (DictsFacts.entries_fst table (store c)) as He.
      by destruct (Dicts.entries table (store c)) as [l st1]. }
    split; [rewrite He; apply NoDup_fst_map_to_list|]. split; [reflexivity|].
    intros k v. rewrite He, elem_of_map_to_list. unfold Dicts.entry.
    destruct (store s.1 !! table); simpl; [done|]. by rewrite lookup_empty.
  - intros entries Hret run. subst run. unfold forEach. simpl.
    destruct (ForEachFacts.launch_all callback entries Hret) as (Hc & Ht & Hf).
    rewrite Ht. split; [exact Hc|]. split; [exact Hf|]. split.
    + intros a t e Ha Hs.
      destruct (ForEachFacts.first_rejection_some t0 _ a t e Ha Hs) as (t' & e' & Hr).
      destruct (ForEachFacts.first_rejection_least t0 _ t' e' Hr)
        as [(a' & Ha' & Hs') Hmin].
      exists t', e', a'. unfold Promise_all. rewrite Hr.
      split; [done|]. split; [exact (Hmin a t e Ha Hs)|]. by split.
    + intros Hall. unfold Promise_all.
      rewrite (ForEachFacts.first_rejection_none t0 _ Hall).
      destruct (ForEachFacts.all_fulfilled_last t0 _ Hall) as (t & Hf1 & _ & Hf3).
      exists t. by rewrite Hf1.
  - intros pre post k v e Hpre Hthrow run. subst run. unfold forEach. simpl.
    destruct (ForEachFacts.launch_thrown callback pre post k v e Hpre Hthrow)
      as (Hc & Ht & _).
    by rewrite Ht.
Qed.

End ForEach.

(** ** The theorems at concrete inputs *)

(** Decide a closed decidable proposition by evaluation. *)
Ltac by_compute := refine (bool_decide_unpack _ _); vm_compute; exact I.

(** The conditions of the INI round trip, for a concrete key and value. *)
Ltac ini_entry_ok :=
  unfold INI.entry_ok, INI.key_ok, INI.text_ok, INI.header_like, no_line_break;
  repeat split;
  first [ by_compute | vm_compute; reflexivity
        | intros [Hs He]; vm_compute in Hs; discriminate ].

(** The conditions of the record-log round trip, for a concrete entry. *)
Ltac txt_record_ok :=
  unfold TxtDBCache.record_ok, no_line_break;
  repeat split; first [ by_compute | vm_compute; reflexivity ].

Lemma example_store_ini_safe : @INI.safe Reference.builtins example_store.
Proof.
  unfold example_store, INI.safe. apply map_Forall_singleton. split.
  - unfold INI.section_ok, no_line_break. split; by_compute.
  - apply map_Forall_insert_2; [ini_entry_ok|].
    apply map_Forall_singleton. ini_entry_ok.
Defined.

Lemma example_store_txt_safe : @TxtDBCache.safe Reference.builtins example_store.
Proof.
  unfold example_store, TxtDBCache.safe. apply map_Forall_singleton.
  apply map_Forall_insert_2; [txt_record_ok|].
  apply map_Forall_singleton. txt_record_ok.
Defined.

Lemma codec_round_trip_witness :
  @INI.parse Reference.builtins (@INI.stringify Reference.builtins example_store)
  = example_store
  /\ (forall T K,
        @Dicts.entry Reference.builtins
          (@TxtDBCache.init Reference.builtins
             (ReadData (@TxtDBCache.txtContent Reference.builtins example_store))
             (∅, [])).1 T K
        = @Dicts.entry Reference.builtins example_store T K).
Proof.
  split.
  - exact (proj1 (proj2 (@codec_round_trip Reference.builtins)
                    example_store example_store_ini_safe)).
  - exact (proj2 (proj1 (@codec_round_trip Reference.builtins)
                    example_store example_store_txt_safe)).
Defined.


(** The same file, whole: the middle line is skipped with one warning and
    the line after it is loaded. *)
Example record_log_text_skips_bad_line :
  @TxtDBCache.init Reference.builtins
    (ReadData
       (js "[" ++ dq ++ js "default" ++ dq ++ js "," ++ dq ++ js "k" ++ dq
        ++ js ",1]" ++ lf
        ++ js "{oops" ++ [13; 10]%N
        ++ js "[" ++ dq ++ js "default" ++ dq ++ js "," ++ dq ++ js "k" ++ dq
        ++ js ",42]" ++ lf))
    (∅, [])
  = ({[ js "default" := {[ js "k" := VNum 42 ]} ]}, [failed_to_parse_cache_line]).
Proof. vm_compute. reflexivity. Qed.

(** The middle line of [example_log] is skipped with one warning. *)
Example record_log_skips_bad_line :
  @TxtDBCache.init_lines Reference.builtins example_log (∅, [])
  = ({[ js "default" := {[ js "k" := VNum 42 ]} ]}, [failed_to_parse_cache_line]).
Proof. vm_compute. reflexivity. Qed.

(** Example 3 of the specification: three [set] calls to one key within a
    second give one write, of the third value. *)
Lemma debounce_coalesces_burst_witness :
  written (@TxtDBCache.advance Reference.builtins 1200
             (@TxtDBCache.run Reference.builtins
                ((0, @DebouncedFileStore.call_set Reference.builtins
                       (js "default") (js "k") (VNum 1)) :: example_burst)
                fresh)).2
  = [ js "[" ++ dq ++ js "default" ++ dq ++ js "," ++ dq ++ js "k" ++ dq
      ++ js ",3]" ++ lf ].
Proof.
  pose proof (proj2 (@debounce_coalesces_burst Reference.builtins) 0
                (@DebouncedFileStore.call_set Reference.builtins
                   (js "default") (js "k") (VNum 1))
                example_burst 1200 fresh) as Hb.
  destruct Hb as [(_ & Hw & _) _].
  - reflexivity.
  - by_compute.
  - unfold example_burst. simpl. lia.
  - by_compute.
  - rewrite Hw. vm_compute. reflexivity.
Defined.



(** The call for key [a] is rejected at time 5 and the other never
    settles: both entries are called, and the operation fails at time 5. *)
Lemma forEach_launches_all_and_fails_fast_witness :
  let entries := (@TxtDBCache.entries Reference.builtins (js "default") example_cache).1 in
  let run := @Cache.forEach Reference.builtins rejecting_callback entries 0 in
  Cache.calls run.1 = map (@Cache.swap Reference.builtins) entries
  /\ run.2 = Cache.Rejects 5 (js "boom").
Proof.
  cbv zeta. split.
  - refine (proj1 (proj1 (proj2
      (@forEach_launches_all_and_fails_fast Reference.builtins
         rejecting_callback 0)) _ _)).
    apply Forall_forall. intros [k v] _. unfold Cache.returns, rejecting_callback.
    simpl. case_decide; eauto.
  - vm_compute. reflexivity.
Defined.

(** C9, counterexample: the callback throws at its first call; the table
    has two entries and only one call is made. *)
Lemma forEach_stops_at_thrown_call :
  let entries := (@TxtDBCache.entries Reference.builtins (js "default") example_cache).1 in
  let run := @Cache.forEach Reference.builtins throwing_callback entries 0 in
  length entries = 2%nat
  /\ length (Cache.calls run.1) = 1%nat
  /\ Cache.calls run.1 ≠ map (@Cache.swap Reference.builtins) entries
  /\ run.2 = Cache.Rejects 0 (js "boom").
Proof.
  cbv zeta. split; [vm_compute; reflexivity|]. split; [vm_compute; reflexivity|].
  split; [|vm_compute; reflexivity].
  intros Heq. apply (f_equal length) in Heq. vm_compute in Heq. discriminate.
Qed.

(** Example 2 of the specification: the line [["default","k",42]] loads to
    [get("default","k") == 42], and the next flush writes one line for the
    key. *)
Example record_log_example2 :
  let line := js "[" ++ dq ++ js "default" ++ dq ++ js "," ++ dq ++ js "k" ++ dq
              ++ js ",42]" in
  let loaded := (@TxtDBCache.init Reference.builtins (ReadData line) (∅, [])).1 in
  (@Dicts.get Reference.builtins (js "default") (js "k") loaded).1 = VNum 42
  /\ @TxtDBCache.txtContent Reference.builtins loaded = line ++ lf.
Proof. vm_compute. split; reflexivity. Qed.

(** Example 4 of the specification: [get("anytable","missing")] is
    [undefined] on a fresh cache. *)
Example get_missing_example4 :
  (@TxtDBCache.get Reference.builtins (js "anytable") (js "missing") fresh).1
  = VUndefined.
Proof. vm_compute. reflexivity. Qed.

(** ** How the Store operations compose *)

Module StoreLaws.
Section WithBuiltins.
Context `{Builtins}.

Lemma lookup_set (name key : jstring) (v : val) (st : Store) :
  Dicts.set name key v st !! name = Some (<[key := v]> (default ∅ (st !! name))).
Proof. rewrite DictsFacts.set_eq. apply lookup_insert_eq. Qed.

Lemma lookup_set_ne (name key : jstring) (v : val) (st : Store) (n : jstring) :
  name ≠ n -> Dicts.set name key v st !! n = st !! n.
Proof. intros Hne. rewrite DictsFacts.set_eq. by apply lookup_insert_ne. Qed.

Lemma lookup_delete (name key : jstring) (st : Store) :
  Dicts.delete name key st !! name
  = Some (base.delete key (default ∅ (st !! name))).
Proof. rewrite DictsFacts.delete_eq. apply lookup_insert_eq. Qed.

Lemma set_set (name key : jstring) (v v' : val) (st : Store) :
  Dicts.set name key v (Dicts.set name key v' st) = Dicts.set name key v st.
Proof.
  rewrite (DictsFacts.set_eq name key v (Dicts.set name key v' st)).
  rewrite lookup_set. simpl. rewrite !DictsFacts.set_eq.
  by rewrite !insert_insert_eq.
Qed.

Lemma set_comm (T K : jstring) (V : val) (T' K' : jstring) (V' : val) (st : Store) :
  (T, K) ≠ (T', K') ->
  Dicts.set T K V (Dicts.set T' K' V' st) = Dicts.set T' K' V' (Dicts.set T K V st).
Proof.
  intros Hne.
  rewrite (DictsFacts.set_eq T K V (Dicts.set T' K' V' st)).
  rewrite (DictsFacts.set_eq T' K' V' (Dicts.set T K V st)).
  destruct (decide (T = T')) as [<-|HT].
  - rewrite lookup_set, lookup_set. simpl. rewrite !DictsFacts.set_eq.
    rewrite !insert_insert_eq. f_equal. apply insert_insert_ne. congruence.
  - rewrite lookup_set_ne by done. rewrite lookup_set_ne by done.
    rewrite !DictsFacts.set_eq. by apply insert_insert_ne.
Qed.

Lemma delete_set (name key : jstring) (v : val) (st : Store) :
  Dicts.delete name key (Dicts.set name key v st) = Dicts.delete name key st.
Proof.
  rewrite (DictsFacts.delete_eq name key (Dicts.set name key v st)).
  rewrite lookup_set. simpl. rewrite DictsFacts.set_eq, DictsFacts.delete_eq.
  rewrite insert_insert_eq. by rewrite delete_insert_eq.
Qed.

Lemma set_delete (name key : jstring) (v : val) (st : Store) :
  Dicts.set name key v (Dicts.delete name key st) = Dicts.set name key v st.
Proof.
  rewrite (DictsFacts.set_eq name key v (Dicts.delete name key st)).
  rewrite lookup_delete. simpl. rewrite DictsFacts.set_eq, DictsFacts.delete_eq.
  rewrite insert_insert_eq. by rewrite insert_delete_eq.
Qed.

Lemma delete_delete (name key : jstring) (st : Store) :
  Dicts.delete name key (Dicts.delete name key st) = Dicts.delete name key st.
Proof.
  rewrite (DictsFacts.delete_eq name key (Dicts.delete name key st)).
  rewrite lookup_delete. simpl. rewrite DictsFacts.delete_eq.
  rewrite insert_insert_eq. f_equal. apply delete_delete_eq.
Qed.

Lemma clear_insert (name : jstring) (t : Table) (st : Store) :
  Dicts.clear name (<[name := t]> st) = Dicts.clear name st.
Proof. unfold Dicts.clear, Delete. apply delete_insert_eq. Qed.

Lemma set_clear (name key : jstring) (v : val) (st : Store) :
  Dicts.set name key v (Dicts.clear name st) = <[name := {[ key := v ]}]> st.
Proof.
  rewrite DictsFacts.set_eq. unfold Dicts.clear, Delete.
  rewrite lookup_delete_eq. simpl. rewrite insert_delete_eq.
  reflexivity.
Qed.

Lemma delete_absent (name key : jstring) (t : Table) (st : Store) :
  st !! name = Some t -> t !! key = None -> Dicts.delete name key st = st.
Proof.
  intros Ht Hk. rewrite DictsFacts.delete_eq, Ht. simpl.
  rewrite delete_id by done. by apply insert_id.
Qed.

Lemma same_content_eq (a b : Store) : a = b -> Dicts.same_content a b.
Proof. by intros ->. Qed.

End WithBuiltins.
End StoreLaws.

Section StoreAlgebra.
Context `{Builtins}.

(** X1. On the Store, the last [set] to an entry wins and leaves no trace of
    the earlier one, and two [set] calls to different entries (another
    table, or another key of the same table) leave the same tables with the
    same entries in either order. *)
Theorem set_overwrites_and_commutes :
  (forall (T K : jstring) (V V' : val) (st : Store),
      Dicts.same_content
        (Dicts.set T K V (Dicts.set T K V' st)) (Dicts.set T K V st))
  /\ (forall (T K : jstring) (V : val) (T' K' : jstring) (V' : val) (st : Store),
      (T, K) ≠ (T', K') ->
      Dicts.same_content
        (Dicts.set T K V (Dicts.set T' K' V' st))
        (Dicts.set T' K' V' (Dicts.set T K V st))).
Proof.
  split.
  - intros. apply StoreLaws.same_content_eq, StoreLaws.set_set.
  - intros. by apply StoreLaws.same_content_eq, StoreLaws.set_comm.
Qed.

(** X2. [delete] and [clear] absorb what came before: in tables and
    entries, deleting an entry after setting it equals deleting it, a [set]
    after a [delete] equals the [set], clearing a table after a [set] or
    [delete] in it equals clearing it, and both are idempotent.  A [set]
    into a cleared table leaves that key alone in it.  Deleting a key the
    table does not hold changes nothing, but deleting from a table the Store
    does not hold creates the table, empty. *)
Theorem delete_and_clear_absorb :
  (forall (T K : jstring) (V : val) (st : Store),
      Dicts.same_content (Dicts.delete T K (Dicts.set T K V st)) (Dicts.delete T K st)
      /\ Dicts.same_content (Dicts.set T K V (Dicts.delete T K st)) (Dicts.set T K V st)
      /\ Dicts.same_content (Dicts.clear T (Dicts.set T K V st)) (Dicts.clear T st)
      /\ Dicts.same_content (Dicts.set T K V (Dicts.clear T st))
           (<[T := {[ K := V ]}]> st))
  /\ (forall (T K : jstring) (st : Store),
      Dicts.same_content (Dicts.delete T K (Dicts.delete T K st)) (Dicts.delete T K st)
      /\ Dicts.same_content (Dicts.clear T (Dicts.delete T K st)) (Dicts.clear T st)
      /\ Dicts.same_content (Dicts.clear T (Dicts.clear T st)) (Dicts.clear T st))
  /\ (forall (T K : jstring) (t : Table) (st : Store),
      st !! T = Some t -> t !! K = None -> Dicts.delete T K st = st)
  /\ (forall (T K : jstring) (st : Store),
      st !! T = None ->
      Dicts.delete T K st !! T = Some ∅
      /\ Dicts.same_content (Dicts.delete T K st) (<[T := ∅]> st)).
Proof.
  split; [|split; [|split]].
  - intros T K V st.
    split; [|split; [|split]]; apply StoreLaws.same_content_eq.
    + apply StoreLaws.delete_set.
    + apply StoreLaws.set_delete.
    + rewrite DictsFacts.set_eq. apply StoreLaws.clear_insert.
    + apply StoreLaws.set_clear.
  - intros T K st. split; [|split]; apply StoreLaws.same_content_eq.
    + apply StoreLaws.delete_delete.
    + rewrite DictsFacts.delete_eq. apply StoreLaws.clear_insert.
    + unfold Dicts.clear, Delete. apply delete_delete_eq.
  - intros T K t st. apply StoreLaws.delete_absent.
  - intros T K st Hn.
    assert (Heq : Dicts.delete T K st = <[T := ∅]> st).
    { rewrite DictsFacts.delete_eq, Hn. simpl. by rewrite delete_empty. }
    split; [|by apply StoreLaws.same_content_eq].
    rewrite Heq. apply lookup_insert_eq.
Qed.

End StoreAlgebra.

(** ** The reading operations *)

Module ReadFacts.
Section WithBuiltins.
Context `{Builtins}.

Lemma keys_snd (name : jstring) (st : Store) :
  (Dicts.keys name st).2 = (Dicts.table name st).2.
Proof. unfold Dicts.keys. by destruct (Dicts.table name st). Qed.

Lemma values_fst (name : jstring) (st : Store) :
  (Dicts.values name st).1 = (map_to_list (default ∅ (st !! name))).*2.
Proof.
  unfold Dicts.values. pose proof (DictsFacts.table_fst name st) as Ht.
  destruct (Dicts.table name st) as [t st1]. simpl in *. by subst t.
Qed.

Lemma values_snd (name : jstring) (st : Store) :
  (Dicts.values name st).2 = (Dicts.table name st).2.
Proof. unfold Dicts.values. by destruct (Dicts.table name st). Qed.

Lemma entries_snd (name : jstring) (st : Store) :
  (Dicts.entries name st).2 = (Dicts.table name st).2.
Proof. unfold Dicts.entries. by destruct (Dicts.table name st). Qed.

Import DebouncedFileStore.

Lemma get_touched (name key : jstring) (s : cache * host) :
  (DebouncedFileStore.get name key s).2 = touched name s.
Proof.
  destruct s as [c h]. unfold DebouncedFileStore.get, touched.
  pose proof (DictsFacts.get_snd name key (store c)) as Hs.
  destruct (Dicts.get name key (store c)) as [v st1]. simpl in *.
  by rewrite Hs, DictsFacts.table_snd.
Qed.

Lemma keys_touched (name : jstring) (s : cache * host) :
  (DebouncedFileStore.keys name s).2 = touched name s.
Proof.
  destruct s as [c h]. unfold DebouncedFileStore.keys, touched.
  pose proof (keys_snd name (store c)) as Hs.
  destruct (Dicts.keys name (store c)) as [l st1]. simpl in *.
  by rewrite Hs, DictsFacts.table_snd.
Qed.

Lemma values_touched (name : jstring) (s : cache * host) :
  (DebouncedFileStore.values name s).2 = touched name s.
Proof.
  destruct s as [c h]. unfold DebouncedFileStore.values, touched.
  pose proof (values_snd name (store c)) as Hs.
  destruct (Dicts.values name (store c)) as [l st1]. simpl in *.
  by rewrite Hs, DictsFacts.table_snd.
Qed.

Lemma entries_touched (name : jstring) (s : cache * host) :
  (DebouncedFileStore.entries name s).2 = touched name s.
Proof.
  destruct s as [c h]. unfold DebouncedFileStore.entries, touched.
  pose proof (entries_snd name (store c)) as Hs.
  destruct (Dicts.entries name (store c)) as [l st1]. simpl in *.
  by rewrite Hs, DictsFacts.table_snd.
Qed.

Lemma entry_touched (name : jstring) (s : cache * host) (n k : jstring) :
  Dicts.entry (store (touched name s).1) n k = Dicts.entry (store s.1) n k.
Proof.
  unfold touched. simpl. rewrite <- DictsFacts.table_snd.
  apply DictsFacts.entry_table.
Qed.

Lemma touched_existing (name : jstring) (s : cache * host) :
  is_Some (store s.1 !! name) -> touched name s = s.
Proof.
  destruct s as [[st db] h]. unfold touched. simpl. intros [t Ht].
  rewrite Ht. simpl. by rewrite insert_id.
Qed.

Lemma cache_keys_fst (name : jstring) (s : cache * host) :
  (DebouncedFileStore.keys name s).1
  = (map_to_list (default ∅ (store s.1 !! name))).*1.
Proof.
  destruct s as [c h]. unfold DebouncedFileStore.keys.
  pose proof (PrototypeFacts.keys_fst name (store c)) as Hs.
  destruct (Dicts.keys name (store c)) as [l st1]. simpl in *. done.
Qed.

Lemma cache_values_fst (name : jstring) (s : cache * host) :
  (DebouncedFileStore.values name s).1
  = (map_to_list (default ∅ (store s.1 !! name))).*2.
Proof.
  destruct s as [c h]. unfold DebouncedFileStore.values.
  pose proof (values_fst name (store c)) as Hs.
  destruct (Dicts.values name (store c)) as [l st1]. simpl in *. done.
Qed.

Lemma cache_entries_fst (name : jstring) (s : cache * host) :
  (DebouncedFileStore.entries name s).1
  = map_to_list (default ∅ (store s.1 !! name)).
Proof.
  destruct s as [c h]. unfold DebouncedFileStore.entries.
  pose proof (DictsFacts.entries_fst name (store c)) as Hs.
  destruct (Dicts.entries name (store c)) as [l st1]. simpl in *. done.
Qed.

Lemma elem_of_keys (name : jstring) (s : cache * host) (k : jstring) :
  k ∈ (DebouncedFileStore.keys name s).1
  <-> is_Some (Dicts.entry (store s.1) name k).
Proof.
  rewrite cache_keys_fst. unfold Dicts.entry.
  rewrite list_elem_of_fmap. split.
  - intros ([k' v] & -> & Hin). apply elem_of_map_to_list in Hin. simpl.
    destruct (store s.1 !! name); simpl in *; [by eexists|].
    by rewrite lookup_empty in Hin.
  - intros [v Hv]. exists (k, v). split; [done|].
    apply elem_of_map_to_list.
    destruct (store s.1 !! name); simpl in *; done.
Qed.

Lemma elem_of_values (name : jstring) (s : cache * host) (v : val) :
  v ∈ (DebouncedFileStore.values name s).1
  <-> exists k, Dicts.entry (store s.1) name k = Some v.
Proof.
  rewrite cache_values_fst. unfold Dicts.entry.
  rewrite list_elem_of_fmap. split.
  - intros ([k v'] & -> & Hin). apply elem_of_map_to_list in Hin. simpl.
    exists k. destruct (store s.1 !! name); simpl in *; [done|].
    by rewrite lookup_empty in Hin.
  - intros [k Hv]. exists (k, v). split; [done|].
    apply elem_of_map_to_list.
    destruct (store s.1 !! name); simpl in *; done.
Qed.

End WithBuiltins.
End ReadFacts.

Section Reads.
Context `{Builtins}.

(** X3. The four reading calls ([get], [keys], [values], [entries]) of a
    file-backed cache never schedule a flush and never touch the host (file,
    timers, log); they change no entry.  Their one effect is that the table
    they read exists afterwards: a table the Store already holds leaves the
    cache exactly as it was, an unknown one is created, empty. *)
Theorem reads_leave_no_trace (name key : jstring) (s : cache * host) :
  let s' := (CacheState (<[name := default ∅ (store s.1 !! name)]> (store s.1))
               (_debounce s.1), s.2) in
  ((TxtDBCache.get name key s).2 = s'
   /\ (TxtDBCache.keys name s).2 = s'
   /\ (TxtDBCache.values name s).2 = s'
   /\ (TxtDBCache.entries name s).2 = s')
  /\ ((IniDBCache.get name key s).2 = s'
      /\ (IniDBCache.keys name s).2 = s'
      /\ (IniDBCache.values name s).2 = s'
      /\ (IniDBCache.entries name s).2 = s')
  /\ (forall n k, Dicts.entry (store s'.1) n k = Dicts.entry (store s.1) n k)
  /\ (is_Some (store s.1 !! name) -> s' = s)
  /\ (store s.1 !! name = None -> store s'.1 = <[name := ∅]> (store s.1)).
Proof.
  simpl. repeat split;
    try apply ReadFacts.get_touched; try apply ReadFacts.keys_touched;
    try apply ReadFacts.values_touched; try apply ReadFacts.entries_touched.
  - intros n k. apply (ReadFacts.entry_touched name s).
  - apply (ReadFacts.touched_existing name s).
  - intros ->. reflexivity.
Qed.

(** X4. [keys], [values] and [entries] of a file-backed cache list the same
    table: the keys are the first components of the entries and the values
    the second, in the same order.  A key is listed exactly when the Store
    holds an entry for it, a value exactly when some key holds it; after
    [set] the key is listed, after [delete] it is not, and after [clear] the
    table lists nothing. *)
Theorem keys_values_agree_with_entries (name : jstring) (s : cache * host) :
  ((TxtDBCache.keys name s).1 = (TxtDBCache.entries name s).1.*1
   /\ (TxtDBCache.values name s).1 = (TxtDBCache.entries name s).1.*2
   /\ (IniDBCache.keys name s).1 = (IniDBCache.entries name s).1.*1
   /\ (IniDBCache.values name s).1 = (IniDBCache.entries name s).1.*2)
  /\ (forall k, k ∈ (TxtDBCache.keys name s).1
                <-> is_Some (Dicts.entry (store s.1) name k))
  /\ (forall v, v ∈ (TxtDBCache.values name s).1
                <-> exists k, Dicts.entry (store s.1) name k = Some v)
  /\ (forall k v, k ∈ (TxtDBCache.keys name (TxtDBCache.set name k v s)).1)
  /\ (forall k, k ∉ (TxtDBCache.keys name (TxtDBCache.delete name k s)).1)
  /\ (TxtDBCache.keys name (TxtDBCache.clear name s)).1 = []
  /\ (TxtDBCache.values name (TxtDBCache.clear name s)).1 = []
  /\ (TxtDBCache.entries name (TxtDBCache.clear name s)).1 = [].
Proof.
  unfold TxtDBCache.keys, TxtDBCache.values, TxtDBCache.entries,
    IniDBCache.keys, IniDBCache.values, IniDBCache.entries,
    TxtDBCache.set, TxtDBCache.delete, TxtDBCache.clear.
  split; [|split; [|split; [|split; [|split; [|split; [|split]]]]]].
  - rewrite ReadFacts.cache_keys_fst, ReadFacts.cache_values_fst,
      ReadFacts.cache_entries_fst. done.
  - apply ReadFacts.elem_of_keys.
  - apply ReadFacts.elem_of_values.
  - intros k v. apply ReadFacts.elem_of_keys.
    rewrite FileCacheFacts.set_store, DictsFacts.entry_set.
    rewrite decide_True by done. by eexists.
  - intros k Hin. apply ReadFacts.elem_of_keys in Hin.
    rewrite FileCacheFacts.delete_store, DictsFacts.entry_delete in Hin.
    rewrite decide_True in Hin by done. by destruct Hin.
  - rewrite ReadFacts.cache_keys_fst, FileCacheFacts.clear_store.
    unfold Dicts.clear, Delete. rewrite lookup_delete_eq. simpl.
    by rewrite map_to_list_empty.
  - rewrite ReadFacts.cache_values_fst, FileCacheFacts.clear_store.
    unfold Dicts.clear, Delete. rewrite lookup_delete_eq. simpl.
    by rewrite map_to_list_empty.
  - rewrite ReadFacts.cache_entries_fst, FileCacheFacts.clear_store.
    unfold Dicts.clear, Delete. rewrite lookup_delete_eq. simpl.
    by rewrite map_to_list_empty.
Qed.

End Reads.

(** ** Histories of a file-backed cache *)

(** Evaluate a filter over an explicit timer queue. *)
Ltac eval_filter :=
  repeat (progress (rewrite ?filter_cons, ?filter_nil; simpl;
                    repeat case_decide; simpl));
  try lia; try done.

Module HistoryFacts.
Section WithCodec.
Context `{Builtins}.
Variable serialize : Store -> jstring.
Variable load : read_result -> Store * list warning -> Store * list warning.

Import DebouncedFileStore.

Lemma serve_reading (q : request) (s : cache * host) :
  match q with
  | reading_get name _ | reading_keys name | reading_values name
  | reading_entries name => serve serialize load q s = touched name s
  | _ => True
  end.
Proof.
  destruct q; simpl; try done.
  - apply ReadFacts.get_touched.
  - apply ReadFacts.keys_touched.
  - apply ReadFacts.values_touched.
  - apply ReadFacts.entries_touched.
Qed.

Lemma tidy_touched (name : jstring) (s : cache * host) :
  tidy s -> tidy (touched name s).
Proof. by destruct s as [[st db] h]. Qed.

Lemma tidy_init_resumes (r : read_result) (s : cache * host) :
  tidy s -> tidy (init_resumes load r s).
Proof. by destruct s as [[st db] h]. Qed.

Lemma tidy_serve (q : request) (s : cache * host) :
  tidy s -> tidy (serve serialize load q s).
Proof.
  intros Ht. pose proof (serve_reading q s) as Hq.
  destruct q; try (rewrite Hq; by apply tidy_touched).
  - by apply DebounceFacts.tidy_call.
  - by apply tidy_init_resumes.
  - by apply DebounceFacts.tidy_dispose.
Qed.

Lemma tidy_occur (tq : Z * request) (s : cache * host) :
  tidy s -> tidy (occur serialize load s tq).
Proof.
  intros Ht. unfold occur. apply tidy_serve. by apply DebounceFacts.tidy_advance.
Qed.

Lemma tidy_history (l : list (Z * request)) (s : cache * host) :
  tidy s -> tidy (history serialize load l s).
Proof.
  revert s. induction l as [|tq l IH]; intros s Ht; [done|].
  simpl. apply IH. by apply tidy_occur.
Qed.

Lemma advance_step (t : Z) (s : cache * host) :
  tidy s ->
  (quiet s (advance serialize t s) /\ pending (advance serialize t s) = pending s)
  \/ flushed s (advance serialize t s).
Proof.
  destruct s as [[st db] h]. unfold tidy, advance, Host.due, Host.pass, quiet,
    flushed, pending. simpl.
  destruct db as [h0|].
  - intros (due & ->). destruct (decide (due <= t)).
    + right. eval_filter. split; [done|]. split; [done|].
      unfold Host.writeFile. simpl. destruct (writable h); simpl; by eexists.
    + left. eval_filter.
  - intros ->. left. done.
Qed.

Lemma serve_step (q : request) (s : cache * host) :
  tidy s ->
  (quiet s (serve serialize load q s)
   /\ (pending (serve serialize load q s)
       <= pending s + (if is_mutating q then 1 else 0))%nat)
  \/ flushed s (serve serialize load q s).
Proof.
  intros Ht. pose proof (serve_reading q s) as Hq.
  destruct q;
    try (rewrite Hq; left; destruct s as [[st db] h];
         split; [by split | unfold pending; simpl; lia]).
  - left. pose proof (DebounceFacts.call_spec m s) as (_ & Hd & _ & _ & Hf).
    simpl in *. destruct Hf as (Hf1 & _ & Hf3 & _). split; [by split|].
    unfold pending. rewrite Hd. lia.
  - left. destruct s as [[st db] h]. simpl. split; [by split|]. unfold pending.
    simpl. lia.
  - simpl. destruct s as [[st db] h]. destruct db as [h0|].
    + right. unfold flushed, pending, dispose, flush_starts,
        Host.writeFile_starts. simpl.
      split; [done|]. split; [done|]. by eexists.
    + left. unfold quiet, pending. simpl. split; [done | lia].
Qed.

Lemma within_quiet (n : nat) (s s' : cache * host) :
  quiet s s' -> (pending s' <= pending s + n)%nat -> within n s s'.
Proof.
  intros [Hw Hf] Hp. unfold within. rewrite Hw. split; [done|]. split; [lia | done].
Qed.

Lemma within_flushed (n : nat) (s s' : cache * host) :
  flushed s s' -> within n s s'.
Proof.
  intros (Hp & Hp' & content & Hw). unfold within. rewrite Hw, length_app. simpl.
  split; [by apply prefix_app_r|]. split; [lia|].
  intros Heq. apply (f_equal length) in Heq. rewrite length_app in Heq.
  simpl in Heq. lia.
Qed.

Lemma within_trans (n m : nat) (s1 s2 s3 : cache * host) :
  within n s1 s2 -> within m s2 s3 -> within (n + m) s1 s3.
Proof.
  intros (Hp1 & Hb1 & Hf1) (Hp2 & Hb2 & Hf2). unfold within.
  split; [by etrans|]. split; [lia|].
  intros Heq.
  assert (Hl1 : (length (written s1.2) <= length (written s2.2))%nat)
    by by apply prefix_length.
  assert (Hl2 : (length (written s2.2) <= length (written s3.2))%nat)
    by by apply prefix_length.
  assert (E12 : written s2.2 = written s1.2).
  { symmetry. apply prefix_length_eq; [done|]. rewrite Heq in Hl2. lia. }
  assert (E23 : written s3.2 = written s2.2) by congruence.
  rewrite Hf2, Hf1; done.
Qed.

Lemma within_advance (t : Z) (s : cache * host) :
  tidy s -> within 0 s (advance serialize t s).
Proof.
  intros Ht. destruct (advance_step t s Ht) as [[Hq Hp]|Hf].
  - apply within_quiet; [done | lia].
  - by apply within_flushed.
Qed.

Lemma within_serve (q : request) (s : cache * host) :
  tidy s ->
  within (if is_mutating q then 1 else 0) s (serve serialize load q s).
Proof.
  intros Ht. destruct (serve_step q s Ht) as [[Hq Hp]|Hf].
  - by apply within_quiet.
  - by apply within_flushed.
Qed.

Lemma mutations_cons (tq : Z * request) (l : list (Z * request)) :
  mutations (tq :: l) = ((if is_mutating tq.2 then 1 else 0) + mutations l)%nat.
Proof.
  unfold mutations. rewrite filter_cons.
  case_decide as E.
  - by rewrite E.
  - destruct (is_mutating tq.2); [congruence | reflexivity].
Qed.

Lemma within_history (l : list (Z * request)) (s : cache * host) :
  tidy s -> within (mutations l) s (history serialize load l s).
Proof.
  revert s. induction l as [|tq l IH]; intros s Ht.
  - simpl. unfold within, mutations. simpl. split; [done|]. split; [lia | done].
  - simpl. rewrite mutations_cons.
    apply (within_trans _ _ s (occur serialize load s tq)).
    + unfold occur.
      apply (within_trans 0 _ s (advance serialize tq.1 s)).
      * by apply within_advance.
      * apply within_serve. by apply DebounceFacts.tidy_advance.
    + apply IH. by apply tidy_occur.
Qed.

(** The clock after the event loop has reached [t]. *)
Lemma flush_now (s : cache * host) : now (flush serialize s).2 = now s.2.
Proof.
  destruct s as [c h]. unfold flush, Host.writeFile. simpl.
  by destruct (writable h).
Qed.

Lemma advance_now (t : Z) (s : cache * host) :
  now (advance serialize t s).2 = Z.max (now s.2) t.
Proof.
  destruct s as [c h]. unfold advance.
  generalize (Host.due t h). intros l.
  assert (Hg : forall s0 : cache * host,
             now (foldl (fun s' (_ : nat * Z) => flush serialize s') s0 l).2
             = now s0.2).
  { induction l as [|x l IH]; intros s0; [done|]. simpl. rewrite IH.
    apply flush_now. }
  rewrite Hg. reflexivity.
Qed.

(** Reaching a time the clock has passed, with nothing due, changes
    nothing. *)
Lemma advance_again (t : Z) (s : cache * host) :
  coherent t s -> t <= now s.2 -> advance serialize t s = s.
Proof.
  intros Hc Hn. destruct (DebounceFacts.advance_not_due serialize t s Hc) as [Ha Ht].
  rewrite Ha. destruct s as [c h]. f_equal. simpl in *.
  unfold Host.pass in *. simpl in *. rewrite Ht.
  rewrite Z.max_l by lia. by destruct h.
Qed.

(** A burst that starts in any tidy state, then the delay. *)
Lemma burst_from_tidy (calls : list (Z * mutation)) (t1 : Z) (m1 : mutation)
    (t_end : Z) (s : cache * host) :
  tidy s -> now s.2 <= t1 ->
  burst t1 calls ->
  last_time t1 calls + 1000 <= t_end ->
  let s0 := advance serialize t1 s in
  let final := foldl store_after (store s.1) (m1 :: calls.*2) in
  let s' := advance serialize t_end (run serialize ((t1, m1) :: calls) s) in
  store s'.1 = final
  /\ _debounce s'.1 = None
  /\ timers s'.2 = []
  /\ written s'.2 = written s0.2 ++ [serialize final]
  /\ (writable s.2 = true -> file s'.2 = Some (serialize final)).
Proof.
  intros Ht Hn Hb Hend s0 final.
  assert (Hc : coherent t1 s0) by by apply DebounceFacts.tidy_coherent.
  assert (Hn0 : now s0.2 = t1).
  { unfold s0. rewrite advance_now. lia. }
  assert (Hrun : run serialize ((t1, m1) :: calls) s
                 = run serialize ((t1, m1) :: calls) s0).
  { unfold run. simpl. unfold arrive at 2 4. simpl. fold s0.
    rewrite (advance_again t1 s0) by (done || lia). reflexivity. }
  assert (Hst : store s0.1 = store s.1).
  { unfold s0. destruct s as [c h]. unfold advance.
    generalize (Host.due t1 h). intros l.
    assert (Hg : forall s1 : cache * host,
               store (foldl (fun s' (_ : nat * Z) => flush serialize s') s1 l).1
               = store s1.1).
    { induction l as [|x l IH]; intros s1; [done|]. simpl. rewrite IH.
      by destruct s1. }
    by rewrite Hg. }
  assert (Hwr : writable s0.2 = writable s.2).
  { unfold s0. destruct s as [c h]. unfold advance.
    generalize (Host.due t1 h). intros l.
    assert (Hg : forall s1 : cache * host,
               writable (foldl (fun s' (_ : nat * Z) => flush serialize s') s1 l).2
               = writable s1.2).
    { induction l as [|x l IH]; intros s1; [done|]. simpl. rewrite IH.
      destruct s1 as [c1 h1]. unfold flush, Host.writeFile. simpl.
      by destruct (writable h1). }
    by rewrite Hg. }
  pose proof (DebounceFacts.burst_one_flush serialize calls t1 m1 t_end s0 Hc
                ltac:(lia) Hb Hend) as (_ & H1 & H2 & H3 & H4 & H5).
  intros s'. subst s'. rewrite Hrun. subst final. rewrite <- Hst.
  repeat split; try assumption. intros Hw. apply H5. congruence.
Qed.

End WithCodec.
End HistoryFacts.

Section Histories.
Context `{Builtins}.
Variable serialize : Store -> jstring.
Variable load : read_result -> Store * list warning -> Store * list warning.
Import DebouncedFileStore.

(** X5. Timers never stack.  Whatever a file-backed cache is asked, at
    whatever times (mutating and reading calls, the completion of [init],
    the [dispose] event, the event loop running what is due), the timer
    queue holds at most one timer, and it holds one exactly when
    [_debounce] holds its handle.  The cache starts in such a state. *)
Theorem timers_never_stack (l : list (Z * request)) (s : cache * host) :
  tidy s ->
  let s' := history serialize load l s in
  match _debounce s'.1 with
  | None => timers s'.2 = []
  | Some handle => exists due, timers s'.2 = [(handle, due)]
  end.
Proof. intros Ht. by apply (HistoryFacts.tidy_history serialize load). Qed.

(** X6. Flushes never outnumber mutating calls.  Along any history the
    list of file writes only grows, and the writes made plus the flush still
    pending are at most the mutating calls made (plus the flush that was
    pending at the start).  In particular a cache with no flush pending that
    is only read, loaded or disposed never writes: the file stays as it
    was. *)
Theorem flushes_bounded_by_mutations (l : list (Z * request)) (s : cache * host) :
  tidy s ->
  let s' := history serialize load l s in
  written s.2 `prefix_of` written s'.2
  /\ (length (written s'.2) + pending s'
      <= length (written s.2) + pending s + mutations l)%nat
  /\ (mutations l = 0%nat -> pending s = 0%nat ->
      written s'.2 = written s.2 /\ file s'.2 = file s.2).
Proof.
  intros Ht s'.
  destruct (HistoryFacts.within_history serialize load l s Ht) as (Hp & Hb & Hf).
  fold s' in Hp, Hb, Hf. split; [done|]. split; [done|].
  intros Hm Hp0.
  assert (Hw : written s'.2 = written s.2).
  { symmetry. apply prefix_length_eq; [done | lia]. }
  split; [done | by apply Hf].
Qed.

(** X7. No mutation is lost to the debounce.  From any state in which
    timers do not stack (every state a cache reaches, by X5), a burst of
    mutating calls less than 1000 ms apart followed by 1000 ms of quiet ends
    with no timer pending and with the serialization of the current Store as
    the last write, which the file holds when the write succeeds.  Before
    the burst at most the flush that was already pending is written. *)
Theorem mutation_is_eventually_flushed (t1 : Z) (m1 : mutation)
    (calls : list (Z * mutation)) (t_end : Z) (s : cache * host) :
  tidy s -> now s.2 <= t1 ->
  burst t1 calls ->
  last_time t1 calls + 1000 <= t_end ->
  let final := foldl store_after (store s.1) (m1 :: calls.*2) in
  let s' := advance serialize t_end (run serialize ((t1, m1) :: calls) s) in
  store s'.1 = final
  /\ _debounce s'.1 = None
  /\ timers s'.2 = []
  /\ last (written s'.2) = Some (serialize final)
  /\ (length (written s'.2) <= length (written s.2) + pending s + 1)%nat
  /\ (writable s.2 = true -> file s'.2 = Some (serialize final)).
Proof.
  intros Ht Hn Hb Hend final s'.
  destruct (HistoryFacts.burst_from_tidy serialize calls t1 m1 t_end s Ht Hn Hb Hend)
    as (H1 & H2 & H3 & H4 & H5).
  fold final in H1, H4, H5. fold s' in H1, H2, H3, H4, H5.
  repeat split; try assumption.
  - rewrite H4. apply last_snoc.
  - rewrite H4, length_app. simpl.
    destruct (HistoryFacts.advance_step serialize t1 s Ht)
      as [[[Hw _] _]|(Hp & _ & content & Hw)];
      rewrite Hw; [lia|]. rewrite length_app. simpl. lia.
Qed.

End Histories.

(** ** Loading: [init] against the Store it finds *)

Module InitFacts.
Section WithBuiltins.
Context `{Builtins}.


Lemma init_line_keeps (T K : jstring) (line : jstring) (st : Store * list warning) :
  is_Some (Dicts.entry st.1 T K) ->
  is_Some (Dicts.entry (TxtDBCache.init_line st line).1 T K).
Proof.
  intros Hs. unfold TxtDBCache.init_line.
  destruct line as [|c line]; [done|].
  destruct (JSON_parse (c :: line)) as [x|]; [|done].
  destruct (destructure3 x) as [[[t k] v]|]; [|done].
  cbn [fst snd]. rewrite DictsFacts.entry_set. by case_decide.
Qed.

Lemma init_lines_keeps (T K : jstring) (ls : list jstring)
    (st : Store * list warning) :
  is_Some (Dicts.entry st.1 T K) ->
  is_Some (Dicts.entry (TxtDBCache.init_lines ls st).1 T K).
Proof.
  revert st. induction ls as [|l ls IH]; intros st Hs; [done|].
  rewrite TxtFacts.init_lines_cons. apply IH. by apply init_line_keeps.
Qed.

Lemma init_line_warnings (line : jstring) (st : Store * list warning) :
  st.2 `prefix_of` (TxtDBCache.init_line st line).2.
Proof.
  unfold TxtDBCache.init_line.
  destruct line as [|c line]; [done|].
  destruct (JSON_parse (c :: line)) as [x|]; [|by apply prefix_app_r].
  destruct (destructure3 x) as [[[t k] v]|]; [done | by apply prefix_app_r].
Qed.

Lemma init_lines_warnings (ls : list jstring) (st : Store * list warning) :
  st.2 `prefix_of` (TxtDBCache.init_lines ls st).2.
Proof.
  revert st. induction ls as [|l ls IH]; intros st; [done|].
  rewrite TxtFacts.init_lines_cons. etrans; [apply init_line_warnings | apply IH].
Qed.

Lemma txt_init_data (data : jstring) (st : Store * list warning) :
  TxtDBCache.init (ReadData data) st
  = match data with
    | [] => st
    | _ :: _ => TxtDBCache.init_lines (split_lines data) st
    end.
Proof. by destruct data. Qed.

Lemma txt_init_error (code : jstring) (st : Store * list warning) :
  TxtDBCache.init (ReadError code) st
  = if decide (code = js "ENOENT") then st
    else (st.1, st.2 ++ [failed_to_read_cache_file]).
Proof. reflexivity. Qed.

Lemma get_init_resumes
    (load : read_result -> Store * list warning -> Store * list warning)
    (r : read_result) (s : cache * host) (T K : jstring) :
  (DebouncedFileStore.get T K (DebouncedFileStore.init_resumes load r s)).1
  = default VUndefined (Dicts.entry (load r (store s.1, warnings s.2)).1 T K).
Proof. rewrite FileCacheFacts.get_value. by destruct s as [[st db] h]. Qed.

End WithBuiltins.
End InitFacts.

Section Loading.
Context `{Builtins}.


(** X9. Loading the record log never removes an entry.  [init] of
    [TxtDBCache] assigns into the Store it finds: an entry the Store holds
    is still held afterwards, an entry no line of the file assigns keeps its
    value, and the log only grows.  As the constructor does not await
    [init], a [set] made before the load completes survives it unless the
    file assigns the same key, in which case the file wins.  A failed read
    leaves the Store alone, silently when the file does not exist and with
    one warning otherwise. *)
Theorem txt_init_keeps_existing_entries (r : read_result)
    (st : Store * list warning) :
  (forall T K, is_Some (Dicts.entry st.1 T K) ->
               is_Some (Dicts.entry (TxtDBCache.init r st).1 T K))
  /\ (forall T K data,
        r = ReadData data ->
        Forall (fun l => ¬ TxtDBCache.assigns T K l) (split_lines data) ->
        Dicts.entry (TxtDBCache.init r st).1 T K = Dicts.entry st.1 T K)
  /\ st.2 `prefix_of` (TxtDBCache.init r st).2
  /\ (forall (s : cache * host) T K V data,
        r = ReadData data ->
        Forall (fun l => ¬ TxtDBCache.assigns T K l) (split_lines data) ->
        (TxtDBCache.get T K
           (TxtDBCache.init_resumes r (TxtDBCache.set T K V s))).1 = V)
  /\ (forall code,
        r = ReadError code ->
        TxtDBCache.init r st
        = if decide (code = js "ENOENT") then st
          else (st.1, st.2 ++ [failed_to_read_cache_file])).
Proof.
  split; [|split; [|split; [|split]]].
  - intros T K Hs. destruct r as [data|code].
    + rewrite InitFacts.txt_init_data. destruct data; [done|].
      by apply InitFacts.init_lines_keeps.
    + rewrite InitFacts.txt_init_error. by case_decide.
  - intros T K data -> Hno. rewrite InitFacts.txt_init_data.
    destruct data; [done|]. by apply TxtFacts.init_lines_other.
  - destruct r as [data|code].
    + rewrite InitFacts.txt_init_data. destruct data; [done|].
      apply InitFacts.init_lines_warnings.
    + rewrite InitFacts.txt_init_error. case_decide; [done|].
      by apply prefix_app_r.
  - intros s T K V data -> Hno.
    unfold TxtDBCache.get, TxtDBCache.init_resumes, TxtDBCache.set.
    rewrite InitFacts.get_init_resumes, InitFacts.txt_init_data.
    rewrite FileCacheFacts.set_store.
    destruct data.
    + cbn [fst]. rewrite DictsFacts.entry_set. by rewrite decide_True.
    + rewrite TxtFacts.init_lines_other by done. cbn [fst].
      rewrite DictsFacts.entry_set. by rewrite decide_True.
  - intros code ->. apply InitFacts.txt_init_error.
Qed.

(** X10. Loading the section file replaces the Store.  [init] of
    [IniDBCache] assigns [INI.parse(data)] to [this.store] when the file is
    not empty; as the constructor does not await it, a [set] made before the
    load completes is discarded: afterwards the Store is what the file
    holds, [get] answers from the file, and the flush that the [set]
    scheduled, still pending, writes the file's content back.  An empty
    file or a failed read leaves the Store as the [set] left it. *)
Theorem ini_init_discards_earlier_writes (data : jstring) (s : cache * host)
    (T K : jstring) (V : val) :
  data ≠ [] ->
  let s1 := IniDBCache.set T K V s in
  let s2 := IniDBCache.init_resumes (ReadData data) s1 in
  store s2.1 = INI.parse data
  /\ (IniDBCache.get T K s2).1
     = default VUndefined (Dicts.entry (INI.parse data) T K)
  /\ _debounce s2.1 = _debounce s1.1
  /\ timers s2.2 = timers s1.2
  /\ written (IniDBCache.dispose s2).2
     = written s.2 ++ [INI.stringify (INI.parse data)]
  /\ (forall r, r = ReadData [] \/ (exists code, r = ReadError code) ->
      store (IniDBCache.init_resumes r s1).1 = store s1.1
      /\ (IniDBCache.get T K (IniDBCache.init_resumes r s1)).1 = V).
Proof.
  intros Hne s1 s2.
  assert (Hst : store s2.1 = INI.parse data).
  { subst s2. unfold IniDBCache.init_resumes, DebouncedFileStore.init_resumes.
    destruct s1 as [[st db] h]. cbn [fst snd store]. unfold IniDBCache.init.
    by destruct data. }
  assert (Hdb : _debounce s2.1 = _debounce s1.1 /\ timers s2.2 = timers s1.2
                /\ written s2.2 = written s1.2).
  { subst s2. unfold IniDBCache.init_resumes, DebouncedFileStore.init_resumes.
    by destruct s1 as [[st db] h]. }
  destruct Hdb as (Hdb & Htm & Hwr).
  pose proof (DebounceFacts.call_spec (DebouncedFileStore.call_set T K V) s)
    as (Hs1 & Hd1 & _ & _ & (_ & _ & Hw1 & _)).
  change (DebouncedFileStore.call (DebouncedFileStore.call_set T K V) s)
    with s1 in Hs1, Hd1, Hw1.
  split; [exact Hst|]. split.
  { unfold IniDBCache.get. rewrite FileCacheFacts.get_value. by rewrite Hst. }
  split; [exact Hdb|]. split; [exact Htm|]. split.
  { pose proof (DebounceFacts.dispose_pending INI.stringify s2 (next_timer s.2)
                  ltac:(congruence)) as (_ & _ & _ & Hw & _).
    unfold IniDBCache.dispose. rewrite Hw, Hst, Hwr, Hw1. done. }
  intros r Hr.
  assert (Hkeep : (IniDBCache.init r (store s1.1, warnings s1.2)).1
                  = store s1.1).
  { destruct Hr as [->|[code ->]]; [done|].
    unfold IniDBCache.init. by case_decide. }
  assert (Hst' : store (IniDBCache.init_resumes r s1).1 = store s1.1).
  { unfold IniDBCache.init_resumes, DebouncedFileStore.init_resumes.
    destruct s1 as [[st db] h]. cbn [fst snd store] in *. exact Hkeep. }
  split; [exact Hst'|].
  unfold IniDBCache.get. rewrite FileCacheFacts.get_value, Hst', Hs1.
  cbn [DebouncedFileStore.store_after]. rewrite DictsFacts.entry_set.
  by rewrite decide_True.
Qed.

End Loading.

(** ** More on the string functions *)

Module StringLaws.
Import StringFacts.

Lemma trimStart_idem (s : jstring) : trimStart (trimStart s) = trimStart s.
Proof.
  induction s as [|c s IH]; [done|]. simpl.
  destruct (isWhiteSpace c) eqn:Hc; [done|]. simpl. by rewrite Hc.
Qed.

Lemma trimStart_head (s : jstring) (c : N) (r : jstring) :
  trimStart s = c :: r -> isWhiteSpace c = false.
Proof.
  induction s as [|d s IH]; [done|]. simpl.
  destruct (isWhiteSpace d) eqn:Hd; [done|]. by intros [= <- _].
Qed.

Lemma trimStart_app_keep (l : jstring) (c : N) (r : jstring) :
  isWhiteSpace c = false -> trimStart (l ++ c :: r) = trimStart l ++ c :: r.
Proof.
  intros Hc. induction l as [|a l IH]; simpl; [by rewrite Hc|].
  by destruct (isWhiteSpace a).
Qed.

Lemma trimEnd_cons_keep (c : N) (x : jstring) :
  isWhiteSpace c = false -> trimEnd (c :: x) = c :: trimEnd x.
Proof.
  intros Hc. unfold trimEnd. simpl. rewrite trimStart_app_keep by done.
  by rewrite rev_app_distr.
Qed.

Lemma trimEnd_idem (s : jstring) : trimEnd (trimEnd s) = trimEnd s.
Proof. unfold trimEnd. by rewrite rev_involutive, trimStart_idem. Qed.

(** [trim] is idempotent. *)
Lemma trim_idem (s : jstring) : trim (trim s) = trim s.
Proof.
  unfold trim. destruct (trimStart s) as [|c x] eqn:E; [done|].
  pose proof (trimStart_head s c x E) as Hc.
  rewrite trimEnd_cons_keep by done. rewrite trimStart_keep by done.
  rewrite <- trimEnd_cons_keep by done. apply trimEnd_idem.
Qed.

Lemma Forall_trimStart (P : N -> Prop) (s : jstring) :
  Forall P s -> Forall P (trimStart s).
Proof.
  induction 1 as [|c s Hc Hs IH]; [done|]. simpl.
  destruct (isWhiteSpace c); [done | by constructor].
Qed.

Lemma Forall_trim (P : N -> Prop) (s : jstring) :
  Forall P s -> Forall P (trim s).
Proof.
  intros Hs. unfold trim, trimEnd.
  apply Forall_rev, Forall_trimStart, Forall_rev. by apply Forall_trimStart.
Qed.

Lemma Forall_slice (P : N -> Prop) (a b : Z) (s : jstring) :
  Forall P s -> Forall P (slice a b s).
Proof. intros Hs. unfold slice. by apply Forall_take, Forall_drop. Qed.

Lemma Forall_slice_from (P : N -> Prop) (a : Z) (s : jstring) :
  Forall P s -> Forall P (slice_from a s).
Proof. apply Forall_slice. Qed.

Lemma not_elem_of_Forall (c : N) (s : jstring) :
  c ∉ s <-> Forall (fun x => x ≠ c) s.
Proof.
  rewrite Forall_forall. split.
  - intros Hn x Hin ->. by apply Hn.
  - intros Hf Hin. by apply (Hf c Hin).
Qed.

Lemma not_elem_of_trim (c : N) (s : jstring) : c ∉ s -> c ∉ trim s.
Proof. rewrite !not_elem_of_Forall. apply Forall_trim. Qed.

(** The first occurrence of a code unit. *)
Lemma first_occurrence (c : N) (s : jstring) :
  c ∈ s -> exists k rest, s = k ++ c :: rest /\ c ∉ k.
Proof.
  induction s as [|d s IH]; [by intros ?%elem_of_nil|].
  intros Hin. destruct (decide (c = d)) as [->|Hne].
  - exists [], s. split; [done | apply not_elem_of_nil].
  - apply elem_of_cons in Hin as [?|Hin]; [done|].
    destruct (IH Hin) as (k & rest & -> & Hk).
    exists (d :: k), rest. split; [done|].
    by apply not_elem_of_cons.
Qed.

Lemma includes_occurrence (c : N) (s : jstring) :
  includes [c] s = true -> exists k rest, s = k ++ c :: rest /\ c ∉ k.
Proof.
  intros Hi. apply first_occurrence.
  destruct (decide (c ∈ s)) as [|Hn]; [done|].
  rewrite includes_none in Hi by done. discriminate.
Qed.

(** The text before the first occurrence, as [slice] gives it. *)
Lemma slice_before (c : N) (k rest : jstring) :
  c ∉ k -> slice 0 (indexOf [c] (k ++ c :: rest)) (k ++ c :: rest) = k.
Proof.
  intros Hk. rewrite indexOf_first by done.
  rewrite slice_prefix by (rewrite length_app; lia).
  by rewrite take_app_length.
Qed.

(** The pieces [split] returns hold no line break. *)
Lemma split_go_no_line_break (sep : bool) (s : jstring) :
  Forall no_line_break (split_go sep s).
Proof.
  revert sep. induction s as [|c s IH]; intros sep; simpl.
  - repeat constructor.
  - destruct (isLineBreak c) eqn:Hc.
    + destruct sep; [apply IH|]. constructor; [constructor | apply IH].
    + specialize (IH false). destruct (split_go false s) as [|l ls].
      * repeat constructor. done.
      * inversion IH; subst. constructor; [by constructor | done].
Qed.

Lemma split_lines_no_line_break (s : jstring) :
  Forall no_line_break (split_lines s).
Proof. apply split_go_no_line_break. Qed.

End StringLaws.

(** ** [INI.parse] on arbitrary text *)

Module ParseLaws.
Section WithBuiltins.
Context `{Builtins}.
Import StringFacts StringLaws.

(** The state of the loop of [parse]: the result so far is well formed and
    the selected section has no line break. *)
Lemma parse_line_parsed (st : Store * option jstring) (line : jstring) :
  no_line_break line ->
  INI.parsed st.1 /\ (forall sec, st.2 = Some sec -> no_line_break sec) ->
  INI.parsed (INI.parse_line st line).1
  /\ (forall sec, (INI.parse_line st line).2 = Some sec -> no_line_break sec).
Proof.
  intros Hl [Hres Hcur]. destruct st as [res cur]. cbn [fst snd] in *.
  unfold INI.parse_line.
  assert (Ht : no_line_break (trim line)) by by apply Forall_trim.
  destruct (startsWith (js "[") (trim line) && endsWith (js "]") (trim line)).
  - assert (Hsec : no_line_break (slice 1 (-1) (trim line)))
      by by apply Forall_slice.
    cbn [fst snd]. split; [|by intros sec [= <-]].
    unfold Dicts.store_proto, Object_create_null, Get, Put.
    destruct (res !! slice 1 (-1) (trim line)) eqn:E; [done|].
    apply map_Forall_insert_2; [|done].
    split; [done|]. split; [done | apply map_Forall_empty].
  - destruct (INI.truthy cur && includes (js "=") (trim line)) eqn:Hk;
      [|by split].
    apply andb_true_iff in Hk as [Hc Hi].
    destruct cur as [[|c sec]|]; try discriminate.
    cbn [fst snd default from_option id].
    split; [|done].
    unfold Dicts.store_proto, Dicts.table_proto, Object_create_null, Get, Put.
    change (js "=") with [61%N] in *.
    destruct (includes_occurrence 61 (trim line) Hi) as (k & rest & Hsplit & Hk).
    apply map_Forall_insert_2.
    + split; [by apply Hcur|]. split; [done|].
      apply map_Forall_insert_2.
      * split.
        -- split; [by apply Forall_trim, Forall_slice|]. split.
           ++ rewrite Hsplit, slice_before by done. by apply not_elem_of_trim.
           ++ apply trim_idem.
        -- eexists. split; [apply trim_idem|]. reflexivity.
      * destruct (res !! (c :: sec)) as [t|] eqn:E; simpl.
        -- by destruct (Hres _ _ E) as (_ & _ & ?).
        -- apply map_Forall_empty.
    + done.
Qed.

Lemma parse_lines_parsed (lines : list jstring) (st : Store * option jstring) :
  Forall no_line_break lines ->
  INI.parsed st.1 /\ (forall sec, st.2 = Some sec -> no_line_break sec) ->
  INI.parsed (INI.parse_lines lines st).1.
Proof.
  revert st. induction lines as [|l lines IH]; intros st Hl Hst.
  - by destruct Hst.
  - inversion Hl; subst. unfold INI.parse_lines. simpl. apply IH; [done|].
    by apply parse_line_parsed.
Qed.

Lemma parse_parsed (text : jstring) : INI.parsed (INI.parse text).
Proof.
  unfold INI.parse. apply parse_lines_parsed.
  - apply split_lines_no_line_break.
  - split; [apply map_Forall_empty | done].
Qed.

(** Which tables a line adds. *)
Lemma lookup_parse_line (st : Store * option jstring) (line T : jstring) :
  INI.section_exists st ->
  is_Some ((INI.parse_line st line).1 !! T)
  <-> is_Some (st.1 !! T) \/ (INI.is_header line = true /\ INI.section_of line = T).
Proof.
  intros Hex. destruct st as [res cur]. unfold INI.section_exists in Hex.
  cbn [fst snd] in *. unfold INI.parse_line, INI.is_header, INI.section_of.
  destruct (startsWith (js "[") (trim line) && endsWith (js "]") (trim line)).
  - cbn [fst]. unfold Dicts.store_proto, Object_create_null, Get, Put.
    destruct (res !! slice 1 (-1) (trim line)) eqn:E.
    + split; [by left|]. intros [?|[_ <-]]; [done|]. by rewrite E.
    + destruct (decide (slice 1 (-1) (trim line) = T)) as [<-|Hne].
      * rewrite lookup_insert_eq. split; [by right | by eexists].
      * rewrite lookup_insert_ne by done. split; [by left|].
        by intros [?|[_ ?]].
  - destruct (INI.truthy cur && includes (js "=") (trim line)) eqn:Hk.
    + apply andb_true_iff in Hk as [Hc Hi].
      destruct cur as [[|c sec]|]; try discriminate.
      cbn [fst default from_option id].
      destruct (decide (c :: sec = T)) as [<-|Hne].
      * rewrite lookup_insert_eq. split; [|by eexists].
        intros _. left. by apply Hex.
      * rewrite lookup_insert_ne by done. split; [by left|].
        by intros [?|[? _]].
    + cbn [fst]. split; [by left|]. by intros [?|[? _]].
Qed.

Lemma lookup_parse_lines (lines : list jstring) (st : Store * option jstring)
    (T : jstring) :
  INI.section_exists st ->
  is_Some ((INI.parse_lines lines st).1 !! T)
  <-> is_Some (st.1 !! T)
      \/ exists line, line ∈ lines /\ INI.is_header line = true
                      /\ INI.section_of line = T.
Proof.
  revert st. induction lines as [|l lines IH]; intros st Hex.
  - simpl. split; [by left|]. intros [?|(line & Hin & _)]; [done|].
    by apply elem_of_nil in Hin.
  - unfold INI.parse_lines. simpl.
    fold (INI.parse_lines lines (INI.parse_line st l)).
    rewrite IH by by apply ParserFacts.parse_line_section_exists.
    rewrite lookup_parse_line by done. split.
    + intros [[?|[Hh Hs]]|(line & Hin & Hh & Hs)].
      * by left.
      * right. exists l. split; [apply list_elem_of_here | done].
      * right. exists line. split; [by apply list_elem_of_further | done].
    + intros [?|(line & Hin & Hh & Hs)]; [by left; left|].
      apply elem_of_cons in Hin as [->|Hin].
      * left. by right.
      * right. by exists line.
Qed.

End WithBuiltins.
End ParseLaws.

Section ParseAnyText.
Context `{Builtins}.

(** X11. Whatever text it is given, [INI.parse] returns a well-formed
    Store: no table name holds a line break; every key it stores is under a
    table whose name is not empty, holds no line break and no [=] sign, and
    has no white space at either end; every value is the JSON value of a
    trimmed text, or that text itself as a string when it is not JSON. *)
Theorem parse_result_is_well_formed (text : jstring) :
  (forall T t, INI.parse text !! T = Some t -> no_line_break T)
  /\ (forall T t K v,
        INI.parse text !! T = Some t -> t !! K = Some v ->
        T ≠ []
        /\ no_line_break K /\ (61%N ∉ K) /\ trim K = K
        /\ exists raw, trim raw = raw
                       /\ v = match JSON_parse raw with
                              | Some x => x
                              | None => VStr raw
                              end).
Proof.
  pose proof (ParseLaws.parse_parsed text) as Hp. split.
  - intros T t HT. by destruct (Hp T t HT).
  - intros T t K v HT HK. destruct (Hp T t HT) as (_ & Hne & Ht).
    destruct (Ht K v HK) as ((Hb & He & Htr) & raw & Hraw & ->).
    split; [apply Hne; intros ->; by rewrite lookup_empty in HK|].
    repeat split; try done. by exists raw.
Qed.

(** X12. The tables [INI.parse] returns are exactly the sections the text
    names: a table exists if and only if some line of the text, trimmed,
    starts with [[] and ends with []] and has that name between them.  A
    header creates its table even when no key follows, and a text without a
    header (the empty text among them) parses to the empty Store. *)
Theorem parse_tables_are_headers (text : jstring) :
  (forall T, is_Some (INI.parse text !! T)
             <-> exists line, line ∈ split_lines text
                              /\ INI.is_header line = true
                              /\ INI.section_of line = T)
  /\ (Forall (fun line => INI.is_header line = false) (split_lines text) ->
      INI.parse text = ∅).
Proof.
  split.
  - intros T. unfold INI.parse. rewrite ParseLaws.lookup_parse_lines.
    + cbn [fst]. rewrite lookup_empty. split.
      * intros [[? [=]]|?]; done.
      * by right.
    + intros sec [=].
  - intros Hno. unfold INI.parse.
    by rewrite ParserFacts.parse_lines_outside.
Qed.

End ParseAnyText.

(** ** The record log: snapshots and lines of any shape *)

Module RecordLaws.
Section WithBuiltins.
Context `{Builtins}.
Import StringFacts.





Lemma NoDup_enumerate (store : Store) : NoDup (INI.enumerate store).
Proof.
  apply (NoDup_fmap_1 fst). unfold INI.enumerate, own_entries.
  rewrite <- list_fmap_compose.
  apply (NoDup_fst_map_to_list store).
Qed.

Lemma elem_of_enumerate (store : Store) (sec : jstring * list (jstring * val)) :
  sec ∈ INI.enumerate store ->
  exists t, store !! sec.1 = Some t /\ sec.2 = map_to_list t.
Proof.
  unfold INI.enumerate, own_entries. intros Hin.
  apply list_elem_of_fmap in Hin as ([n t] & -> & Hnt).
  apply elem_of_map_to_list in Hnt. by exists t.
Qed.

Lemma NoDup_records (store : Store) : NoDup (TxtDBCache.records store).
Proof.
  unfold TxtDBCache.records.
  change (NoDup (INI.enumerate store
                 ≫= fun sec => map (fun kv => (sec.1, kv.1, kv.2)) sec.2)).
  apply NoDup_bind.
  - intros x1 x2 [[T K] V] H1 H2 Hy1 Hy2.
    apply list_elem_of_In, in_map_iff in Hy1 as ([k1 v1] & [= E1 _ _] & _).
    apply list_elem_of_In, in_map_iff in Hy2 as ([k2 v2] & [= E2 _ _] & _).
    destruct (elem_of_enumerate store x1 H1) as (t1 & Ht1 & Hl1).
    destruct (elem_of_enumerate store x2 H2) as (t2 & Ht2 & Hl2).
    destruct x1 as [n1 l1], x2 as [n2 l2]. simpl in *. subst. congruence.
  - intros sec Hsec. destruct (elem_of_enumerate store sec Hsec) as (t & _ & ->).
    apply (NoDup_fmap_2_strong
             (fun kv : jstring * val => (sec.1, kv.1, kv.2))).
    + intros [k1 v1] [k2 v2] _ _ [= -> ->]. done.
    + apply NoDup_map_to_list.
  - apply NoDup_enumerate.
Qed.

Lemma NoDup_addresses (store : Store) :
  NoDup (TxtDBCache.address <$> TxtDBCache.records store).
Proof.
  apply NoDup_fmap_2_strong; [|apply NoDup_records].
  intros [[T1 K1] V1] [[T2 K2] V2] H1 H2 [= -> ->].
  apply TxtFacts.elem_of_records in H1, H2. congruence.
Qed.

Lemma unlines_nil (ls : list jstring) : unlines ls = [] <-> ls = [].
Proof.
  split; [|by intros ->]. destruct ls as [|l ls]; [done|].
  rewrite unlines_cons. intros Heq. apply (f_equal length) in Heq.
  rewrite !length_app in Heq. simpl in Heq. lia.
Qed.

Lemma txtContent_nil (store : Store) :
  TxtDBCache.txtContent store = []
  <-> forall T K, Dicts.entry store T K = None.
Proof.
  rewrite TxtFacts.txtContent_unlines, unlines_nil. split.
  - intros Hnil T K. destruct (Dicts.entry store T K) as [V|] eqn:E; [|done].
    apply TxtFacts.elem_of_records in E.
    apply map_eq_nil in Hnil. rewrite Hnil in E. by apply elem_of_nil in E.
  - intros Hno. destruct (TxtDBCache.records store) as [|[[T K] V] rs] eqn:E;
      [done|].
    assert (Hin : (T, K, V) ∈ TxtDBCache.records store)
      by (rewrite E; apply list_elem_of_here).
    apply TxtFacts.elem_of_records in Hin. by rewrite Hno in Hin.
Qed.


End WithBuiltins.
End RecordLaws.

Section RecordLog.
Context `{Builtins}.


(** X14. The snapshot [flush] writes in [TxtDBCache] is compact: it is one
    line per record, the records are exactly the entries of the Store, and
    no two records are for the same table and key, however many times a key
    was set or the loaded file repeated it.  The snapshot is the empty text
    exactly when the Store holds no entry. *)
Theorem snapshot_has_one_record_per_entry (store : Store) :
  TxtDBCache.txtContent store
  = unlines (TxtDBCache.line_of_record <$> TxtDBCache.records store)
  /\ NoDup (TxtDBCache.address <$> TxtDBCache.records store)
  /\ (forall T K V, (T, K, V) ∈ TxtDBCache.records store
                    <-> Dicts.entry store T K = Some V)
  /\ (TxtDBCache.txtContent store = []
      <-> forall T K, Dicts.entry store T K = None).
Proof.
  split; [apply TxtFacts.txtContent_unlines|].
  split; [apply RecordLaws.NoDup_addresses|].
  split; [apply TxtFacts.elem_of_records | apply RecordLaws.txtContent_nil].
Qed.


End RecordLog.

(** ** [LevelDBCache]: what [get] lets through, and the life-cycle hooks *)

Module LifecycleFacts.

#[local] Existing Instance MemLevel.lifecycle.

#[export] Instance lifecycle_contract : LifecycleContract status.
Proof. split; by intros db db' [= <-]. Qed.

Section WithLifecycle.
Context {DB : Type} `{!LevelLifecycle DB}.

Lemma dispose_not_open (db : DB) (log : list log_line) :
  db_status db ≠ status_open ->
  LevelDBCache.dispose (db, log) = (Resolved tt, (db, log)).
Proof. intros Hs. unfold LevelDBCache.dispose. by destruct (db_status db). Qed.

Lemma dispose_open (db : DB) (log : list log_line) :
  db_status db = status_open ->
  LevelDBCache.dispose (db, log)
  = match db_close db with
    | (Resolved _, db') => (Resolved tt, (db', log ++ [info_stopped]))
    | (Rejected err, db') => (Rejected err, (db', log))
    end.
Proof. intros Hs. unfold LevelDBCache.dispose. by rewrite Hs. Qed.

End WithLifecycle.
End LifecycleFacts.

Section LevelGet.
Context `{Builtins} {DB : Type} `{!Level DB}.

(** X16. [LevelDBCache.get] never fails with the engine's "not found":
    whatever the engine, a rejected [get] carries an engine error whose code
    is not [LEVEL_NOT_FOUND], unchanged; a resolved [get] carries the value
    the engine resolved with, or [undefined] in place of a
    [LEVEL_NOT_FOUND] error. *)
Theorem leveldb_get_never_reports_not_found (db : DB) (name key : jstring) :
  match LevelDBCache.get name key db with
  | Rejected e =>
      code e ≠ LEVEL_NOT_FOUND /\ sublevel_get db name key = Rejected e
  | Resolved v =>
      sublevel_get db name key = Resolved v
      \/ (v = VUndefined
          /\ exists e, sublevel_get db name key = Rejected e
                       /\ code e = LEVEL_NOT_FOUND)
  end.
Proof.
  unfold LevelDBCache.get, LevelDBCache.getTable.
  destruct (sublevel_get db name key) as [v|e]; [by left|].
  case_decide.
  - right. split; [done|]. by exists e.
  - done.
Qed.

End LevelGet.

Section LevelLifecycle.
Context {DB : Type} `{!LevelLifecycle DB}.

(** X17. The hooks of [LevelDBCache].  [ready] never fails: it logs one
    line, the start or the error of [open].  [dispose] calls [close] only
    when the status of the engine is [open]; otherwise it does nothing and
    logs nothing, and an error of [close] is passed on with nothing logged.
    With an engine whose successful [close] leaves the status [closed], a
    [dispose] that succeeded is not repeated: a second one changes nothing. *)
Theorem leveldb_dispose_closes_once (db : DB) (log : list log_line) :
  (exists line, (LevelDBCache.ready (db, log)).2 = log ++ [line]
                /\ (LevelDBCache.ready (db, log)).1 = (db_open db).2
                /\ line ≠ info_stopped)
  /\ (db_status db ≠ status_open ->
      LevelDBCache.dispose (db, log) = (Resolved tt, (db, log)))
  /\ (db_status db = status_open ->
      forall err db',
        db_close db = (Rejected err, db') ->
        LevelDBCache.dispose (db, log) = (Rejected err, (db', log)))
  /\ (LifecycleContract DB ->
      forall s',
        LevelDBCache.dispose (db, log) = (Resolved tt, s') ->
        LevelDBCache.dispose s' = (Resolved tt, s')).
Proof.
  split; [|split; [|split]].
  - unfold LevelDBCache.ready. destruct (db_open db) as [[[]|err] db'].
    + by exists info_started.
    + by exists (error_failed_to_open err).
  - apply LifecycleFacts.dispose_not_open.
  - intros Hs err db' Hc. rewrite LifecycleFacts.dispose_open by done.
    by rewrite Hc.
  - intros Hcontract [db' log'] Hd.
    destruct (db_status db) eqn:Hs;
      try (rewrite LifecycleFacts.dispose_not_open in Hd by congruence;
           injection Hd as <- <-;
           apply LifecycleFacts.dispose_not_open; congruence).
    rewrite LifecycleFacts.dispose_open in Hd by done.
    destruct (db_close db) as [[[]|err] db1] eqn:Hc; [|done].
    injection Hd as <- <-.
    apply LifecycleFacts.dispose_not_open.
    by rewrite (level_close_status db db1 Hc).
Qed.

End LevelLifecycle.

(** ** [forEach] with any callback *)

Module LaunchLaws.
Section WithBuiltins.
Context `{Builtins}.
Import Cache.

(** The calls made are an initial part of the traversal, in its order;
    every call but a throwing last one has pushed a task. *)
Lemma launch_prefix (callback : val -> jstring -> invocation)
    (entries : list (jstring * val)) :
  let r := launch callback entries in
  calls r `prefix_of` map swap entries
  /\ (length (calls r)
      = length (tasks r) + match thrown r with Some _ => 1 | None => 0 end)%nat
  /\ (thrown r = None -> calls r = map swap entries).
Proof.
  induction entries as [|[k v] rest IH]; simpl.
  - split; [done|]. split; done.
  - destruct (callback v k) as [a|e] eqn:E; simpl.
    + destruct IH as (Hp & Hl & Ha). split; [|split].
      * by apply prefix_cons.
      * by rewrite Hl.
      * intros Hn. by rewrite Ha.
    + split; [|split; [done | done]].
      apply prefix_cons, prefix_nil.
Qed.

Lemma launch_plain (callback : val -> jstring -> invocation)
    (entries : list (jstring * val)) :
  Forall (fun kv => callback kv.2 kv.1 = Returned Plain) entries ->
  thrown (launch callback entries) = None
  /\ Forall (fun a => a = Plain) (tasks (launch callback entries)).
Proof.
  induction 1 as [|[k v] rest Hkv Hrest IH]; simpl; [done|].
  simpl in Hkv. rewrite Hkv. simpl. destruct IH as [Ht Hp].
  split; [done | by constructor].
Qed.

Lemma Promise_all_plain (t0 : Z) (l : list awaitable) :
  Forall (fun a => a = Plain) l -> Promise_all t0 l = Fulfils t0.
Proof.
  intros Hl. unfold Promise_all.
  assert (Hr : first_rejection t0 l = None /\ all_fulfilled t0 l = Some t0).
  { induction Hl as [|a l -> Hl [IH1 IH2]]; [done|]. simpl.
    rewrite IH1, IH2. split; [done|]. by rewrite Z.max_id. }
  destruct Hr as [-> ->]. done.
Qed.

End WithBuiltins.
End LaunchLaws.

Section ForEachAny.
Context `{Builtins}.
Import Cache.

(** X18. Whatever the callback does, [forEach] calls it on an initial part
    of the traversal, in traversal order and once per entry, and pushes one
    task per call that returned; if no call threw, every entry was visited.
    When every call returns a plain value (a callback that is not
    asynchronous), and so on an empty table, the promise of [forEach] is
    fulfilled as soon as the traversal ends. *)
Theorem forEach_calls_prefix_in_order
    (callback : val -> jstring -> invocation)
    (entries : list (jstring * val)) (t0 : Z) :
  let run := forEach callback entries t0 in
  calls run.1 `prefix_of` map swap entries
  /\ (length (calls run.1)
      = length (tasks run.1) + match thrown run.1 with Some _ => 1 | None => 0 end)%nat
  /\ (thrown run.1 = None -> calls run.1 = map swap entries)
  /\ (Forall (fun kv => callback kv.2 kv.1 = Returned Plain) entries ->
      calls run.1 = map swap entries /\ run.2 = Fulfils t0).
Proof.
  destruct (LaunchLaws.launch_prefix callback entries) as (Hp & Hl & Ha).
  simpl. split; [done|]. split; [done|]. split; [done|].
  intros Hplain.
  destruct (LaunchLaws.launch_plain callback entries Hplain) as [Ht Hpl].
  split; [by apply Ha|]. rewrite Ht. by apply LaunchLaws.Promise_all_plain.
Qed.

End ForEachAny.

(** ** Line endings *)

Section LineEndings.
Context `{Builtins}.

(** X19. The loaders do not see line endings.  For lines that hold no line
    break, each followed by the same ending (any non-empty run of CR and LF:
    LF, CR LF, or several of them), [INI.parse] and [init] of both
    file-backed caches process exactly the lines, in order; blank lines
    among them make no difference. *)
Theorem line_endings_do_not_matter (sep : jstring) (ls : list jstring) :
  line_ending sep ->
  Forall no_line_break ls ->
  INI.parse (lines_with sep ls) = (INI.parse_lines ls (∅, None)).1
  /\ (forall st, TxtDBCache.init (ReadData (lines_with sep ls)) st
                 = TxtDBCache.init_lines ls st)
  /\ (forall st, ls ≠ [] ->
                 IniDBCache.init (ReadData (lines_with sep ls)) st
                 = ((INI.parse_lines ls (∅, None)).1, st.2))
  /\ (forall st, INI.parse_lines (nonblank ls) st = INI.parse_lines ls st)
  /\ (forall st, TxtDBCache.init_lines (nonblank ls) st
                 = TxtDBCache.init_lines ls st).
Proof.
  intros Hs Hall.
  assert (Hparse : INI.parse (lines_with sep ls)
                   = (INI.parse_lines ls (∅, None)).1).
  { unfold INI.parse. rewrite LineLaws.split_lines_with by done.
    by apply INIFacts.parse_unlines. }
  split; [exact Hparse|]. split; [|split; [|split]].
  - intros st. destruct ls as [|l ls]; [done|].
    rewrite <- (TxtFacts.init_unlines (l :: ls) st) by done.
    rewrite !InitFacts.txt_init_data.
    rewrite <- (LineLaws.split_lines_with sep (l :: ls)) by done.
    destruct (lines_with sep (l :: ls)) eqn:E.
    + apply LineLaws.lines_with_nil in E; [done | by destruct Hs].
    + rewrite StringFacts.unlines_cons. by destruct l.
  - intros st Hne. unfold IniDBCache.init.
    destruct (lines_with sep ls) eqn:E.
    + apply LineLaws.lines_with_nil in E; [done | by destruct Hs].
    + by rewrite Hparse.
  - intros st. apply INIFacts.parse_lines_nonblank.
  - intros st. apply TxtFacts.init_lines_nonblank.
Qed.

End LineEndings.

Lemma line_endings_do_not_matter_witness :
  @INI.parse Reference.builtins
    (js "[t]" ++ [13; 10]%N ++ js "k = 5" ++ [13; 10]%N)
  = {[ js "t" := {[ js "k" := VNum 5 ]} ]}.
Proof.
  refine (eq_trans (proj1 (@line_endings_do_not_matter Reference.builtins
                             [13; 10]%N [js "[t]"; js "k = 5"] _ _)) _).
  - split; [discriminate | by repeat constructor].
  - unfold no_line_break. repeat constructor.
  - vm_compute. reflexivity.
Defined.

(** ** Values without a JSON text, and writes that fail *)

(** The literals of the section format, as code units. *)
Ltac ini_literals :=
  change (js "[") with [91%N] in *;
  change (js "]") with [93%N] in *;
  change (js "=") with [61%N] in *;
  change (js " = ") with [32%N; 61%N; 32%N] in *.

Module EdgeFacts.
Section WithBuiltins.
Context `{Builtins}.
Import StringFacts INIFacts.

(** A key line holding any trimmed text: [parse] stores what [decode]
    makes of the text. *)
Lemma parse_line_text (sec key s : jstring) (res : Store) :
  sec ≠ [] ->
  INI.key_ok key ->
  trim s = s -> s ≠ [] ->
  ¬ (startsWith (js "[") key = true /\ endsWith (js "]") s = true) ->
  INI.parse_line (res, Some sec) (key ++ js " = " ++ s)
  = (<[sec := <[key := INI.decode s]> (default ∅ (res !! sec))]> res, Some sec).
Proof.
  intros Hsec (Hkb & Hke & Hkt) Htt Hne Hh.
  destruct (snoc_inv s Hne) as (s' & d & Hs).
  assert (Hd : isWhiteSpace d = false).
  { apply (trimmed_last s' d). by rewrite <- Hs. }
  assert (Htruthy : INI.truthy (Some sec) = true) by (by destruct sec).
  assert (Hraw : trim (32%N :: s) = s) by (by rewrite trim_space_l).
  unfold INI.parse_line. rewrite Htruthy. ini_literals.
  destruct key as [|c k].
  - (* the empty key: the line starts with a space *)
    change ([] ++ [32%N; 61%N; 32%N] ++ s) with (32%N :: 61%N :: 32%N :: s).
    assert (Htrim : trim (32%N :: 61%N :: 32%N :: s) = 61%N :: 32%N :: s).
    { rewrite trim_space_l. rewrite Hs.
      change (61%N :: 32%N :: s' ++ [d]) with (61%N :: (32%N :: s') ++ [d]).
      by apply trim_keep. }
    rewrite Htrim. rewrite startsWith1.
    change ((91 =? 61)%N) with false. simpl andb. cbv iota.
    change (61%N :: 32%N :: s) with ([] ++ 61%N :: 32%N :: s).
    rewrite (includes_first 61%N [] (32%N :: s)) by (by intros Hin; inversion Hin).
    rewrite (indexOf_first 61%N [] (32%N :: s)) by (by intros Hin; inversion Hin).
    simpl andb. cbv iota. simpl length. simpl app.
    rewrite (slice_prefix 0) by (simpl; lia).
    change (Z.of_nat 0 + 1) with (Z.of_nat 1).
    rewrite (slice_from_suffix 1) by (simpl; lia).
    simpl take. simpl drop. rewrite trim_nil, Hraw.
    reflexivity.
  - (* a key that starts with a code unit other than white space *)
    pose proof (trimmed_head c k Hkt) as Hc.
    assert (Hline : (c :: k) ++ [32%N; 61%N; 32%N] ++ s
                    = c :: (k ++ [32%N; 61%N; 32%N] ++ s') ++ [d]).
    { rewrite Hs. simpl. by rewrite <- !app_assoc. }
    assert (Htrim : trim ((c :: k) ++ [32%N; 61%N; 32%N] ++ s)
                    = (c :: k) ++ [32%N; 61%N; 32%N] ++ s).
    { rewrite Hline. by apply trim_keep. }
    rewrite Htrim.
    assert (Hhead : startsWith [91%N] ((c :: k) ++ [32%N; 61%N; 32%N] ++ s)
                    && endsWith [93%N] ((c :: k) ++ [32%N; 61%N; 32%N] ++ s) = false).
    { rewrite Hline. rewrite (app_comm_cons _ [d] c), endsWith1_snoc.
      rewrite <- app_comm_cons, startsWith1.
      destruct (91 =? c)%N eqn:E1; [|done].
      destruct (93 =? d)%N eqn:E2; [|done].
      exfalso. apply Hh. split.
      - rewrite startsWith1. exact E1.
      - rewrite Hs. rewrite endsWith1_snoc. exact E2. }
    rewrite Hhead.
    assert (Hsplit : (c :: k) ++ [32%N; 61%N; 32%N] ++ s
                     = ((c :: k) ++ [32%N]) ++ 61%N :: (32%N :: s)).
    { simpl. by rewrite <- app_assoc. }
    assert (Hnoeq : 61%N ∉ (c :: k) ++ [32%N]).
    { intros Hin. apply elem_of_app in Hin as [Hin|Hin]; [by apply Hke|].
      apply list_elem_of_singleton in Hin. discriminate. }
    rewrite Hsplit.
    rewrite includes_first by done. rewrite indexOf_first by done.
    simpl andb. cbv iota.
    rewrite slice_prefix by (rewrite !length_app; simpl; lia).
    replace (Z.of_nat (length ((c :: k) ++ [32%N])) + 1)
      with (Z.of_nat (S (length ((c :: k) ++ [32%N])))) by lia.
    rewrite slice_from_suffix by (rewrite !length_app; simpl; lia).
    rewrite take_app_length.
    replace (S (length ((c :: k) ++ [32%N])))
      with (length (((c :: k) ++ [32%N]) ++ [61%N]))
      by (rewrite !length_app; simpl; lia).
    change (((c :: k) ++ [32%N]) ++ 61%N :: 32%N :: s)
      with (((c :: k) ++ [32%N]) ++ [61%N] ++ 32%N :: s).
    rewrite app_assoc, drop_app_length.
    rewrite trim_space_r by done. rewrite Hraw.
    reflexivity.
Qed.

(** The section file of a Store with one table that holds one key. *)
Lemma stringify_singleton (sec key : jstring) (v : val) :
  INI.stringify {[ sec := {[ key := v ]} ]}
  = unlines [js "[" ++ sec ++ js "]"; INI.key_line (key, v); []].
Proof.
  unfold INI.stringify, INI.enumerate, own_entries.
  rewrite map_to_list_singleton. cbn [fmap list_fmap fst snd].
  rewrite map_to_list_singleton.
  rewrite stringify_entries_unlines. reflexivity.
Qed.

Lemma failed_write (content : jstring) (h : host) :
  writable h = false ->
  Host.writeFile content h
  = Host (now h) (timers h) (next_timer h) (file h) (writable h)
         (written h ++ [content]) (warnings h ++ [failed_to_write_cache_file]).
Proof. intros Hw. unfold Host.writeFile. by rewrite Hw. Qed.

End WithBuiltins.
End EdgeFacts.

Section Edges.
Context `{Builtins}.
Import DebouncedFileStore.

(** X20. A flush that fails is not retried.  When the pending timer fires
    and [fs.writeFile] fails, the file stays as it was and one warning is
    logged; [_debounce] is reset and no timer is left, so later turns of the
    event loop write nothing: the Store reaches the file only with the flush
    of a later mutating call. *)
Theorem failed_flush_is_not_retried (serialize : Store -> jstring)
    (t0 t t' : Z) (s : cache * host) :
  armed t0 s ->
  writable s.2 = false ->
  t0 + 1000 <= t ->
  let s1 := advance serialize t s in
  let s2 := advance serialize t' s1 in
  store s1.1 = store s.1
  /\ _debounce s1.1 = None
  /\ timers s1.2 = []
  /\ file s1.2 = file s.2
  /\ written s1.2 = written s.2 ++ [serialize (store s.1)]
  /\ warnings s1.2 = warnings s.2 ++ [failed_to_write_cache_file]
  /\ s2.1 = s1.1
  /\ written s2.2 = written s1.2
  /\ file s2.2 = file s.2
  /\ warnings s2.2 = warnings s1.2.
Proof.
  destruct s as [[st db] h]. intros (h0 & Hd & Ht & Hn) Hw Hle. simpl in *.
  subst db. unfold advance at 2, Host.due, Host.pass. rewrite Ht. simpl.
  eval_filter. unfold Host.writeFile. simpl. rewrite Hw. simpl.
  repeat split; reflexivity.
Qed.

(** X21. A value without a JSON text is read back as text.  For a value
    on which [JSON.stringify] returns [undefined] (the value [undefined]
    itself), [INI.stringify] writes the line [key = undefined]; as
    [JSON.parse] rejects that text, [INI.parse] stores the string
    [undefined]: the section file gives back a string where the Store held
    no JSON value. *)
Theorem ini_value_without_json_text (sec key : jstring) (v : val) :
  INI.section_ok sec ->
  INI.key_ok key ->
  JSON_stringify v = None ->
  JSON_parse (js "undefined") = None ->
  INI.stringify {[ sec := {[ key := v ]} ]}
  = js "[" ++ sec ++ js "]" ++ lf ++ key ++ js " = undefined" ++ lf ++ lf
  /\ INI.parse (INI.stringify {[ sec := {[ key := v ]} ]})
     = {[ sec := {[ key := VStr (js "undefined") ]} ]}.
Proof.
  intros [Hne Hsb] Hk Hs Hp.
  assert (Hline : INI.key_line (key, v) = key ++ js " = " ++ js "undefined").
  { unfold INI.key_line, INI.value_text. cbn [fst snd]. by rewrite Hs. }
  rewrite EdgeFacts.stringify_singleton, Hline. split.
  - unfold unlines, lf. simpl. by rewrite <- !app_assoc.
  - rewrite INIFacts.parse_unlines.
    + unfold INI.parse_lines. cbn [foldl].
      rewrite INIFacts.parse_line_header. rewrite lookup_empty.
      rewrite (EdgeFacts.parse_line_text sec key (js "undefined")); try done.
      * rewrite INIFacts.parse_line_blank. cbn [fst].
        rewrite lookup_insert_eq. cbn [default from_option id].
        unfold INI.decode. rewrite Hp. rewrite insert_insert_eq.
        reflexivity.
      * by intros [_ ?].
    + destruct Hk as (Hkb & _ & _). repeat constructor.
      * apply StringFacts.no_line_break_app; [done | by repeat constructor].
      * apply StringFacts.no_line_break_app; [done | by repeat constructor].
Qed.

End Edges.

Lemma failed_flush_is_not_retried_witness :
  let s := (@CacheState Reference.builtins example_store (Some 0%nat),
            Host 0 [(0%nat, 1000)] 1 None false [] []) in
  let s2 := @TxtDBCache.advance Reference.builtins 5000
              (@TxtDBCache.advance Reference.builtins 1000 s) in
  file s2.2 = None
  /\ written s2.2 = [@TxtDBCache.txtContent Reference.builtins example_store]
  /\ warnings s2.2 = [failed_to_write_cache_file].
Proof.
  destruct (@failed_flush_is_not_retried Reference.builtins
              TxtDBCache.txtContent 0 1000 5000
              (@CacheState Reference.builtins example_store (Some 0%nat),
               Host 0 [(0%nat, 1000)] 1 None false [] []))
    as (_ & _ & _ & _ & Hw1 & Hl1 & _ & Hw2 & Hf2 & Hl2).
  - exists 0%nat. repeat split; reflexivity.
  - reflexivity.
  - lia.
  - split; [exact Hf2|]. split.
    + exact (eq_trans Hw2 Hw1).
    + exact (eq_trans Hl2 Hl1).
Defined.

Lemma ini_value_without_json_text_witness :
  @INI.parse Reference.builtins
    (@INI.stringify Reference.builtins {[ js "t" := {[ js "k" := VUndefined ]} ]})
  = {[ js "t" := {[ js "k" := VStr (js "undefined") ]} ]}.
Proof.
  apply (@ini_value_without_json_text Reference.builtins (js "t") (js "k")
           VUndefined).
  all: first [ vm_compute; reflexivity
             | split; [discriminate | unfold no_line_break; by_compute]
             | unfold INI.key_ok, no_line_break; repeat split; by_compute ].
Defined.

(** ** The lines the loaders use *)

Module FilterLaws.
Section WithBuiltins.
Context `{Builtins}.

Lemma parse_line_irrelevant (st : Store * option jstring) (line : jstring) :
  INI.relevant line = false -> INI.parse_line st line = st.
Proof.
  unfold INI.relevant, INI.is_header, INI.has_equals. intros Hr.
  apply orb_false_iff in Hr as [Hh He]. destruct st as [res cur].
  unfold INI.parse_line. rewrite Hh, He. by rewrite andb_false_r.
Qed.

Lemma parse_lines_relevant (ls : list jstring) (st : Store * option jstring) :
  INI.parse_lines (filter (fun l => INI.relevant l = true) ls) st
  = INI.parse_lines ls st.
Proof.
  revert st. induction ls as [|l ls IH]; intros st; [done|].
  rewrite filter_cons. unfold INI.parse_lines in *. case_decide as E; simpl.
  - apply IH.
  - rewrite parse_line_irrelevant by by destruct (INI.relevant l). apply IH.
Qed.






End WithBuiltins.
End FilterLaws.

Section Filters.
Context `{Builtins}.

(** X22. A key line of the section file.  In a section with a non-empty
    name, a line [key = text], where the key has no [=] sign and neither
    key nor text has white space at its ends, stores under the key what
    [JSON.parse] makes of the text, or the text itself as a string when it is
    not JSON, whatever the text holds: the line is split at its first [=]
    sign only.  (A line whose key starts with [[] and whose text ends with
    []] is a header.) *)
Theorem parse_key_line_splits_at_first_equals (sec key text : jstring) (res : Store) :
  sec ≠ [] ->
  INI.key_ok key ->
  trim text = text -> text ≠ [] ->
  ¬ (startsWith (js "[") key = true /\ endsWith (js "]") text = true) ->
  INI.parse_line (res, Some sec) (key ++ js " = " ++ text)
  = (<[sec := <[key := match JSON_parse text with
                       | Some v => v
                       | None => VStr text
                       end]> (default ∅ (res !! sec))]> res, Some sec).
Proof. intros. by apply EdgeFacts.parse_line_text. Qed.

(** X23. [INI.parse] ignores every line that is neither a header nor holds
    an [=] sign (comments, stray text, blank lines): parsing the lines is
    parsing those among them that are relevant. *)
Theorem parse_ignores_other_lines (ls : list jstring) (st : Store * option jstring) :
  INI.parse_lines (filter (fun l => INI.relevant l = true) ls) st
  = INI.parse_lines ls st
  /\ (forall line, INI.is_header line = false -> INI.has_equals line = false ->
                   INI.parse_line st line = st).
Proof.
  split; [apply FilterLaws.parse_lines_relevant|].
  intros line Hh He. apply FilterLaws.parse_line_irrelevant.
  unfold INI.relevant. by rewrite Hh, He.
Qed.


End Filters.

Lemma parse_key_line_splits_at_first_equals_witness :
  @INI.parse_line Reference.builtins (∅, Some (js "t")) (js "a = b = c")
  = ({[ js "t" := {[ js "a" := VStr (js "b = c") ]} ]}, Some (js "t")).
Proof.
  refine (eq_trans (@parse_key_line_splits_at_first_equals Reference.builtins
                      (js "t") (js "a") (js "b = c") ∅ _ _ _ _ _) _).
  all: first [ vm_compute; reflexivity
             | discriminate
             | (intros [Hs _]; vm_compute in Hs; discriminate)
             | (unfold no_line_break; repeat split; by_compute) ].
Defined.

(** ** The further properties at concrete inputs *)

Lemma set_overwrites_and_commutes_witness :
  @Dicts.same_content Reference.builtins
    (@Dicts.set Reference.builtins (js "a") (js "k") (VNum 1)
       (@Dicts.set Reference.builtins (js "b") (js "k") (VNum 2) ∅))
    (@Dicts.set Reference.builtins (js "b") (js "k") (VNum 2)
       (@Dicts.set Reference.builtins (js "a") (js "k") (VNum 1) ∅)).
Proof.
  apply (proj2 (@set_overwrites_and_commutes Reference.builtins)).
  by_compute.
Defined.

Lemma delete_and_clear_absorb_witness :
  @Dicts.delete Reference.builtins (js "default") (js "zz") example_store
  = example_store
  /\ @Dicts.delete Reference.builtins (js "other") (js "zz") example_store
       !! js "other" = Some ∅.
Proof.
  destruct (@delete_and_clear_absorb Reference.builtins) as (_ & _ & H3 & H4).
  split.
  - apply (H3 (js "default") (js "zz")
             {[ js "a" := VNum 1; js "b" := VStr (js "x") ]});
      vm_compute; reflexivity.
  - apply H4. vm_compute. reflexivity.
Defined.

Lemma timers_never_stack_witness :
  DebouncedFileStore.tidy (@fresh Reference.builtins)
  /\ match _debounce (@TxtDBCache.history Reference.builtins
                        example_history fresh).1 with
     | None => timers (@TxtDBCache.history Reference.builtins
                         example_history fresh).2 = []
     | Some handle =>
         exists due, timers (@TxtDBCache.history Reference.builtins
                               example_history fresh).2 = [(handle, due)]
     end.
Proof.
  split; [reflexivity|].
  apply (@timers_never_stack Reference.builtins TxtDBCache.txtContent
           TxtDBCache.init example_history fresh).
  reflexivity.
Defined.

Lemma flushes_bounded_by_mutations_witness :
  (length (written (@TxtDBCache.history Reference.builtins
                      example_history fresh).2)
   + DebouncedFileStore.pending
       (@TxtDBCache.history Reference.builtins example_history fresh)
   <= 0 + 0 + 2)%nat
  /\ written (@IniDBCache.history Reference.builtins example_reads
                example_cache).2 = []
  /\ file (@IniDBCache.history Reference.builtins example_reads
             example_cache).2 = None.
Proof.
  split.
  - exact (proj1 (proj2 (@flushes_bounded_by_mutations Reference.builtins
                           TxtDBCache.txtContent TxtDBCache.init
                           example_history fresh eq_refl))).
  - exact (proj2 (proj2 (@flushes_bounded_by_mutations Reference.builtins
                           INI.stringify IniDBCache.init
                           example_reads example_cache eq_refl))
             eq_refl eq_refl).
Defined.

Lemma mutation_is_eventually_flushed_witness :
  let final := {[ js "default" := {[ js "k" := VNum 3 ]} ]} in
  let s' := @TxtDBCache.advance Reference.builtins 1200
              (@TxtDBCache.run Reference.builtins
                 ((0, @DebouncedFileStore.call_set Reference.builtins
                        (js "default") (js "k") (VNum 1)) :: example_burst)
                 fresh) in
  last (written s'.2) = Some (@TxtDBCache.txtContent Reference.builtins final)
  /\ file s'.2 = Some (@TxtDBCache.txtContent Reference.builtins final)
  /\ timers s'.2 = [].
Proof.
  destruct (@mutation_is_eventually_flushed Reference.builtins
              TxtDBCache.txtContent 0
              (@DebouncedFileStore.call_set Reference.builtins
                 (js "default") (js "k") (VNum 1))
              example_burst 1200 fresh)
    as (_ & _ & Ht & Hl & _ & Hf).
  - reflexivity.
  - vm_compute. discriminate.
  - vm_compute. repeat split; discriminate.
  - vm_compute. discriminate.
  - split; [exact Hl|]. split; [exact (Hf eq_refl) | exact Ht].
Defined.


Lemma txt_init_keeps_existing_entries_witness :
  is_Some (@Dicts.entry Reference.builtins
             (@TxtDBCache.init Reference.builtins
                (ReadData (JSString.unlines example_log)) (example_store, [])).1
             (js "default") (js "a")).
Proof.
  apply (proj1 (@txt_init_keeps_existing_entries Reference.builtins
                  (ReadData (JSString.unlines example_log)) (example_store, []))).
  vm_compute. by eexists.
Defined.

Lemma ini_init_discards_earlier_writes_witness :
  (@IniDBCache.get Reference.builtins (js "t") (js "k")
     (@IniDBCache.init_resumes Reference.builtins (ReadData example_ini)
        (@IniDBCache.set Reference.builtins (js "t") (js "k") (VNum 1) fresh))).1
  = VNum 5
  /\ (@IniDBCache.get Reference.builtins (js "t") (js "other")
        (@IniDBCache.init_resumes Reference.builtins (ReadData example_ini)
           (@IniDBCache.set Reference.builtins (js "t") (js "other") (VNum 1)
              fresh))).1
     = VUndefined.
Proof.
  split.
  - refine (eq_trans (proj1 (proj2 (@ini_init_discards_earlier_writes
                        Reference.builtins example_ini fresh (js "t") (js "k")
                        (VNum 1) _))) _).
    + vm_compute. discriminate.
    + vm_compute. reflexivity.
  - refine (eq_trans (proj1 (proj2 (@ini_init_discards_earlier_writes
                        Reference.builtins example_ini fresh (js "t")
                        (js "other") (VNum 1) _))) _).
    + vm_compute. discriminate.
    + vm_compute. reflexivity.
Defined.

Lemma parse_result_is_well_formed_witness :
  js "t" ≠ [] /\ trim (js "k") = js "k"
  /\ exists raw, trim raw = raw
                 /\ VNum 5 = match Reference.parse raw with
                             | Some x => x
                             | None => VStr raw
                             end.
Proof.
  destruct (proj2 (@parse_result_is_well_formed Reference.builtins example_ini)
              (js "t") {[ js "k" := VNum 5 ]} (js "k") (VNum 5))
    as (Hne & _ & _ & Htr & Hraw).
  - vm_compute. reflexivity.
  - vm_compute. reflexivity.
  - split; [exact Hne|]. split; [exact Htr | exact Hraw].
Defined.

Lemma parse_tables_are_headers_witness :
  is_Some (@INI.parse Reference.builtins example_ini !! js "empty")
  /\ @INI.parse Reference.builtins (js "k = 5" ++ lf ++ js "no header") = ∅.
Proof.
  split.
  - apply (proj1 (@parse_tables_are_headers Reference.builtins example_ini)
             (js "empty")).
    exists (js "[empty]"). split; [by_compute|]. split; vm_compute; reflexivity.
  - apply (proj2 (@parse_tables_are_headers Reference.builtins
                    (js "k = 5" ++ lf ++ js "no header"))).
    by_compute.
Defined.



Lemma leveldb_dispose_closes_once_witness :
  let s1 := @LevelDBCache.ready status MemLevel.lifecycle (status_opening, []) in
  let r := @LevelDBCache.dispose status MemLevel.lifecycle s1 in
  r = (Resolved tt, (status_closed, [info_started; info_stopped]))
  /\ @LevelDBCache.dispose status MemLevel.lifecycle r.2 = (Resolved tt, r.2).
Proof.
  split; [reflexivity|].
  exact (proj2 (proj2 (proj2 (@leveldb_dispose_closes_once status
                                MemLevel.lifecycle status_open [info_started])))
           LifecycleFacts.lifecycle_contract
           (status_closed, [info_started; info_stopped]) eq_refl).
Defined.

Lemma forEach_calls_prefix_in_order_witness :
  (@Cache.forEach Reference.builtins plain_callback
     [(js "a", VNum 1); (js "b", VNum 2)] 7).2
  = Cache.Fulfils 7.
Proof.
  apply (proj2 (proj2 (proj2 (@forEach_calls_prefix_in_order Reference.builtins
                                plain_callback
                                [(js "a", VNum 1); (js "b", VNum 2)] 7)))).
  repeat constructor.
Defined.

Lemma reads_leave_no_trace_witness :
  (@TxtDBCache.get Reference.builtins (js "default") (js "zz") example_cache).2
  = example_cache.
Proof.
  destruct (@reads_leave_no_trace Reference.builtins (js "default") (js "zz")
              example_cache) as ((Hget & _) & _ & _ & Hsame & _).
  rewrite Hget. apply Hsame. vm_compute. by eexists.
Defined.

(** ** The string functions and the reference built-ins at concrete inputs *)

Example trim_ex : trim (js "  a = 1 ") = js "a = 1".
Proof. reflexivity. Qed.

Example split_ex1 :
  split_lines (js "[default]" ++ [10%N] ++ js "a = 1" ++ [13; 10; 10]%N ++ js "b")
  = [js "[default]"; js "a = 1"; js "b"].
Proof. reflexivity. Qed.

Example split_ex2 : split_lines [10%N] = [[]; []].
Proof. reflexivity. Qed.

Example slice_ex : slice 1 (-1) (js "[tab]") = js "tab".
Proof. reflexivity. Qed.

Example indexOf_ex : indexOf (js "=") (js "k = a=b") = 2.
Proof. reflexivity. Qed.

Example ref_stringify_ex :
  Reference.stringify (VArr [VStr (js "default"); VStr (js "k"); VNum 42])
  = Some (js "[" ++ dq ++ js "default" ++ dq ++ js "," ++ dq ++ js "k" ++ dq
          ++ js ",42]").
Proof. vm_compute. reflexivity. Qed.

Example ref_parse_ex :
  Reference.parse (js " [" ++ dq ++ js "a\nA" ++ dq ++ js ", {"
                   ++ dq ++ js "k" ++ dq ++ js ": [null, true, -12]} ] ")
  = Some (VArr [VStr (js "a" ++ lf ++ js "A");
                VObj [(js "k", VArr [VNull; VBool true; VNum (-12)])]]).
Proof. vm_compute. reflexivity. Qed.

Example ref_parse_bad : Reference.parse (js "b = 1") = None.
Proof. vm_compute. reflexivity. Qed.

(** Example 1 of the specification: the text
    [[default]\na = 1\nb = "x"\n\n] parses to table [default] with
    [a = 1] and [b = "x"]. *)
Example INI_parse_example1 :
  @INI.parse Reference.builtins
    (js "[default]" ++ lf ++ js "a = 1" ++ lf ++ js "b = " ++ dq ++ js "x" ++ dq
     ++ lf ++ lf)
  = {[ js "default" := {[ js "a" := VNum 1; js "b" := VStr (js "x") ]} ]}.
Proof. vm_compute. reflexivity. Qed.
